(** * Core Banking Integration Demo: the conversion and notification core

    A shallow embedding of [demo/server.js]: the record codec
    (delimited text, tagged markup, structured document), the transform
    pipeline, the API bridge, the directory watcher, the transaction store
    and the publish/subscribe bus with their routes, followed by the
    properties proved about them.

    Modelling conventions.
    - A JavaScript string is a list of code units; the model keeps the
      code units below 256 ([ascii]).  Whitespace, word characters and
      case mapping are the ECMAScript ones restricted to that range.
    - A plain object used as a record is its sequence of own properties
      in creation order (assignment updates in place or appends).  That is
      the enumeration order of the object unless a name is an array index,
      and assignment creates the property unless the name is [__proto__];
      [modelled] and [modelled_record] tell the values and the records
      without such names, and the operations that print a value answer
      [Unrepresented] outside them.
    - The two global maps of the bus are finite maps; the names that a
      plain object inherits from [Object.prototype] ([inherited_names])
      are looked up as the code finds them: present, and no array.
    - A number is an integer of magnitude at most 2^53, which prints as
      its decimal digits; [JSON_parse] leaves a text with any other number
      outside the model.
    - An exception that leaves a route is the answer [Failed]; one that
      leaves a timer callback ends the process.
    - [new Date()], [Date.now()], the outcome of a file write and the
      outcome of a handler call are inputs of the operation that meets
      them.
    - Loops driven by [RegExp.prototype.exec] and the recursive descent of
      [JSON.parse] run on fuel; [None] / [OutOfFuel] means the fuel ran
      out, and the totality lemmas show that it never does. *)

From Stdlib Require Import Ascii.
From Stdlib Require Strings.String.
From stdpp Require Import base list gmap strings pretty.
From Stdlib Require Import Lia.

Set Warnings "-register-all,-clear-no-such-hyp".

(* ================================================================== *)
(** * Part I: the model *)
(* ================================================================== *)

(** ** Strings *)

Definition str := list ascii.

Definition lit (s : string) : str := String.list_ascii_of_string s.
Arguments lit : simpl never.

Definition LF : ascii := ascii_of_nat 10.
Definition CR : ascii := ascii_of_nat 13.

(** ECMAScript WhiteSpace and LineTerminator code units below 256:
    TAB, LF, VT, FF, CR, SP, NBSP. *)
Definition is_ws (c : ascii) : bool :=
  let n := nat_of_ascii c in
  ((9 <=? n) && (n <=? 13)) || (n =? 32) || (n =? 160).

Fixpoint trimStart (s : str) : str :=
  match s with
  | c :: s' => if is_ws c then trimStart s' else s
  | [] => []
  end.

Definition trimEnd (s : str) : str := rev (trimStart (rev s)).

(** [String.prototype.trim] *)
Definition trim (s : str) : str := trimEnd (trimStart s).

Definition cons_head (c : ascii) (l : list str) : list str :=
  match l with
  | cur :: rest => (c :: cur) :: rest
  | [] => [[c]]
  end.

(** [s.split(',')] and the like: split at every occurrence of one
    character; the result is never empty. *)
Fixpoint split_char (sep : ascii) (s : str) : list str :=
  match s with
  | [] => [[]]
  | c :: s' =>
      if Ascii.eqb c sep then [] :: split_char sep s'
      else cons_head c (split_char sep s')
  end.

(** [s.split(/\r?\n/)] *)
Fixpoint split_lines (s : str) : list str :=
  match s with
  | [] => [[]]
  | c :: s' =>
      if Ascii.eqb c LF then [] :: split_lines s'
      else
        match s' with
        | d :: s'' =>
            if Ascii.eqb c CR && Ascii.eqb d LF then [] :: split_lines s''
            else cons_head c (split_lines s')
        | [] => cons_head c (split_lines s')
        end
  end.

(** [Array.prototype.join] on an array of strings *)
Fixpoint join (sep : str) (l : list str) : str :=
  match l with
  | [] => []
  | x :: l' =>
      match l' with
      | [] => x
      | _ :: _ => x ++ sep ++ join sep l'
      end
  end.

(** A decimal digit *)
Definition is_digit (c : ascii) : bool :=
  let n := nat_of_ascii c in (48 <=? n) && (n <=? 57).

(** ** Objects *)

(** Own properties in creation order. *)
Definition object (V : Type) := list (str * V).

(** [o[k]] for an own property; [None] is [undefined]. *)
Fixpoint obj_get {V} (o : object V) (k : str) : option V :=
  match o with
  | [] => None
  | (k', v) :: o' => if decide (k' = k) then Some v else obj_get o' k
  end.

(** [o[k] = v] *)
Fixpoint obj_set {V} (o : object V) (k : str) (v : V) : object V :=
  match o with
  | [] => [(k, v)]
  | (k', v') :: o' =>
      if decide (k' = k) then (k', v) :: o' else (k', v') :: obj_set o' k v
  end.

(** [Object.keys(o)] *)
Definition obj_keys {V} (o : object V) : list str := map fst o.

(** The names every plain object inherits from [Object.prototype]: read on
    an object without such a property of its own, each gives a function,
    and [__proto__] the prototype itself. *)
Definition inherited_names : list str :=
  [lit "constructor"; lit "__defineGetter__"; lit "__defineSetter__";
   lit "hasOwnProperty"; lit "__lookupGetter__"; lit "__lookupSetter__";
   lit "isPrototypeOf"; lit "propertyIsEnumerable"; lit "toString";
   lit "valueOf"; lit "__proto__"; lit "toLocaleString"].

(** A name that starts with a digit; every array index is one. *)
Definition index_like (k : str) : bool :=
  match k with
  | c :: _ => is_digit c
  | [] => false
  end.

(** A name under which an object holds what was stored under it, at the
    place of its creation: not inherited, no array index. *)
Definition own_key (k : str) : bool :=
  negb (bool_decide (k ∈ inherited_names)) && negb (index_like k).

(** A Record: field name to text value.  A RecordSet: a sequence of them. *)
Definition record := object str.
Definition recordset := list record.

(** ** Record codec: delimited text *)

(** [x || ''] for [x] a string or [undefined] *)
Definition or_empty (x : option str) : str :=
  match x with
  | Some (c :: v) => c :: v
  | Some [] => []
  | None => []
  end.

(** [x ?? ''] for [x] a string or [undefined] *)
Definition nullish_empty (x : option str) : str :=
  match x with
  | Some v => v
  | None => []
  end.

(** [headers.forEach((h, i) => obj[h] = vals[i] || '')], from index [i] on *)
Fixpoint assign_fields (headers : list str) (i : nat) (vals : list str)
    (obj : record) : record :=
  match headers with
  | [] => obj
  | h :: hs => assign_fields hs (S i) vals (obj_set obj h (or_empty (vals !! i)))
  end.

Definition csv_lines (csv : str) : list str :=
  filter (λ l : str, l ≠ []) (map trim (split_lines (trim csv))).

Definition csvToRecords (csv : str) : recordset :=
  let lines := csv_lines csv in
  if length lines <? 2 then []
  else
    let headers := map trim (split_char "," (nth 0 lines [])) in
    map (λ line,
           let vals := map trim (split_char "," line) in
           assign_fields headers 0 vals [])
        (drop 1 lines).

Definition recordsToCsv (records : recordset) : str :=
  match records with
  | [] => []
  | r0 :: _ =>
      let headers := obj_keys r0 in
      let lines :=
        [join (lit ",") headers]
        ++ map (λ r, join (lit ",") (map (λ h, nullish_empty (obj_get r h)) headers))
               records in
      join [LF] lines
  end.

(** ** Record codec: tagged markup *)

Definition DQ : ascii := ascii_of_nat 34.

(** [s.replace(/c/g, r)] for a one-character pattern *)
Definition replace_char (c : ascii) (r : str) (s : str) : str :=
  concat (map (λ x, if Ascii.eqb x c then r else [x]) s).

Definition escXml (s : str) : str :=
  replace_char ">" (lit "&gt;")
    (replace_char "<" (lit "&lt;")
       (replace_char "&" (lit "&amp;") s)).

Definition xml_decl : str :=
  lit "<?xml version=" ++ [DQ] ++ lit "1.0" ++ [DQ] ++ lit " encoding="
  ++ [DQ] ++ lit "UTF-8" ++ [DQ] ++ lit "?>".

(** The two nested [forEach] loops append to [xml]. *)
Definition recordsToXml_tags (rootTag itemTag : str) (records : recordset) : str :=
  let xml := xml_decl ++ [LF] ++ lit "<" ++ rootTag ++ lit ">" ++ [LF] in
  let xml :=
    fold_left
      (λ xml (r : record),
         let xml := xml ++ lit "  <" ++ itemTag ++ lit ">" ++ [LF] in
         let xml :=
           fold_left
             (λ xml (kv : str * str),
                xml ++ lit "    <" ++ kv.1 ++ lit ">" ++ escXml kv.2
                    ++ lit "</" ++ kv.1 ++ lit ">" ++ [LF])
             r xml in
         xml ++ lit "  </" ++ itemTag ++ lit ">" ++ [LF])
      records xml in
  xml ++ lit "</" ++ rootTag ++ lit ">".

(** Every call site uses the default tags. *)
Definition recordsToXml (records : recordset) : str :=
  recordsToXml_tags (lit "transactions") (lit "transaction") records.

(** Case folding of the [i] flag: [toUpperCase] on one code unit. *)
Definition canon (c : ascii) : ascii :=
  let n := nat_of_ascii c in
  if ((97 <=? n) && (n <=? 122))
     || ((224 <=? n) && (n <=? 254) && negb (n =? 247))
  then ascii_of_nat (n - 32) else c.

(** [\w] *)
Definition is_word (c : ascii) : bool :=
  let n := nat_of_ascii c in
  ((48 <=? n) && (n <=? 57)) || ((65 <=? n) && (n <=? 90))
  || ((97 <=? n) && (n <=? 122)) || (n =? 95).

(** A literal pattern at the head of [s]; the rest of [s] on success. *)
Fixpoint match_lit (ci : bool) (pat s : str) : option str :=
  match pat with
  | [] => Some s
  | p :: pat' =>
      match s with
      | c :: s' =>
          if (if ci then Ascii.eqb (canon c) (canon p) else Ascii.eqb c p)
          then match_lit ci pat' s' else None
      | [] => None
      end
  end.

(** [([\s\S]*?)] followed by [close]: the shortest body, with the text
    after the closing pattern. *)
Fixpoint lazy_until (close : str → option str) (s : str) : option (str * str) :=
  match close s with
  | Some rest => Some ([], rest)
  | None =>
      match s with
      | [] => None
      | c :: s' =>
          match lazy_until close s' with
          | Some (body, rest) => Some (c :: body, rest)
          | None => None
          end
      end
  end.

(** [re.exec] from the current [lastIndex]: the leftmost start position at
    which the pattern matches. *)
Fixpoint exec_from {A} (attempt : str → option A) (s : str) : option A :=
  match attempt s with
  | Some m => Some m
  | None =>
      match s with
      | [] => None
      | _ :: s' => exec_from attempt s'
      end
  end.

(** [/<transaction>([\s\S]*?)<\/transaction>/gi] at one start position:
    the captured group and the text after the match. *)
Definition item_at (s : str) : option (str * str) :=
  match match_lit true (lit "<transaction>") s with
  | Some r => lazy_until (match_lit true (lit "</transaction>")) r
  | None => None
  end.

(** The greedy [\w+]: the longest run of word characters. *)
Fixpoint word_run (s : str) : str * str :=
  match s with
  | c :: s' =>
      if is_word c then let '(w, r) := word_run s' in (c :: w, r) else ([], s)
  | [] => ([], [])
  end.

(** [/<(\w+)>([\s\S]*?)<\/\1>/g] at one start position: both groups and the
    text after the match.  The character after the run must be [>], so no
    shorter run can match. *)
Definition field_at (s : str) : option (str * str * str) :=
  match s with
  | c :: r =>
      if Ascii.eqb c "<" then
        let '(name, r1) := word_run r in
        match name, r1 with
        | _ :: _, d :: r' =>
            if Ascii.eqb d ">" then
              match lazy_until (match_lit false (lit "</" ++ name ++ lit ">")) r' with
              | Some (body, rest) => Some (name, body, rest)
              | None => None
              end
            else None
        | _, _ => None
        end
      else None
  | [] => None
  end.

(** [while ((f = fieldRe.exec(m[1])) !== null) obj[f[1]] = f[2].trim()] *)
Fixpoint field_loop (fuel : nat) (s : str) (obj : record) : option record :=
  match fuel with
  | 0 => None
  | S fuel' =>
      match exec_from field_at s with
      | None => Some obj
      | Some (name, body, rest) => field_loop fuel' rest (obj_set obj name (trim body))
      end
  end.

(** [while ((m = itemRe.exec(xml)) !== null) { ... records.push(obj) }] *)
Fixpoint item_loop (fuel : nat) (s : str) (records : recordset) : option recordset :=
  match fuel with
  | 0 => None
  | S fuel' =>
      match exec_from item_at s with
      | None => Some records
      | Some (inner, rest) =>
          match field_loop (S (length inner)) inner [] with
          | Some obj => item_loop fuel' rest (records ++ [obj])
          | None => None
          end
      end
  end.

Definition xmlToRecords (xml : str) : option recordset :=
  item_loop (S (length xml)) xml [].

(** ** Record codec: structured document *)

(** A value made by [JSON.parse], or by an object literal over such
    values.  [JNum z] is the number [z]; the numbers of the model are the
    integers of magnitude at most 2^53, which print as their decimal
    digits. *)
Inductive jvalue : Type :=
| JNull
| JBool (b : bool)
| JNum (z : Z)
| JStr (s : str)
| JArr (items : list jvalue)
| JObj (members : list (str * jvalue)).

(** The largest magnitude of a number of the model: 2^53. *)
Definition max_safe : Z := 9007199254740992.

(** The values that the model prints as the code does: every number is
    within the bound, and no property name, at any depth, starts with a
    digit. *)
Fixpoint modelled (v : jvalue) : bool :=
  match v with
  | JNum z => (Z.abs z <=? max_safe)%Z
  | JArr items => forallb modelled items
  | JObj members =>
      forallb (λ kv : str * jvalue, negb (index_like kv.1) && modelled kv.2) members
  | _ => true
  end.

(** The records that the model holds as the code does, whether they were
    made by [JSON.parse] or by assignments, and on which every header is
    looked up as on the association list: modelled values under names
    that are not inherited. *)
Definition modelled_record (r : object jvalue) : bool :=
  forallb (λ kv : str * jvalue, own_key kv.1) r && modelled (JObj r).

Definition modelled_item (x : jvalue) : bool :=
  match x with
  | JObj r => modelled_record r
  | _ => modelled x
  end.

Definition json_of_record (r : record) : jvalue :=
  JObj (map (λ kv : str * str, (kv.1, JStr kv.2)) r).

Definition json_of_recordset (rs : recordset) : jvalue :=
  JArr (map json_of_record rs).

(** The members of a value that is an object. *)
Definition members_of (v : jvalue) : object jvalue :=
  match v with
  | JObj members => members
  | _ => []
  end.

Definition hex_digit (n : nat) : ascii :=
  if n <? 10 then ascii_of_nat (48 + n) else ascii_of_nat (87 + n).

(** QuoteJSONString, one code unit *)
Definition quote_char (c : ascii) : str :=
  let n := nat_of_ascii c in
  if n =? 34 then lit "\" ++ [DQ]
  else if n =? 92 then lit "\\"
  else if n =? 8 then lit "\b"
  else if n =? 9 then lit "\t"
  else if n =? 10 then lit "\n"
  else if n =? 12 then lit "\f"
  else if n =? 13 then lit "\r"
  else if n <? 32 then lit "\u00" ++ [hex_digit (n / 16); hex_digit (n mod 16)]
  else [c].

Definition quote (s : str) : str :=
  [DQ] ++ concat (map quote_char s) ++ [DQ].

(** SerializeJSONProperty with the gap [gap] at the indentation [indent]:
    with an empty gap everything is on one line. *)
Fixpoint stringify (gap indent : str) (v : jvalue) : str :=
  let inner := indent ++ gap in
  let opening := match gap with [] => [] | _ :: _ => [LF] ++ inner end in
  let closing := match gap with [] => [] | _ :: _ => [LF] ++ indent end in
  let sep := lit "," ++ opening in
  let colon := match gap with [] => lit ":" | _ :: _ => lit ": " end in
  match v with
  | JNull => lit "null"
  | JBool true => lit "true"
  | JBool false => lit "false"
  | JNum z => lit (pretty z)
  | JStr s => quote s
  | JArr [] => lit "[]"
  | JArr items =>
      lit "[" ++ opening ++ join sep (map (stringify gap inner) items)
      ++ closing ++ lit "]"
  | JObj [] => lit "{}"
  | JObj members =>
      lit "{" ++ opening
      ++ join sep (map (λ kv : str * jvalue,
                          let '(k, x) := kv in
                          quote k ++ colon ++ stringify gap inner x) members)
      ++ closing ++ lit "}"
  end.

(** [JSON.stringify(v)] *)
Definition JSON_stringify (v : jvalue) : str := stringify [] [] v.

(** [JSON.stringify(v, null, 2)] *)
Definition JSON_stringify2 (v : jvalue) : str := stringify (lit "  ") [] v.

(** What makes [JSON.parse] throw its SyntaxError. *)
Inductive syntax_error : Type :=
| UnexpectedEnd
| UnexpectedToken (c : ascii).

(** [Unmodelled]: the text is well formed so far, and denotes a value
    outside the model: an escape for a code unit of 256 or more, a number
    with a fraction or an exponent, an integer beyond the bound. *)
Inductive presult (A : Type) : Type :=
| Parsed (a : A) (rest : str)
| Rejected (cause : syntax_error)
| Unmodelled
| OutOfFuel.
Arguments Parsed {A} a rest.
Arguments Rejected {A} cause.
Arguments Unmodelled {A}.
Arguments OutOfFuel {A}.

Definition pmap {A B} (f : A → B) (r : presult A) : presult B :=
  match r with
  | Parsed a rest => Parsed (f a) rest
  | Rejected e => Rejected e
  | Unmodelled => Unmodelled
  | OutOfFuel => OutOfFuel
  end.

Definition json_ws (c : ascii) : bool :=
  let n := nat_of_ascii c in
  (n =? 32) || (n =? 9) || (n =? 10) || (n =? 13).

Fixpoint skip_ws (s : str) : str :=
  match s with
  | c :: s' => if json_ws c then skip_ws s' else s
  | [] => []
  end.

Definition unexpected {A} (s : str) : presult A :=
  match s with
  | [] => Rejected UnexpectedEnd
  | c :: _ => Rejected (UnexpectedToken c)
  end.

Definition hex_val (c : ascii) : option nat :=
  let n := nat_of_ascii c in
  if (48 <=? n) && (n <=? 57) then Some (n - 48)
  else if (97 <=? n) && (n <=? 102) then Some (n - 87)
  else if (65 <=? n) && (n <=? 70) then Some (n - 55)
  else None.

Definition prepend (c : ascii) (r : presult str) : presult str :=
  pmap (cons c) r.

(** The characters of a string literal after its opening quote. *)
Fixpoint parse_chars (s : str) : presult str :=
  match s with
  | [] => Rejected UnexpectedEnd
  | c :: s' =>
      if Ascii.eqb c DQ then Parsed [] s'
      else if Ascii.eqb c "\" then
        match s' with
        | [] => Rejected UnexpectedEnd
        | e :: s'' =>
            if Ascii.eqb e DQ then prepend DQ (parse_chars s'')
            else if Ascii.eqb e "\" then prepend "\" (parse_chars s'')
            else if Ascii.eqb e "/" then prepend "/" (parse_chars s'')
            else if Ascii.eqb e "b" then prepend (ascii_of_nat 8) (parse_chars s'')
            else if Ascii.eqb e "f" then prepend (ascii_of_nat 12) (parse_chars s'')
            else if Ascii.eqb e "n" then prepend LF (parse_chars s'')
            else if Ascii.eqb e "r" then prepend CR (parse_chars s'')
            else if Ascii.eqb e "t" then prepend (ascii_of_nat 9) (parse_chars s'')
            else if Ascii.eqb e "u" then
              match s'' with
              | h1 :: h2 :: h3 :: h4 :: s6 =>
                  match hex_val h1, hex_val h2, hex_val h3, hex_val h4 with
                  | Some a, Some b, Some c', Some d =>
                      let n := 4096 * a + 256 * b + 16 * c' + d in
                      if n <? 256 then prepend (ascii_of_nat n) (parse_chars s6)
                      else Unmodelled
                  | None, _, _, _ => Rejected (UnexpectedToken h1)
                  | _, None, _, _ => Rejected (UnexpectedToken h2)
                  | _, _, None, _ => Rejected (UnexpectedToken h3)
                  | _, _, _, None => Rejected (UnexpectedToken h4)
                  end
              | _ => Rejected UnexpectedEnd
              end
            else Rejected (UnexpectedToken e)
        end
      else if nat_of_ascii c <? 32 then Rejected (UnexpectedToken c)
      else prepend c (parse_chars s')
  end.

Fixpoint digits_run (s : str) : str * str :=
  match s with
  | c :: s' =>
      if is_digit c then let '(ds, r) := digits_run s' in (c :: ds, r) else ([], s)
  | [] => ([], [])
  end.

Definition digits_value (ds : str) : Z :=
  fold_left (λ acc d, (10 * acc + Z.of_nat (nat_of_ascii d - 48))%Z) ds 0%Z.

(** The optional fraction: its text and what follows. *)
Definition parse_frac (s : str) : presult str :=
  match s with
  | c :: r =>
      if Ascii.eqb c "." then
        match digits_run r with
        | ([], _) => unexpected r
        | (ds, r') => Parsed (c :: ds) r'
        end
      else Parsed [] s
  | [] => Parsed [] s
  end.

(** The optional exponent: its text and what follows. *)
Definition parse_exp (s : str) : presult str :=
  match s with
  | c :: r =>
      if Ascii.eqb c "e" || Ascii.eqb c "E" then
        let '(sign, r1) :=
          match r with
          | g :: r' => if Ascii.eqb g "+" || Ascii.eqb g "-" then ([g], r') else ([], r)
          | [] => ([], r)
          end in
        match digits_run r1 with
        | ([], _) => unexpected r1
        | (ds, r') => Parsed (c :: sign ++ ds) r'
        end
      else Parsed [] s
  | [] => Parsed [] s
  end.

(** The digits of a number literal, after its sign.  An integer literal
    within the bound is its value ([-0] prints and tests as [0]). *)
Definition parse_unsigned (neg : bool) (s : str) : presult jvalue :=
  match s with
  | [] => Rejected UnexpectedEnd
  | d :: r =>
      if is_digit d then
        let '(ip, r1) :=
          if Ascii.eqb d "0" then ([d], r)
          else let '(ds, r') := digits_run r in (d :: ds, r') in
        match parse_frac r1 with
        | Parsed fr r2 =>
            match parse_exp r2 with
            | Parsed ex r3 =>
                match fr, ex with
                | [], [] =>
                    let z := digits_value ip in
                    if (z <=? max_safe)%Z
                    then Parsed (JNum (if neg then - z else z)%Z) r3
                    else Unmodelled
                | _, _ => Unmodelled
                end
            | Rejected e => Rejected e
            | Unmodelled => Unmodelled
            | OutOfFuel => OutOfFuel
            end
        | Rejected e => Rejected e
        | Unmodelled => Unmodelled
        | OutOfFuel => OutOfFuel
        end
      else Rejected (UnexpectedToken d)
  end.

(** A number literal at the head of [s]. *)
Definition parse_number (s : str) : presult jvalue :=
  match s with
  | c :: r => if Ascii.eqb c "-" then parse_unsigned true r else parse_unsigned false s
  | [] => Rejected UnexpectedEnd
  end.

Definition parse_keyword (kw : str) (v : jvalue) (s : str) : presult jvalue :=
  match match_lit false kw s with
  | Some rest => Parsed v rest
  | None => unexpected s
  end.

(** Recursive descent over a JSON text, one level at a time.  Each step
    takes the parsers of the level below as arguments. *)

(** A value: [elements] reads the items of an array after its opening
    bracket, [members] the members of an object after its opening brace. *)
Definition value_step (elements members : str → presult jvalue) (s : str)
    : presult jvalue :=
  match skip_ws s with
  | [] => Rejected UnexpectedEnd
  | c :: r =>
      if Ascii.eqb c "{" then
        match skip_ws r with
        | d :: r' => if Ascii.eqb d "}" then Parsed (JObj []) r' else members r
        | [] => Rejected UnexpectedEnd
        end
      else if Ascii.eqb c "[" then
        match skip_ws r with
        | d :: r' => if Ascii.eqb d "]" then Parsed (JArr []) r' else elements r
        | [] => Rejected UnexpectedEnd
        end
      else if Ascii.eqb c DQ then pmap JStr (parse_chars r)
      else if Ascii.eqb c "t" then parse_keyword (lit "true") (JBool true) (c :: r)
      else if Ascii.eqb c "f" then parse_keyword (lit "false") (JBool false) (c :: r)
      else if Ascii.eqb c "n" then parse_keyword (lit "null") JNull (c :: r)
      else parse_number (c :: r)
  end.

(** The items of an array from the next item on; [acc] holds the items
    read so far. *)
Definition elements_step (value : str → presult jvalue)
    (elements : str → list jvalue → presult jvalue)
    (s : str) (acc : list jvalue) : presult jvalue :=
  match value s with
  | Parsed v r =>
      match skip_ws r with
      | d :: r' =>
          if Ascii.eqb d "," then elements r' (acc ++ [v])
          else if Ascii.eqb d "]" then Parsed (JArr (acc ++ [v])) r'
          else Rejected (UnexpectedToken d)
      | [] => Rejected UnexpectedEnd
      end
  | Rejected e => Rejected e
  | Unmodelled => Unmodelled
  | OutOfFuel => OutOfFuel
  end.

(** The members of an object from the next member on.  A repeated name
    keeps its first position and takes the last value. *)
Definition members_step (value : str → presult jvalue)
    (members : str → object jvalue → presult jvalue)
    (s : str) (acc : object jvalue) : presult jvalue :=
  match skip_ws s with
  | q :: r =>
      if Ascii.eqb q DQ then
        match parse_chars r with
        | Parsed k r1 =>
            match skip_ws r1 with
            | d :: r2 =>
                if Ascii.eqb d ":" then
                  match value r2 with
                  | Parsed v r3 =>
                      match skip_ws r3 with
                      | e :: r4 =>
                          if Ascii.eqb e "," then members r4 (obj_set acc k v)
                          else if Ascii.eqb e "}" then Parsed (JObj (obj_set acc k v)) r4
                          else Rejected (UnexpectedToken e)
                      | [] => Rejected UnexpectedEnd
                      end
                  | Rejected e => Rejected e
                  | Unmodelled => Unmodelled
                  | OutOfFuel => OutOfFuel
                  end
                else Rejected (UnexpectedToken d)
            | [] => Rejected UnexpectedEnd
            end
        | Rejected e => Rejected e
        | Unmodelled => Unmodelled
        | OutOfFuel => OutOfFuel
        end
      else Rejected (UnexpectedToken q)
  | [] => Rejected UnexpectedEnd
  end.

Fixpoint parse_value (fuel : nat) (s : str) : presult jvalue :=
  match fuel with
  | 0 => OutOfFuel
  | S fuel' =>
      value_step (λ r, parse_elements fuel' r []) (λ r, parse_members fuel' r []) s
  end
with parse_elements (fuel : nat) (s : str) (acc : list jvalue) : presult jvalue :=
  match fuel with
  | 0 => OutOfFuel
  | S fuel' => elements_step (parse_value fuel') (parse_elements fuel') s acc
  end
with parse_members (fuel : nat) (s : str) (acc : object jvalue) : presult jvalue :=
  match fuel with
  | 0 => OutOfFuel
  | S fuel' => members_step (parse_value fuel') (parse_members fuel') s acc
  end.

(** [JSON.parse]: one value, then only whitespace.  A value and the list
    it opens each take one unit of fuel per character at most. *)
Definition JSON_parse (s : str) : presult jvalue :=
  match parse_value (S (2 * length s)) s with
  | Parsed v rest =>
      match skip_ws rest with
      | [] => Parsed v []
      | c :: _ => Rejected (UnexpectedToken c)
      end
  | other => other
  end.

(** ** Exceptions and completions *)

Inductive exn : Type :=
| SyntaxError (cause : syntax_error)
| IoError (path : str)
| TypeError.

(** How a call ends.  [Unrepresented]: the result lies outside the model.
    [Exhausted]: the fuel of a loop ran out. *)
Inductive completion (A : Type) : Type :=
| Done (a : A)
| Thrown (e : exn)
| Unrepresented
| Exhausted.
Arguments Done {A} a.
Arguments Thrown {A} e.
Arguments Unrepresented {A}.
Arguments Exhausted {A}.

(** One call after the other: the first that does not return ends the
    sequence. *)
#[global] Instance completion_ret : MRet completion := λ A a, Done a.

#[global] Instance completion_bind : MBind completion :=
  λ A B f c,
    match c with
    | Done a => f a
    | Thrown e => Thrown e
    | Unrepresented => Unrepresented
    | Exhausted => Exhausted
    end.

(** ** JavaScript coercions used on stored values *)

(** [String(v)], the coercion of template literals and of [join]; [None]
    when it throws its TypeError.  An array is joined, a [null] element as
    the empty string.  An object without a [toString] member of its own
    prints through the inherited method; with one, which is no function,
    the coercion finds no method that gives a primitive and throws. *)
Fixpoint js_String (v : jvalue) : option str :=
  match v with
  | JNull => Some (lit "null")
  | JBool true => Some (lit "true")
  | JBool false => Some (lit "false")
  | JNum z => Some (lit (pretty z))
  | JStr s => Some s
  | JArr items =>
      texts ← mapM (λ x, match x with JNull => Some [] | _ => js_String x end) items;
      Some (join (lit ",") texts)
  | JObj members =>
      if bool_decide (lit "toString" ∈ obj_keys members) then None
      else Some (lit "[object Object]")
  end.

(** How [Array.prototype.join] renders one element. *)
Definition join_text (v : jvalue) : option str :=
  match v with
  | JNull => Some []
  | _ => js_String v
  end.

(** A coercion as a call: [None] is the TypeError. *)
Definition coerced (x : option str) : completion str :=
  match x with
  | Some s => Done s
  | None => Thrown TypeError
  end.

(** [!!v] *)
Definition truthy (v : jvalue) : bool :=
  match v with
  | JNull => false
  | JBool b => b
  | JNum z => negb (z =? 0)%Z
  | JStr s => negb (bool_decide (s = []))
  | JArr _ => true
  | JObj _ => true
  end.

(** [String.prototype.toLowerCase] on the modelled code units *)
Definition lower (c : ascii) : ascii :=
  let n := nat_of_ascii c in
  if ((65 <=? n) && (n <=? 90))
     || ((192 <=? n) && (n <=? 222) && negb (n =? 215))
  then ascii_of_nat (n + 32) else c.

Definition toLowerCase (s : str) : str := map lower s.

(** ** parseFile *)

(** The result is a JavaScript value, or [None] for [null]. *)
Definition parseFile (content ext : str) : completion (option jvalue) :=
  if decide (ext = lit ".csv") then
    Done (Some (json_of_recordset (csvToRecords content)))
  else if decide (ext = lit ".json") then
    match JSON_parse content with
    | Parsed v _ => Done (Some v)
    | Rejected cause => Thrown (SyntaxError cause)
    | Unmodelled => Unrepresented
    | OutOfFuel => Exhausted
    end
  else if decide (ext = lit ".xml") then
    match xmlToRecords content with
    | Some rs => Done (Some (json_of_recordset rs))
    | None => Exhausted
    end
  else Done None.

(** The RecordSet a JavaScript value is, if it is one. *)
Definition as_record (v : jvalue) : option record :=
  match v with
  | JObj members =>
      mapM (λ kv : str * jvalue,
              match kv.2 with JStr s => Some (kv.1, s) | _ => None end) members
  | _ => None
  end.

Definition as_recordset (v : jvalue) : option recordset :=
  match v with
  | JArr items => mapM as_record items
  | _ => None
  end.

(** ** The serializers on parsed values *)

(** [r[h] ?? ''] as [join] renders it.  A header that the record lacks
    and that names an inherited member finds that member. *)
Definition cell_text (r : object jvalue) (h : str) : completion str :=
  match obj_get r h with
  | Some v => coerced (join_text v)
  | None => if bool_decide (h ∈ inherited_names) then Unrepresented else Done []
  end.

(** One row of [recordsToCsv]: the cells under the headers, in order. *)
Definition row_fields (headers : list str) (r : object jvalue) : completion record :=
  mapM (λ h, s ← cell_text r h; Done (h, s)) headers.

(** [recordsToCsv] on objects that hold values of any kind *)
Definition csv_text (records : list (object jvalue)) : completion str :=
  match records with
  | [] => Done []
  | r0 :: _ =>
      rows ← mapM (row_fields (obj_keys r0)) records;
      Done (recordsToCsv rows)
  end.

(** The fields of one item of [recordsToXml], each through [String]. *)
Definition xml_fields (r : object jvalue) : completion record :=
  mapM (λ kv : str * jvalue, s ← coerced (js_String kv.2); Done (kv.1, s)) r.

(** [recordsToXml] on such objects *)
Definition xml_text (records : list (object jvalue)) : completion str :=
  rs ← mapM xml_fields records;
  Done (recordsToXml rs).

(** [JSON.stringify(records, null, 2)] *)
Definition json_text (records : list (object jvalue)) : str :=
  JSON_stringify2 (JArr (map JObj records)).

(** ** Answers of the routes *)

(** [Response s v]: the status [s] with the JSON text of [v].
    [Failed e]: the exception [e] left the handler, and Express answers
    with its error page, status 500.  [Untold]: the answer lies outside
    the model. *)
Inductive response : Type :=
| Response (status_code : nat) (json_body : jvalue)
| Failed (e : exn)
| Untold.

(** ** Event bus *)

Record message : Type := Message {
  offset : nat;
  timestamp : str;
  data : jvalue
}.

Definition json_of_message (m : message) : jvalue :=
  JObj [(lit "offset", JNum (Z.of_nat (offset m)));
        (lit "timestamp", JStr (timestamp m));
        (lit "data", data m)].

(** The server-sent-events frame of one message. *)
Definition sse_frame (m : message) : str :=
  lit "data: " ++ JSON_stringify (json_of_message m) ++ [LF; LF].

(** [topics] and [subscribers] are the two global maps; a subscriber is the
    response object of its connection, named by a number; [sent] holds what
    has been written to each response. *)
Record bus : Type := Bus {
  topics : gmap str (list message);
  subscribers : gmap str (list nat);
  sent : gmap nat (list str)
}.

Definition bus_init : bus := Bus ∅ ∅ ∅.

(** [res.write(frame)] *)
Definition res_write (res : nat) (frame : str) (sent : gmap nat (list str))
    : gmap nat (list str) :=
  <[res := default [] (sent !! res) ++ [frame]]> sent.

(** [publishToTopic].  Under an inherited name [topics[topic]] is the
    inherited member: the log is not created, and [push] is no function of
    that member. *)
Definition publishToTopic (topic : str) (payload : jvalue) (now : str)
    (b : bus) : completion (bus * message) :=
  if bool_decide (topic ∈ inherited_names) then Thrown TypeError
  else
    let log := default [] (topics b !! topic) in
    let msg := Message (length log) now payload in
    let topics' := <[topic := log ++ [msg]]> (topics b) in
    let sent' :=
      foldl (λ snt res, res_write res (sse_frame msg) snt) (sent b)
            (default [] (subscribers b !! topic)) in
    Done (Bus topics' (subscribers b) sent', msg).

(** [if (!m[k]) m[k] = []] for a name that is not inherited *)
Definition ensure {V} (k : str) (m : gmap str (list V)) : gmap str (list V) :=
  match m !! k with
  | Some _ => m
  | None => <[k := []]> m
  end.

(** [GET /api/subscribe/:topic] with [Accept: text/event-stream] on the
    connection [res].  Under an inherited name neither map is touched, and
    [forEach] is no function of the inherited member: the exception leaves
    the handler before anything is written or registered. *)
Definition subscribe_stream (topic : str) (res : nat) (b : bus) : completion bus :=
  if bool_decide (topic ∈ inherited_names) then Thrown TypeError
  else
    let topics' := ensure topic (topics b) in
    let subscribers' := ensure topic (subscribers b) in
    let log := default [] (topics' !! topic) in
    let sent' := foldl (λ snt msg, res_write res (sse_frame msg) snt) (sent b) log in
    let subs := default [] (subscribers' !! topic) in
    Done (Bus topics' (<[topic := subs ++ [res]]> subscribers') sent').

(** The same request without that header: a snapshot.  Under an inherited
    name the answer holds the inherited member in place of a log: the
    prototype object prints as an empty object, and a function is left out
    of the text. *)
Definition get_subscribe_poll (topic : str) (b : bus) : bus * response :=
  if bool_decide (topic = lit "__proto__") then
    (b, Response 200 (JObj [(lit "topic", JStr topic); (lit "messages", JObj [])]))
  else if bool_decide (topic ∈ inherited_names) then
    (b, Response 200 (JObj [(lit "topic", JStr topic)]))
  else
    let topics' := ensure topic (topics b) in
    let subscribers' := ensure topic (subscribers b) in
    (Bus topics' subscribers' (sent b),
     Response 200
       (JObj [(lit "topic", JStr topic);
              (lit "messages",
               JArr (map json_of_message (default [] (topics' !! topic))))])).

(** The [close] handler of a streaming connection *)
Definition unsubscribe (topic : str) (res : nat) (b : bus) : bus :=
  let subs := default [] (subscribers b !! topic) in
  Bus (topics b)
      (<[topic := filter (λ s, s ≠ res) subs]> (subscribers b))
      (sent b).

(** [POST /api/publish/:topic] *)
Definition post_publish (topic : str) (body : jvalue) (now : str) (b : bus)
    : bus * response :=
  match publishToTopic topic body now b with
  | Done (b', msg) =>
      (b', Response 200
             (JObj [(lit "status", JStr (lit "published"));
                    (lit "topic", JStr topic);
                    (lit "offset", JNum (Z.of_nat (offset msg)))]))
  | Thrown e => (b, Failed e)
  | _ => (b, Untold)
  end.

(** [GET /api/topics]: the summary object, as the map from its keys to
    their values. *)
Definition get_topics (b : bus) : gmap str nat := length <$> topics b.

(** Traffic on the bus: the two routes, and the closing of a streaming
    connection.  A request that ends in an exception leaves the bus as it
    was. *)
Inductive bus_op : Type :=
| Publish (topic : str) (payload : jvalue) (now : str)
| SubscribeStream (topic : str) (res : nat)
| SubscribePoll (topic : str)
| Close (topic : str) (res : nat).

Definition bus_step (op : bus_op) (b : bus) : bus :=
  match op with
  | Publish topic payload now => (post_publish topic payload now b).1
  | SubscribeStream topic res =>
      match subscribe_stream topic res b with
      | Done b' => b'
      | _ => b
      end
  | SubscribePoll topic => (get_subscribe_poll topic b).1
  | Close topic res => unsubscribe topic res b
  end.

Definition bus_run (ops : list bus_op) (b : bus) : bus :=
  fold_left (λ b op, bus_step op b) ops b.

(** ** Transaction store and export *)

Definition transaction := object jvalue.

(** [transactions] is the global array; [exports] is the exports
    directory, the text of each file under its name.  [None] stands for a
    file of which the model does not tell whether it was written, and with
    what text. *)
Record store : Type := Store {
  transactions : list transaction;
  exports : gmap str (option str)
}.

Definition store_init : store := Store [] ∅.

(** [...body] inside an object literal: every own property of [body], in
    order, is defined on the object under construction. *)
Definition spread (o body : object jvalue) : object jvalue :=
  fold_left (λ o (kv : str * jvalue), obj_set o kv.1 kv.2) body o.

(** [{ id: n, ...req.body, received_at: now }] *)
Definition make_txn (n : nat) (body : object jvalue) (now : str) : transaction :=
  obj_set (spread [(lit "id", JNum (Z.of_nat n))] body)
          (lit "received_at") (JStr now).

(** Template-literal interpolation of a property that may be missing. *)
Definition interpolate (x : option jvalue) : option str :=
  match x with
  | Some v => js_String v
  | None => Some (lit "undefined")
  end.

(** [x || ''] for a property that may be missing *)
Definition or_blank (x : option jvalue) : jvalue :=
  match x with
  | Some v => if truthy v then v else JStr []
  | None => JStr []
  end.

(** The line logged for a new transaction; [None] when one of its
    coercions throws. *)
Definition received_line (txn : transaction) : option str :=
  id ← interpolate (obj_get txn (lit "id"));
  txn_id ← js_String (or_blank (obj_get txn (lit "txn_id")));
  amount ← js_String (or_blank (obj_get txn (lit "amount")));
  currency ← js_String (or_blank (obj_get txn (lit "currency")));
  Some (lit "Transaction received: #" ++ id ++ lit " " ++ txn_id ++ lit " "
        ++ amount ++ lit " " ++ currency).

(** [POST /api/transactions]: the transaction is stored, then the line is
    logged, then the answer is sent. *)
Definition post_transaction (body : object jvalue) (now : str) (st : store)
    : store * response :=
  let txn := make_txn (length (transactions st) + 1) body now in
  let st' := Store (transactions st ++ [txn]) (exports st) in
  match received_line txn, interpolate (obj_get txn (lit "id")) with
  | Some _, Some id =>
      (st',
       Response 200
         (JObj [(lit "status", JStr (lit "accepted"));
                (lit "message", JStr (lit "Transaction #" ++ id ++ lit " stored"));
                (lit "transaction", JObj txn)]))
  | _, _ => (st', Failed TypeError)
  end.

(** [GET /api/transactions] *)
Definition get_transactions (st : store) : response :=
  Response 200
    (JObj [(lit "count", JNum (Z.of_nat (length (transactions st))));
           (lit "transactions", JArr (map JObj (transactions st)))]).

(** [req.query.format]: absent, one text, or a structure (the parameter
    given more than once, or with brackets). *)
Inductive query_value : Type :=
| QAbsent
| QText (s : str)
| QStructure.

(** [(req.query.format || 'json').toLowerCase()]; a structure has no such
    method. *)
Definition export_format (query_format : query_value) : completion str :=
  match query_format with
  | QAbsent => Done (toLowerCase (lit "json"))
  | QText [] => Done (toLowerCase (lit "json"))
  | QText (c :: f) => Done (toLowerCase (c :: f))
  | QStructure => Thrown TypeError
  end.

(** The text of an export in a supported format. *)
Definition export_text (format : str) (txns : list transaction) : completion str :=
  if decide (format = lit "json") then Done (json_text txns)
  else if decide (format = lit "csv") then csv_text txns
  else xml_text txns.

(** [POST /api/export]; [now_ms] is [Date.now()], and [write_ok] tells
    whether [fs.writeFileSync] succeeds.  Stored transactions that are not
    modelled leave the file and the answer untold. *)
Definition post_export (query_format : query_value) (now_ms : N) (write_ok : bool)
    (st : store) : store * response :=
  match export_format query_format with
  | Done format =>
      if negb (bool_decide (format ∈ [lit "csv"; lit "json"; lit "xml"])) then
        (st, Response 400
               (JObj [(lit "error", JStr (lit "Format must be csv, json, or xml"))]))
      else
        let filename := lit "export-" ++ lit (pretty now_ms) ++ lit "." ++ format in
        let untold := (Store (transactions st) (<[filename := None]> (exports st)), Untold) in
        if negb (forallb modelled_record (transactions st)) then untold
        else
          match export_text format (transactions st) with
          | Done content =>
              if write_ok then
                (Store (transactions st) (<[filename := Some content]> (exports st)),
                 Response 200
                   (JObj [(lit "status", JStr (lit "exported"));
                          (lit "file", JStr filename);
                          (lit "count", JNum (Z.of_nat (length (transactions st))))]))
              else (st, Failed (IoError filename))
          | Thrown e => (st, Failed e)
          | _ => untold
          end
  | Thrown e => (st, Failed e)
  | _ => (st, Untold)
  end.

(** Requests to the store, with the clock reading each one makes and, for
    an export, the outcome of its write. *)
Inductive request : Type :=
| Submit (body : object jvalue) (now : str)
| Listing
| Export (query_format : query_value) (now_ms : N) (write_ok : bool).

Definition handle (rq : request) (st : store) : store * response :=
  match rq with
  | Submit body now => post_transaction body now st
  | Listing => (st, get_transactions st)
  | Export f now_ms write_ok => post_export f now_ms write_ok st
  end.

Definition serve (rqs : list request) (st : store) : store :=
  fold_left (λ st rq, (handle rq st).1) rqs st.

(** ** Transform pipeline *)

Fixpoint take_while {A} (p : A → bool) (l : list A) : list A :=
  match l with
  | x :: l' => if p x then x :: take_while p l' else []
  | [] => []
  end.

Fixpoint drop_while {A} (p : A → bool) (l : list A) : list A :=
  match l with
  | x :: l' => if p x then drop_while p l' else l
  | [] => []
  end.

(** [path.extname] of a file name without directory part *)
Definition extname (name : str) : str :=
  let rev_name := rev name in
  let suffix := rev (take_while (λ c, negb (Ascii.eqb c ".")) rev_name) in
  match drop_while (λ c, negb (Ascii.eqb c ".")) rev_name with
  | [] => []
  | _ :: rev_before =>
      match rev_before with
      | [] => []
      | _ :: _ =>
          if bool_decide (name = lit "..") then [] else "."%char :: suffix
      end
  end.

(** [path.basename(name, ext)] of such a name *)
Definition basename (name ext : str) : str :=
  match ext with
  | [] => name
  | _ :: _ =>
      let n := length name - length ext in
      if bool_decide (drop n name = ext) then take n name else name
  end.

(** The array of objects a parsed document is, if it is one. *)
Definition as_objects (v : jvalue) : option (list (object jvalue)) :=
  match v with
  | JArr items =>
      mapM (λ x, match x with JObj members => Some members | _ => None end) items
  | _ => None
  end.

Inductive log_entry : Type :=
| ParseFailed (name : str) (e : exn)
| NoRecords (name : str)
| Detected (name : str) (count : nat)
| OutputWritten (file : str)
| EventPublished.

(** What a run of the pipeline leaves behind: the files written to the
    output directory, the log lines and the bus. *)
Record effects : Type := Effects {
  written : list (str * str);
  logged : list log_entry;
  the_bus : bus
}.

Definition conversions (ext : str) : list str :=
  if decide (ext = lit ".csv") then [lit ".json"; lit ".xml"]
  else if decide (ext = lit ".json") then [lit ".csv"; lit ".xml"]
  else if decide (ext = lit ".xml") then [lit ".csv"; lit ".json"]
  else [].

(** The body of [conversions[ext].forEach(target => ...)] up to the write *)
Definition convert (target : str) (records : list (object jvalue)) : completion str :=
  if decide (target = lit ".json") then Done (json_text records)
  else if decide (target = lit ".csv") then csv_text records
  else xml_text records.

(** The [forEach] over the targets.  [write_ok] tells for which output
    files [fs.writeFileSync] succeeds; where it throws, and where a
    conversion throws, the exception leaves the loop. *)
Fixpoint convert_each (write_ok : str → bool) (base : str)
    (records : list (object jvalue)) (targets : list str) (fx : effects)
    : effects * completion unit :=
  match targets with
  | [] => (fx, Done ())
  | target :: rest =>
      match convert target records with
      | Done out =>
          let outFile := base ++ target in
          if write_ok outFile then
            convert_each write_ok base records rest
              (Effects (written fx ++ [(outFile, out)])
                       (logged fx ++ [OutputWritten outFile])
                       (the_bus fx))
          else (fx, Thrown (IoError outFile))
      | Thrown e => (fx, Thrown e)
      | Unrepresented => (fx, Unrepresented)
      | Exhausted => (fx, Exhausted)
      end
  end.

(** [handleFileTransform] on the file [name] with text [content].
    [now_payload] and [now_message] are the two clock readings of the
    publication.  A parsed document that is not an array of modelled
    records is [Unrepresented]. *)
Definition handleFileTransform (write_ok : str → bool)
    (now_payload now_message : str) (name content : str) (fx : effects)
    : effects * completion unit :=
  let ext := toLowerCase (extname name) in
  let base := basename name ext in
  if negb (bool_decide (ext ∈ [lit ".csv"; lit ".json"; lit ".xml"])) then
    (fx, Done ())
  else
    match parseFile content ext with
    | Thrown e =>
        (Effects (written fx) (logged fx ++ [ParseFailed name e]) (the_bus fx),
         Done ())
    | Unrepresented => (fx, Unrepresented)
    | Exhausted => (fx, Exhausted)
    | Done None =>
        (Effects (written fx) (logged fx ++ [NoRecords name]) (the_bus fx), Done ())
    | Done (Some v) =>
        match as_objects v with
        | None => (fx, Unrepresented)
        | Some [] =>
            (Effects (written fx) (logged fx ++ [NoRecords name]) (the_bus fx),
             Done ())
        | Some records =>
            let fx := Effects (written fx)
                              (logged fx ++ [Detected name (length records)])
                              (the_bus fx) in
            if negb (forallb modelled_record records) then (fx, Unrepresented)
            else
              match convert_each write_ok base records (conversions ext) fx with
              | (fx, Done _) =>
                  let payload :=
                    JObj [(lit "source", JStr name);
                          (lit "recordCount", JNum (Z.of_nat (length records)));
                          (lit "timestamp", JStr now_payload)] in
                  match publishToTopic (lit "file-transforms") payload
                                       now_message (the_bus fx) with
                  | Done (b, _) =>
                      (Effects (written fx) (logged fx ++ [EventPublished]) b, Done ())
                  | Thrown e => (fx, Thrown e)
                  | Unrepresented => (fx, Unrepresented)
                  | Exhausted => (fx, Exhausted)
                  end
              | (fx, Thrown e) => (fx, Thrown e)
              | (fx, Unrepresented) => (fx, Unrepresented)
              | (fx, Exhausted) => (fx, Exhausted)
              end
        end
    end.

(** [handleApiBridge] on the file [name] with text [content]: the bodies
    of the requests it writes to [POST /api/transactions], in order.  A
    parsed document that is not an array of modelled items is
    [Unrepresented]. *)
Definition handleApiBridge (name content : str) : completion (list str) :=
  let ext := toLowerCase (extname name) in
  if negb (bool_decide (ext ∈ [lit ".csv"; lit ".json"; lit ".xml"])) then Done []
  else
    match parseFile content ext with
    | Thrown e => Done []
    | Unrepresented => Unrepresented
    | Exhausted => Exhausted
    | Done None => Done []
    | Done (Some (JArr items)) =>
        if forallb modelled_item items then Done (map JSON_stringify items)
        else Unrepresented
    | Done (Some _) => Unrepresented
    end.

(** ** Directory watcher *)

Inductive fkind : Type := Missing | RegularFile | Directory.

Definition existsSync (k : fkind) : bool :=
  match k with
  | Missing => false
  | _ => true
  end.

(** [fs.statSync(fp).isFile()]; it throws on a missing path. *)
Definition statSync_isFile (fp : str) (k : fkind) : completion bool :=
  match k with
  | Missing => Thrown (IoError fp)
  | RegularFile => Done true
  | Directory => Done false
  end.

Inductive handler : Type := HandleFileTransform | HandleApiBridge.

(** The two callbacks given to [setTimeout]. *)
Inductive timer : Type :=
| ClearFlag (key : str)
| Settle (fp : str) (h : handler).

(** [debounce] is the global flag table; [timers] the pending timeouts by
    due time, earliest first, ties in creation order; [calls] the handler
    invocations made; [uncaught] the exception that left a callback, if
    one did: it ends the process. *)
Record watcher : Type := Watcher {
  debounce : gset str;
  timers : list (nat * timer);
  calls : list (handler * str);
  uncaught : option exn
}.



(** [setTimeout(cb, delay)] at time [now] *)
Fixpoint schedule (due : nat) (cb : timer) (ts : list (nat * timer))
    : list (nat * timer) :=
  match ts with
  | [] => [(due, cb)]
  | (d, c) :: ts' =>
      if d <=? due then (d, c) :: schedule due cb ts' else (due, cb) :: ts
  end.

(** [path.join(dir, filename)] for a plain file name *)
Definition path_join (dir filename : str) : str := dir ++ lit "/" ++ filename.

(** A raw notification of [fs.watch(dir, ...)], as registered by
    [watchDir(dir, h)]. *)
Record raw_event : Type := RawEvent {
  ev_dir : str;
  ev_handler : handler;
  ev_type : str;
  ev_filename : option str
}.

(** The listener of [watchDir], run at time [now]. *)
Definition on_event (ev : raw_event) (now : nat) (w : watcher) : watcher :=
  match ev_filename ev with
  | None => w
  | Some [] => w
  | Some (c :: f) =>
      let filename := c :: f in
      if negb (bool_decide (ev_type ev = lit "rename"))
         && negb (bool_decide (ev_type ev = lit "change")) then w
      else
        let fp := path_join (ev_dir ev) filename in
        let key := fp in
        if bool_decide (key ∈ debounce w) then w
        else
          Watcher ({[key]} ∪ debounce w)
                  (schedule (now + 300) (Settle fp (ev_handler ev))
                     (schedule (now + 1000) (ClearFlag key) (timers w)))
                  (calls w) (uncaught w)
  end.





(* ================================================================== *)
(** * Part II: properties *)
(* ================================================================== *)

(** A closed decidable proposition, by evaluation. *)
Ltac closed_decide := apply (bool_decide_unpack _); vm_compute; exact I.

(** ** Objects *)

(** A JavaScript object has each own property once. *)
Definition wf_object {V} (o : object V) : Prop := NoDup (obj_keys o).

#[global] Instance wf_object_dec {V} (o : object V) : Decision (wf_object o).
Proof. unfold wf_object. apply _. Defined.

Section ObjectFacts.
Context {V : Type}.
Implicit Types (o : object V) (k : str) (v : V).

Lemma obj_get_set_eq o k v : obj_get (obj_set o k v) k = Some v.
Proof.
  induction o as [|[k' v'] o IH]; simpl.
  - by rewrite decide_True.
  - destruct (decide (k' = k)) as [->|Hne]; simpl.
    + by rewrite decide_True.
    + by rewrite decide_False.
Qed.

Lemma obj_get_set_ne o k k' v : k ≠ k' → obj_get (obj_set o k v) k' = obj_get o k'.
Proof.
  intros Hne. induction o as [|[k0 v0] o IH]; simpl.
  - by rewrite decide_False.
  - destruct (decide (k0 = k)) as [->|Hk0]; simpl.
    + by rewrite !decide_False.
    + destruct (decide (k0 = k')); auto.
Qed.

Lemma obj_get_None o k : obj_get o k = None ↔ k ∉ obj_keys o.
Proof.
  unfold obj_keys. induction o as [|[k' v'] o IH]; simpl.
  - split; [intros _; apply not_elem_of_nil | done].
  - rewrite not_elem_of_cons. destruct (decide (k' = k)) as [->|Hne].
    + split; [done | intros [? _]; congruence].
    + rewrite IH. split; [by intros ?; split | by intros [_ ?]].
Qed.

Lemma obj_get_Some_key o k v : obj_get o k = Some v → k ∈ obj_keys o.
Proof.
  intros H. destruct (decide (k ∈ obj_keys o)) as [|Hn]; [done|].
  apply obj_get_None in Hn. congruence.
Qed.

Lemma obj_set_fresh o k v : k ∉ obj_keys o → obj_set o k v = o ++ [(k, v)].
Proof.
  unfold obj_keys. induction o as [|[k' v'] o IH]; simpl; [done|].
  rewrite not_elem_of_cons. intros [Hne Hnin].
  rewrite decide_False by done. by rewrite IH.
Qed.

Lemma obj_keys_set_in o k v : k ∈ obj_keys o → obj_keys (obj_set o k v) = obj_keys o.
Proof.
  unfold obj_keys. induction o as [|[k' v'] o IH]; simpl.
  - by intros ?%elem_of_nil.
  - intros Hin. destruct (decide (k' = k)) as [->|Hne]; simpl; [done|].
    f_equal. apply IH. apply elem_of_cons in Hin as [?|?]; [congruence|done].
Qed.

Lemma obj_keys_set_fresh o k v : k ∉ obj_keys o → obj_keys (obj_set o k v) = obj_keys o ++ [k].
Proof.
  intros H. rewrite obj_set_fresh by done. unfold obj_keys. by rewrite map_app.
Qed.

Lemma wf_obj_set o k v : wf_object o → wf_object (obj_set o k v).
Proof.
  unfold wf_object. intros Hwf.
  destruct (decide (k ∈ obj_keys o)) as [Hin|Hnin].
  - by rewrite obj_keys_set_in.
  - rewrite obj_keys_set_fresh by done.
    apply NoDup_app. split_and!; [done| |apply NoDup_singleton].
    intros x Hx ->%list_elem_of_singleton. done.
Qed.
End ObjectFacts.

(** ** Transaction store *)

(** The spread writes the members of [body] over what is already there. *)
Lemma obj_get_spread (body o : object jvalue) (k : str) :
  wf_object body →
  obj_get (spread o body) k =
  match obj_get body k with
  | Some v => Some v
  | None => obj_get o k
  end.
Proof.
  unfold spread, wf_object, obj_keys.
  revert o. induction body as [|[k' v'] body IH]; intros o Hwf; simpl in *; [done|].
  apply NoDup_cons in Hwf as [Hnin Hwf].
  rewrite IH by done.
  destruct (decide (k' = k)) as [->|Hne].
  - apply obj_get_None in Hnin. rewrite Hnin. apply obj_get_set_eq.
  - by rewrite obj_get_set_ne.
Qed.

Lemma make_txn_received_at n body now :
  obj_get (make_txn n body now) (lit "received_at") = Some (JStr now).
Proof. apply obj_get_set_eq. Qed.

Lemma make_txn_id n body now :
  wf_object body →
  obj_get (make_txn n body now) (lit "id") =
  match obj_get body (lit "id") with
  | Some v => Some v
  | None => Some (JNum (Z.of_nat n))
  end.
Proof.
  intros Hwf. unfold make_txn.
  rewrite obj_get_set_ne by done.
  rewrite obj_get_spread by done.
  by destruct (obj_get body (lit "id")).
Qed.

(** The identifiers carried by the stored transactions, oldest first. *)
Definition stored_ids (st : store) : list (option jvalue) :=
  map (λ t : transaction, obj_get t (lit "id")) (transactions st).

Definition is_submit (rq : request) : bool :=
  match rq with
  | Submit _ _ => true
  | _ => false
  end.

Definition submissions (rqs : list request) : nat :=
  length (List.filter is_submit rqs).

(** The number [i] as an identifier. *)
Definition id_number (i : nat) : option jvalue := Some (JNum (Z.of_nat i)).

(** No submitted body has an [id] member of its own. *)
Definition lacks_id (rq : request) : Prop :=
  match rq with
  | Submit body _ => wf_object body ∧ obj_get body (lit "id") = None
  | _ => True
  end.

(** A submission is stored whatever becomes of its answer. *)
Lemma post_transaction_store body now st :
  (post_transaction body now st).1 =
  Store (transactions st ++ [make_txn (length (transactions st) + 1) body now])
        (exports st).
Proof. unfold post_transaction. by repeat case_match. Qed.

(** An export never touches the stored transactions. *)
Lemma post_export_transactions q now w st :
  transactions (post_export q now w st).1 = transactions st.
Proof. unfold post_export. by repeat case_match. Qed.

Lemma handle_transactions rq st :
  transactions (handle rq st).1 =
  match rq with
  | Submit body now =>
      transactions st ++ [make_txn (length (transactions st) + 1) body now]
  | _ => transactions st
  end.
Proof.
  destruct rq as [body now| |f ms w]; cbn [handle]; [|done|].
  - by rewrite post_transaction_store.
  - apply post_export_transactions.
Qed.

Lemma serve_snoc rqs rq st : serve (rqs ++ [rq]) st = (handle rq (serve rqs st)).1.
Proof. unfold serve. by rewrite fold_left_app. Qed.

Lemma serve_length rqs st :
  length (transactions (serve rqs st)) = length (transactions st) + submissions rqs.
Proof.
  induction rqs as [|rq rqs IH] using rev_ind.
  - simpl. unfold submissions. simpl. lia.
  - rewrite serve_snoc, handle_transactions.
    unfold submissions in *. rewrite List.filter_app, length_app. simpl.
    destruct rq; simpl; rewrite ?length_app; simpl; lia.
Qed.

(** Submissions whose bodies carry no [id] of their own are numbered
    [1..N] in submission order, whatever exports and listings come in
    between. *)
Lemma stored_ids_sequential rqs :
  Forall lacks_id rqs →
  stored_ids (serve rqs store_init) = map id_number (seq 1 (submissions rqs)).
Proof.
  induction rqs as [|rq rqs IH] using rev_ind; intros Hall; [done|].
  apply Forall_app in Hall as [Hall Hrq]. rewrite Forall_singleton in Hrq.
  specialize (IH Hall).
  unfold stored_ids in *. rewrite serve_snoc, handle_transactions.
  unfold submissions in *. rewrite List.filter_app, length_app.
  destruct rq as [body now| |f ms w]; simpl in *; rewrite ?Nat.add_0_r; try done.
  destruct Hrq as [Hwf Hid].
  rewrite map_app, IH. simpl.
  rewrite make_txn_id, Hid by done.
  pose proof (serve_length rqs store_init) as Hlen. simpl in Hlen.
  unfold submissions in Hlen. rewrite Hlen.
  rewrite seq_app, map_app. simpl. unfold id_number.
  do 4 f_equal. lia.
Qed.

(** C1, at the failing input: a body with an [id] member of its own is
    stored under that value, so the stored identifiers are not [1..N].
    Here two submissions, with an export between them, leave the
    identifiers ["7"; 2] where the monotonicity property asks for [1; 2]. *)
Theorem C1_client_id_replaces_sequence_number :
  let rqs := [Submit [(lit "id", JStr (lit "7")); (lit "amount", JStr (lit "50"))]
                     (lit "2026-01-01T00:00:00.000Z");
              Export (QText (lit "json")) 1767225600000%N true;
              Submit [(lit "amount", JStr (lit "60"))]
                     (lit "2026-01-01T00:00:01.000Z")] in
  submissions rqs = 2
  ∧ stored_ids (serve rqs store_init) = [Some (JStr (lit "7")); id_number 2]
  ∧ stored_ids (serve rqs store_init) ≠ map id_number (seq 1 (submissions rqs)).
Proof. vm_compute. split_and!; [done|done|discriminate]. Qed.

(** C10, as stated, fails for [received_at]: a submitted [received_at] is
    not kept, the stored transaction carries the server's clock reading. *)
Lemma C10_client_received_at_is_replaced :
  let body := [(lit "txn_id", JStr (lit "T1"));
               (lit "received_at", JStr (lit "1999-12-31"))] in
  let st := (post_transaction body (lit "2026-01-01") store_init).1 in
  obj_get body (lit "received_at") = Some (JStr (lit "1999-12-31"))
  ∧ map (λ t : transaction, obj_get t (lit "received_at")) (transactions st)
    = [Some (JStr (lit "2026-01-01"))]
  ∧ ¬ (∀ t, t ∈ transactions st →
            obj_get t (lit "received_at") = obj_get body (lit "received_at")).
Proof.
  vm_compute. split_and!; [done|done|].
  intros H. specialize (H _ (list_elem_of_here _ _)). vm_compute in H. discriminate.
Qed.

(** C10, amended: a submitted [id] is kept in place of the sequence number,
    because the body is spread after the [id] member; [received_at] is
    written after the spread, so the stored transaction always carries the
    server's clock reading, whatever the body holds.  The transaction is
    stored before the line of the log is built; when that line is built
    the request is answered with the stored transaction, and otherwise the
    exception of the coercion leaves the handler.  The [id] is a value of
    the model, so that the text of the answer is the one the code sends. *)
Theorem C10_body_id_wins_received_at_does_not
    (body : object jvalue) (now : str) (st : store) (v : jvalue) :
  wf_object body →
  obj_get body (lit "id") = Some v →
  modelled v = true →
  ∃ txn : transaction,
    transactions (post_transaction body now st).1 = transactions st ++ [txn]
    ∧ obj_get txn (lit "id") = Some v
    ∧ obj_get txn (lit "received_at") = Some (JStr now)
    ∧ match received_line txn with
      | Some _ =>
          ∃ id, js_String v = Some id
            ∧ (post_transaction body now st).2
              = Response 200
                  (JObj [(lit "status", JStr (lit "accepted"));
                         (lit "message",
                          JStr (lit "Transaction #" ++ id ++ lit " stored"));
                         (lit "transaction", JObj txn)])
      | None => (post_transaction body now st).2 = Failed TypeError
      end.
Proof.
  intros Hwf Hid _.
  exists (make_txn (length (transactions st) + 1) body now).
  assert (obj_get (make_txn (length (transactions st) + 1) body now) (lit "id") = Some v)
    as Hv by (by rewrite make_txn_id, Hid).
  split_and!.
  - by rewrite post_transaction_store.
  - done.
  - apply make_txn_received_at.
  - unfold post_transaction.
    destruct (received_line _) as [line|] eqn:Hline; [|done].
    unfold received_line in Hline. rewrite Hv in *. cbn [interpolate] in *.
    destruct (js_String v) as [id|]; [|done]. by exists id.
Qed.

Lemma C10_witness :
  ∃ txn : transaction,
    transactions
      (post_transaction [(lit "id", JStr (lit "abc"));
                         (lit "received_at", JStr (lit "1999-12-31"))]
                        (lit "2026-01-01") store_init).1 = [] ++ [txn]
    ∧ obj_get txn (lit "id") = Some (JStr (lit "abc"))
    ∧ obj_get txn (lit "received_at") = Some (JStr (lit "2026-01-01"))
    ∧ match received_line txn with
      | Some _ =>
          ∃ id, js_String (JStr (lit "abc")) = Some id
            ∧ (post_transaction [(lit "id", JStr (lit "abc"));
                                 (lit "received_at", JStr (lit "1999-12-31"))]
                                (lit "2026-01-01") store_init).2
              = Response 200
                  (JObj [(lit "status", JStr (lit "accepted"));
                         (lit "message",
                          JStr (lit "Transaction #" ++ id ++ lit " stored"));
                         (lit "transaction", JObj txn)])
      | None =>
          (post_transaction [(lit "id", JStr (lit "abc"));
                             (lit "received_at", JStr (lit "1999-12-31"))]
                            (lit "2026-01-01") store_init).2 = Failed TypeError
      end.
Proof.
  apply (C10_body_id_wins_received_at_does_not
           [(lit "id", JStr (lit "abc")); (lit "received_at", JStr (lit "1999-12-31"))]
           (lit "2026-01-01") store_init (JStr (lit "abc"))).
  - closed_decide.
  - reflexivity.
  - reflexivity.
Defined.

(** A value that no coercion turns into text: the request that submits it
    under [id] is stored, and answered with the error page. *)
Lemma post_transaction_uncoercible_id :
  let body := [(lit "id", JObj [(lit "toString", JNum 1)])] in
  let r := post_transaction body (lit "2026-01-01") store_init in
  length (transactions r.1) = 1 ∧ r.2 = Failed TypeError.
Proof. by vm_compute. Qed.

(** ** Export *)

Definition supported_formats : list str := [lit "csv"; lit "json"; lit "xml"].

(** A format parameter that is a structure has no [toLowerCase]: the
    exception leaves the handler before anything is checked or written. *)
Lemma post_export_structure now w st :
  post_export QStructure now w st = (st, Failed TypeError).
Proof. done. Qed.

(** C5, as stated, fails on letter case: [format=XML] is outside
    {csv, json, xml}, yet the request succeeds and writes an export file. *)
Lemma C5_uppercase_format_is_exported :
  let r := post_export (QText (lit "XML")) 1767225600000%N true store_init in
  (lit "XML" ∉ supported_formats)
  ∧ r.2 = Response 200
            (JObj [(lit "status", JStr (lit "exported"));
                   (lit "file", JStr (lit "export-1767225600000.xml"));
                   (lit "count", JNum 0)])
  ∧ exports r.1 !! lit "export-1767225600000.xml"
    = Some (Some (xml_decl ++ [LF] ++ lit "<transactions>" ++ [LF]
                  ++ lit "</transactions>")).
Proof. split; [closed_decide | by vm_compute]. Qed.

(** C5, amended: a format parameter that is one text is lower-cased first,
    and an absent or empty one stands for json; when the format so
    obtained is outside {csv, json, xml} the answer is the client error
    400, no export file is written and the store is left as it was. *)
Theorem C5_unsupported_format_is_refused
    (q : query_value) (now_ms : N) (write_ok : bool) (st : store) (format : str) :
  export_format q = Done format →
  format ∉ supported_formats →
  post_export q now_ms write_ok st
  = (st, Response 400
           (JObj [(lit "error", JStr (lit "Format must be csv, json, or xml"))])).
Proof.
  intros Hq Hout. unfold post_export. rewrite Hq. fold supported_formats.
  by rewrite bool_decide_eq_false_2 by done.
Qed.

Lemma C5_witness :
  post_export (QText (lit "xyz")) 5%N true store_init
  = (store_init,
     Response 400
       (JObj [(lit "error", JStr (lit "Format must be csv, json, or xml"))])).
Proof.
  apply (C5_unsupported_format_is_refused (QText (lit "xyz")) 5%N true store_init
           (lit "xyz")).
  - reflexivity.
  - closed_decide.
Defined.

(** ** Transform pipeline *)

(** The target is converted and its file is written. *)
Definition produced (write_ok : str → bool) (base : str)
    (records : list (object jvalue)) (t : str) : bool :=
  match convert t records with
  | Done _ => write_ok (base ++ t)
  | _ => false
  end.

(** The output files of the targets [ts] that are converted. *)
Definition outputs (base : str) (records : list (object jvalue)) (ts : list str)
    : list (str * str) :=
  omap (λ t, match convert t records with
             | Done out => Some (base ++ t, out)
             | _ => None
             end) ts.

(** How the step of a target that is not produced ends. *)
Definition failure (base : str) (records : list (object jvalue)) (t : str)
    : completion unit :=
  match convert t records with
  | Done _ => Thrown (IoError (base ++ t))
  | Thrown e => Thrown e
  | Unrepresented => Unrepresented
  | Exhausted => Exhausted
  end.

(** The loop over the targets produces them up to the first that fails,
    in its conversion or in its write, and stops there. *)
Lemma convert_each_spec write_ok base records targets fx :
  let ok := take_while (produced write_ok base records) targets in
  convert_each write_ok base records targets fx =
  (Effects (written fx ++ outputs base records ok)
           (logged fx ++ map (λ t, OutputWritten (base ++ t)) ok)
           (the_bus fx),
   match drop_while (produced write_ok base records) targets with
   | [] => Done ()
   | t :: _ => failure base records t
   end).
Proof.
  revert fx. induction targets as [|t ts IH]; intros fx; simpl.
  - rewrite !app_nil_r. by destruct fx.
  - destruct (produced write_ok base records t) eqn:Hp; unfold produced in Hp;
      destruct (convert t records) as [out| | |] eqn:Hc; try done; rewrite ?Hp.
    + rewrite IH. unfold outputs. simpl. rewrite Hc. by rewrite <- !app_assoc.
    + unfold failure. rewrite Hc. simpl. rewrite !app_nil_r. by destruct fx.
    + unfold failure. rewrite Hc. simpl. rewrite !app_nil_r. by destruct fx.
    + unfold failure. rewrite Hc. simpl. rewrite !app_nil_r. by destruct fx.
    + unfold failure. rewrite Hc. simpl. rewrite !app_nil_r. by destruct fx.
Qed.

Lemma mapM_done_or_type_error {A B} (f : A → completion B) (l : list A) :
  Forall (λ x, (∃ y, f x = Done y) ∨ f x = Thrown TypeError) l →
  (∃ ys, mapM f l = Done ys) ∨ mapM f l = Thrown TypeError.
Proof.
  induction 1 as [|x l Hx _ IH]; [left; by exists []|].
  cbn [mapM]. destruct Hx as [[y ->]| ->]; [|by right]. cbn.
  destruct IH as [[ys ->]| ->]; [left; by eexists|by right].
Qed.

Lemma coerced_cases x : (∃ s, coerced x = Done s) ∨ coerced x = Thrown TypeError.
Proof. destruct x; [left; by eexists|by right]. Qed.

Lemma modelled_keys (r : object jvalue) :
  modelled_record r = true → Forall (λ k, k ∉ inherited_names) (obj_keys r).
Proof.
  unfold modelled_record. intros [H _]%andb_true_iff.
  unfold obj_keys. apply Forall_map, Forall_forall.
  intros kv Hin. apply list_elem_of_In in Hin.
  apply (proj1 (forallb_forall _ _) H) in Hin. rename Hin into Hk.
  unfold own_key in Hk.
  apply andb_true_iff in Hk as [Hk _]. apply negb_true_iff in Hk.
  by apply bool_decide_eq_false in Hk.
Qed.

(** On modelled records a conversion gives its text or throws the
    TypeError of a coercion. *)
Lemma convert_modelled t records :
  forallb modelled_record records = true →
  (∃ out, convert t records = Done out) ∨ convert t records = Thrown TypeError.
Proof.
  intros Hm. unfold convert. repeat case_decide; [left; by eexists| |].
  - unfold csv_text. destruct records as [|r0 rest]; [left; by eexists|].
    assert (Forall (λ k, k ∉ inherited_names) (obj_keys r0)) as Hkeys.
    { apply modelled_keys. by apply andb_true_iff in Hm as [? _]. }
    destruct (mapM_done_or_type_error (row_fields (obj_keys r0)) (r0 :: rest))
      as [[rows ->]| ->]; [|left; by eexists|by right].
    apply Forall_forall. intros r _. unfold row_fields.
    apply mapM_done_or_type_error.
    eapply Forall_impl; [exact Hkeys|]. intros h Hh. cbn beta.
    unfold cell_text. destruct (obj_get r h) as [v|].
    + destruct (coerced_cases (join_text v)) as [[s ->]| ->]; [left; by eexists|by right].
    + rewrite bool_decide_eq_false_2 by done. left. by eexists.
  - unfold xml_text.
    destruct (mapM_done_or_type_error xml_fields records)
      as [[rows ->]| ->]; [|left; by eexists|by right].
    apply Forall_forall. intros r _. unfold xml_fields.
    apply mapM_done_or_type_error, Forall_forall. intros kv _. cbn beta.
    destruct (coerced_cases (js_String kv.2)) as [[s ->]| ->]; [left; by eexists|by right].
Qed.

Lemma file_transforms_plain : lit "file-transforms" ∉ inherited_names.
Proof. closed_decide. Qed.

(** A publication on a topic whose name is not inherited. *)
Lemma publishToTopic_plain topic payload now b :
  topic ∉ inherited_names →
  publishToTopic topic payload now b =
  Done (bus_step (Publish topic payload now) b,
        Message (length (default [] (topics b !! topic))) now payload).
Proof.
  intros Hp. unfold bus_step, post_publish, publishToTopic.
  by rewrite bool_decide_eq_false_2 by done.
Qed.

(** C6, as stated, fails: when the first target of a delimited-text input
    cannot be written, the second target, whose write would succeed, is not
    written either, and nothing is published. *)
Lemma C6_failed_write_blocks_the_rest :
  let content := lit "id,amount" ++ [LF] ++ lit "1,100" ++ [LF] ++ lit "2,200" in
  let write_ok := λ f : str, negb (bool_decide (f = lit "batch.json")) in
  let r := handleFileTransform write_ok (lit "t1") (lit "t2") (lit "batch.csv")
                               content (Effects [] [] bus_init) in
  conversions (lit ".csv") = [lit ".json"; lit ".xml"]
  ∧ write_ok (lit "batch.xml") = true
  ∧ written r.1 = []
  ∧ topics (the_bus r.1) = ∅
  ∧ r.2 = Thrown (IoError (lit "batch.json")).
Proof. by vm_compute. Qed.

(** C6, amended: the target formats are converted and written one after
    the other with no isolation.  The targets before the first failure, of
    a conversion or of a write, are written; the failure raises out of the
    handler, an [IoError] for a write and the TypeError of the coercion
    for a conversion, so the targets after it are not written and no
    notification is published; when nothing fails, every target is written
    and one notification is published. *)
Theorem C6_writes_stop_at_first_failure
    (write_ok : str → bool) (now_payload now_message name content : str)
    (fx : effects) (v : jvalue) (r0 : object jvalue) (records : list (object jvalue)) :
  let ext := toLowerCase (extname name) in
  let base := basename name ext in
  let r := handleFileTransform write_ok now_payload now_message name content fx in
  let payload :=
    JObj [(lit "source", JStr name);
          (lit "recordCount", JNum (Z.of_nat (length (r0 :: records))));
          (lit "timestamp", JStr now_payload)] in
  ext ∈ [lit ".csv"; lit ".json"; lit ".xml"] →
  parseFile content ext = Done (Some v) →
  as_objects v = Some (r0 :: records) →
  forallb modelled_record (r0 :: records) = true →
  written r.1 =
    written fx
    ++ outputs base (r0 :: records)
         (take_while (produced write_ok base (r0 :: records)) (conversions ext))
  ∧ match drop_while (produced write_ok base (r0 :: records)) (conversions ext) with
    | [] =>
        r.2 = Done ()
        ∧ the_bus r.1
          = bus_step (Publish (lit "file-transforms") payload now_message) (the_bus fx)
    | t :: _ =>
        r.2 = failure base (r0 :: records) t
        ∧ (r.2 = Thrown (IoError (base ++ t)) ∨ r.2 = Thrown TypeError)
        ∧ the_bus r.1 = the_bus fx
    end.
Proof.
  intros ext base r payload Hext Hparse Hobjs Hm.
  subst r. unfold handleFileTransform. fold ext. fold base.
  rewrite bool_decide_eq_true_2 by done. cbn [negb].
  rewrite Hparse, Hobjs, Hm. cbn [negb].
  rewrite convert_each_spec. cbn [written logged the_bus].
  destruct (drop_while (produced write_ok base (r0 :: records)) (conversions ext))
    as [|t ts].
  - rewrite publishToTopic_plain by apply file_transforms_plain. done.
  - unfold failure.
    destruct (convert_modelled t (r0 :: records) Hm) as [[out ->]| ->]; simpl; auto.
Qed.

Lemma C6_witness :
  let write_ok := λ f : str, negb (bool_decide (f = lit "batch.xml")) in
  let content := lit "id,amount" ++ [LF] ++ lit "1,100" in
  let r0 := [(lit "id", JStr (lit "1")); (lit "amount", JStr (lit "100"))] in
  let ext := toLowerCase (extname (lit "batch.csv")) in
  let base := basename (lit "batch.csv") ext in
  let r := handleFileTransform write_ok (lit "t1") (lit "t2") (lit "batch.csv")
                               content (Effects [] [] bus_init) in
  written r.1 =
    [] ++ outputs base [r0] (take_while (produced write_ok base [r0]) (conversions ext))
  ∧ match drop_while (produced write_ok base [r0]) (conversions ext) with
    | [] =>
        r.2 = Done ()
        ∧ the_bus r.1
          = bus_step
              (Publish (lit "file-transforms")
                 (JObj [(lit "source", JStr (lit "batch.csv"));
                        (lit "recordCount", JNum (Z.of_nat (length [r0])));
                        (lit "timestamp", JStr (lit "t1"))])
                 (lit "t2")) bus_init
    | t :: _ =>
        r.2 = failure base [r0] t
        ∧ (r.2 = Thrown (IoError (base ++ t)) ∨ r.2 = Thrown TypeError)
        ∧ the_bus r.1 = bus_init
    end.
Proof.
  intros write_ok content r0.
  apply (C6_writes_stop_at_first_failure write_ok (lit "t1") (lit "t2")
           (lit "batch.csv") content (Effects [] [] bus_init)
           (json_of_recordset [[(lit "id", lit "1"); (lit "amount", lit "100")]])
           r0 []).
  - closed_decide.
  - vm_compute. reflexivity.
  - vm_compute. reflexivity.
  - vm_compute. reflexivity.
Defined.

(** A conversion that throws ends the handler as a failed write does: for
    a structured document whose record holds a value that no coercion
    turns into text, nothing is written and nothing is published. *)
Lemma handleFileTransform_uncoercible_value :
  let content := lit "[{" ++ [DQ] ++ lit "a" ++ [DQ] ++ lit ":{" ++ [DQ]
                 ++ lit "toString" ++ [DQ] ++ lit ":1}}]" in
  let r := handleFileTransform (λ _, true) (lit "t1") (lit "t2") (lit "batch.json")
                               content (Effects [] [] bus_init) in
  written r.1 = [] ∧ topics (the_bus r.1) = ∅ ∧ r.2 = Thrown TypeError.
Proof. by vm_compute. Qed.

(** ** Event bus *)

(** The log of a topic, its live subscribers, what a connection received. *)
Definition log_of (b : bus) (topic : str) : list message :=
  default [] (topics b !! topic).

Definition subs_of (b : bus) (topic : str) : list nat :=
  default [] (subscribers b !! topic).

Definition received (b : bus) (res : nat) : list str :=
  default [] (sent b !! res).

(** What [ops] publish on [topic], in order. *)
Fixpoint published (topic : str) (ops : list bus_op) : list (jvalue * str) :=
  match ops with
  | [] => []
  | Publish t payload now :: ops' =>
      if decide (t = topic) then (payload, now) :: published topic ops'
      else published topic ops'
  | _ :: ops' => published topic ops'
  end.

(** The messages that publications make when the log already holds
    [start] messages. *)
Fixpoint messages_from (start : nat) (ps : list (jvalue * str)) : list message :=
  match ps with
  | [] => []
  | (payload, now) :: ps' => Message start now payload :: messages_from (S start) ps'
  end.

(** The connection [res] takes no part in [op]. *)
Definition avoids (res : nat) (op : bus_op) : Prop :=
  match op with
  | SubscribeStream _ r => r ≠ res
  | Close _ r => r ≠ res
  | _ => True
  end.

Definition occurrences (res : nat) (l : list nat) : nat :=
  length (filter (λ s, s = res) l).

Definition op_topic (op : bus_op) : str :=
  match op with
  | Publish t _ _ => t
  | SubscribeStream t _ => t
  | SubscribePoll t => t
  | Close t _ => t
  end.

(** Every topic named by the operations is a name of its own in the two
    global maps. *)
Definition plain_topics (ops : list bus_op) : Prop :=
  Forall (λ op, op_topic op ∉ inherited_names) ops.

(** The operation is none under the inherited name [topic]. *)
Definition regular (topic : str) (op : bus_op) : Prop :=
  op_topic op = topic → topic ∉ inherited_names.

Lemma regular_topic topic op : topic ∉ inherited_names → regular topic op.
Proof. by intros H _. Qed.

Lemma regular_op topic op : op_topic op ∉ inherited_names → regular topic op.
Proof. by intros H <-. Qed.

Lemma plain_topics_regular topic ops : plain_topics ops → Forall (regular topic) ops.
Proof. intros H. eapply Forall_impl; [exact H|]. intros op. apply regular_op. Qed.

Lemma default_ensure {V} (k k' : str) (m : gmap str (list V)) :
  default [] (ensure k m !! k') = default [] (m !! k').
Proof.
  unfold ensure. destruct (m !! k) eqn:Hk; [done|].
  destruct (decide (k = k')) as [->|Hne].
  - by rewrite lookup_insert_eq, Hk.
  - by rewrite lookup_insert_ne.
Qed.

(** The two requests that throw under an inherited name, and the poll,
    leave the bus as it was. *)
Lemma bus_step_inherited op b :
  op_topic op ∈ inherited_names →
  match op with Close _ _ => True | _ => bus_step op b = b end.
Proof.
  intros Hin. destruct op as [t p now|t r|t|t r]; simpl in *; [| | |done].
  - unfold post_publish, publishToTopic. by rewrite bool_decide_eq_true_2.
  - unfold subscribe_stream. by rewrite bool_decide_eq_true_2.
  - unfold get_subscribe_poll. case_bool_decide; [done|].
    by rewrite bool_decide_eq_true_2.
Qed.

(** The same requests under a name that is not inherited. *)
Lemma bus_step_plain op b :
  op_topic op ∉ inherited_names →
  bus_step op b =
  match op with
  | Publish t p now =>
      let msg := Message (length (log_of b t)) now p in
      Bus (<[t := log_of b t ++ [msg]]> (topics b)) (subscribers b)
          (foldl (λ snt res, res_write res (sse_frame msg) snt) (sent b) (subs_of b t))
  | SubscribeStream t r =>
      Bus (ensure t (topics b))
          (<[t := subs_of b t ++ [r]]> (ensure t (subscribers b)))
          (foldl (λ snt msg, res_write r (sse_frame msg) snt) (sent b) (log_of b t))
  | SubscribePoll t => Bus (ensure t (topics b)) (ensure t (subscribers b)) (sent b)
  | Close t r => unsubscribe t r b
  end.
Proof.
  intros Hp. unfold log_of, subs_of.
  destruct op as [t p now|t r|t|t r]; simpl in *; [| | |done].
  - unfold post_publish, publishToTopic. by rewrite bool_decide_eq_false_2.
  - unfold subscribe_stream. rewrite bool_decide_eq_false_2 by done.
    by rewrite !default_ensure.
  - unfold get_subscribe_poll.
    rewrite bool_decide_eq_false_2; [by rewrite bool_decide_eq_false_2|].
    intros ->. apply Hp. closed_decide.
Qed.

Lemma log_of_step op b topic :
  regular topic op →
  log_of (bus_step op b) topic =
  log_of b topic ++ messages_from (length (log_of b topic)) (published topic [op]).
Proof.
  intros Hreg. destruct (decide (op_topic op ∈ inherited_names)) as [Hin|Hp].
  - assert (op_topic op ≠ topic) as Hne
      by (intros Heq; apply (Hreg Heq); by rewrite <- Heq).
    pose proof (bus_step_inherited op b Hin) as Hstep.
    destruct op as [t p now|t r|t|t r]; simpl in *;
      rewrite ?decide_False by done; rewrite ?Hstep, ?app_nil_r; done.
  - rewrite bus_step_plain by done. unfold log_of.
    destruct op as [t p now|t r|t|t r]; simpl;
      rewrite ?default_ensure, ?app_nil_r; try done.
    destruct (decide (t = topic)) as [->|Hne]; simpl.
    + by rewrite lookup_insert_eq.
    + by rewrite lookup_insert_ne, app_nil_r.
Qed.

Lemma messages_from_app start ps qs :
  messages_from start (ps ++ qs) =
  messages_from start ps ++ messages_from (start + length ps) qs.
Proof.
  revert start. induction ps as [|[p now] ps IH]; intros start; simpl.
  - by rewrite Nat.add_0_r.
  - rewrite IH. do 3 f_equal. lia.
Qed.

Lemma messages_from_length start ps : length (messages_from start ps) = length ps.
Proof. revert start. induction ps as [|[p now] ps IH]; intros; simpl; auto. Qed.

Lemma messages_from_offsets start ps :
  map offset (messages_from start ps) = seq start (length ps).
Proof. revert start. induction ps as [|[p now] ps IH]; intros; simpl; by rewrite ?IH. Qed.

Lemma messages_from_contents start ps :
  map (λ m, (data m, timestamp m)) (messages_from start ps) = ps.
Proof. revert start. induction ps as [|[p now] ps IH]; intros; simpl; by rewrite ?IH. Qed.

Lemma published_app topic ops1 ops2 :
  published topic (ops1 ++ ops2) = published topic ops1 ++ published topic ops2.
Proof.
  induction ops1 as [|op ops1 IH]; simpl; [done|].
  destruct op; try done. case_decide; simpl; by rewrite ?IH.
Qed.

Lemma bus_run_snoc ops op b : bus_run (ops ++ [op]) b = bus_step op (bus_run ops b).
Proof. unfold bus_run. by rewrite fold_left_app. Qed.

(** A topic's log only grows, by the publications made on it, numbered on
    from its length. *)
Lemma log_of_run ops b topic :
  Forall (regular topic) ops →
  log_of (bus_run ops b) topic =
  log_of b topic ++ messages_from (length (log_of b topic)) (published topic ops).
Proof.
  induction ops as [|op ops IH] using rev_ind; intros Hreg.
  - simpl. by rewrite app_nil_r.
  - apply Forall_app in Hreg as [Hreg Hop]. rewrite Forall_singleton in Hop.
    rewrite bus_run_snoc, log_of_step, IH, published_app, messages_from_app by done.
    rewrite <- app_assoc. do 2 f_equal.
    by rewrite length_app, messages_from_length.
Qed.

Lemma subs_of_step op b topic :
  regular topic op →
  subs_of (bus_step op b) topic =
  match op with
  | SubscribeStream t r =>
      if decide (t = topic) then subs_of b topic ++ [r] else subs_of b topic
  | Close t r =>
      if decide (t = topic) then filter (λ s, s ≠ r) (subs_of b topic)
      else subs_of b topic
  | _ => subs_of b topic
  end.
Proof.
  intros Hreg.
  assert (∀ t r, subs_of (unsubscribe t r b) topic =
                 if decide (t = topic) then filter (λ s, s ≠ r) (subs_of b topic)
                 else subs_of b topic) as Hclose.
  { intros t r. unfold subs_of. simpl. destruct (decide (t = topic)) as [->|Hne].
    - by rewrite lookup_insert_eq.
    - by rewrite lookup_insert_ne. }
  destruct (decide (op_topic op ∈ inherited_names)) as [Hin|Hp].
  - assert (op_topic op ≠ topic) as Hne
      by (intros Heq; apply (Hreg Heq); by rewrite <- Heq).
    pose proof (bus_step_inherited op b Hin) as Hstep.
    destruct op as [t p now|t r|t|t r]; simpl in *;
      rewrite ?decide_False by done; rewrite ?Hstep; try done.
    by rewrite Hclose, decide_False.
  - rewrite bus_step_plain by done.
    destruct op as [t p now|t r|t|t r]; [done| | |apply Hclose].
    + unfold subs_of. simpl. destruct (decide (t = topic)) as [->|Hne].
      * by rewrite lookup_insert_eq.
      * by rewrite lookup_insert_ne, ?default_ensure.
    + unfold subs_of. simpl. by rewrite default_ensure.
Qed.

Lemma res_write_lookup res r frame (snt : gmap nat (list str)) :
  default [] (res_write r frame snt !! res) =
  if decide (r = res) then default [] (snt !! res) ++ [frame]
  else default [] (snt !! res).
Proof.
  unfold res_write. destruct (decide (r = res)) as [->|Hne].
  - by rewrite lookup_insert_eq.
  - by rewrite lookup_insert_ne.
Qed.

(** The replay loop of a new streaming connection. *)
Lemma replay_lookup res r (log : list message) (snt : gmap nat (list str)) :
  default [] (foldl (λ snt msg, res_write r (sse_frame msg) snt) snt log !! res) =
  if decide (r = res) then default [] (snt !! res) ++ map sse_frame log
  else default [] (snt !! res).
Proof.
  revert snt. induction log as [|m log IH]; intros snt; simpl.
  - case_decide; by rewrite ?app_nil_r.
  - rewrite IH, res_write_lookup. case_decide; [|done].
    by rewrite <- app_assoc.
Qed.

(** The notification loop of a publication. *)
Lemma notify_lookup res frame (subs : list nat) (snt : gmap nat (list str)) :
  default [] (foldl (λ snt r, res_write r frame snt) snt subs !! res) =
  default [] (snt !! res) ++ replicate (occurrences res subs) frame.
Proof.
  unfold occurrences.
  revert snt. induction subs as [|r subs IH]; intros snt; simpl.
  - by rewrite app_nil_r.
  - rewrite IH, res_write_lookup, filter_cons.
    case_decide; simpl; [|done]. by rewrite <- app_assoc.
Qed.

Lemma occurrences_app res l1 l2 :
  occurrences res (l1 ++ l2) = occurrences res l1 + occurrences res l2.
Proof. unfold occurrences. by rewrite filter_app, length_app. Qed.

Lemma occurrences_filter_ne res r l :
  r ≠ res → occurrences res (filter (λ s, s ≠ r) l) = occurrences res l.
Proof.
  intros Hne. unfold occurrences. induction l as [|x l IH]; [done|].
  rewrite !filter_cons. destruct (decide (x = r)) as [->|Hx].
  - rewrite decide_False by (intros ?; done).
    rewrite decide_False by done. exact IH.
  - rewrite decide_True by done. rewrite filter_cons.
    case_decide; simpl; by rewrite IH.
Qed.

Lemma occurrences_0 res l : occurrences res l = 0 ↔ res ∉ l.
Proof.
  unfold occurrences. induction l as [|x l IH]; simpl.
  - split; [intros _; apply not_elem_of_nil|done].
  - rewrite filter_cons, not_elem_of_cons. case_decide; simpl.
    + split; [lia|]. intros [? _]. congruence.
    + rewrite IH. split; [by intros ?; split|by intros [_ ?]].
Qed.

(** How one operation that leaves [res] alone changes the number of times
    [res] is subscribed and what it has received. *)
Lemma avoiding_step op b res topic :
  avoids res op →
  occurrences res (subs_of (bus_step op b) topic) = occurrences res (subs_of b topic)
  ∧ received (bus_step op b) res =
    received b res
    ++ match op with
       | Publish t p now =>
           if decide (t ∈ inherited_names) then []
           else replicate (occurrences res (subs_of b t))
                          (sse_frame (Message (length (log_of b t)) now p))
       | _ => []
       end.
Proof.
  intros Hav.
  assert (∀ t r, r ≠ res →
            occurrences res (subs_of (unsubscribe t r b) topic)
            = occurrences res (subs_of b topic)
            ∧ received (unsubscribe t r b) res = received b res) as Hclose.
  { intros t r Hr. split; [|done]. unfold subs_of. simpl.
    destruct (decide (t = topic)) as [->|Hne].
    - rewrite lookup_insert_eq. simpl. by apply occurrences_filter_ne.
    - by rewrite lookup_insert_ne. }
  destruct (decide (op_topic op ∈ inherited_names)) as [Hin|Hp].
  - pose proof (bus_step_inherited op b Hin) as Hstep.
    destruct op as [t p now|t r|t|t r]; simpl in *;
      rewrite ?decide_True by done; rewrite ?Hstep, ?app_nil_r; try done.
    destruct (Hclose t r Hav) as [H1 H2]. by rewrite H1, H2.
  - split.
    + rewrite subs_of_step by by apply regular_op.
      destruct op as [t p now|t r|t|t r]; simpl in *; try done.
      * case_decide; [|done]. rewrite occurrences_app.
        assert (occurrences res [r] = 0) as ->
          by (apply occurrences_0; intros ?%list_elem_of_singleton; congruence).
        lia.
      * case_decide; [|done]. by apply occurrences_filter_ne.
    + rewrite bus_step_plain by done. unfold received.
      destruct op as [t p now|t r|t|t r]; simpl in *;
        rewrite ?app_nil_r; try done.
      * rewrite decide_False by done. apply notify_lookup.
      * rewrite replay_lookup. by rewrite decide_False.
Qed.

(** [res] is subscribed to [topic], once, and to nothing else. *)
Definition attached (b : bus) (topic : str) (res : nat) : Prop :=
  ∀ t, occurrences res (subs_of b t) = if decide (t = topic) then 1 else 0.

(** [res] is not a subscriber anywhere. *)
Definition detached (b : bus) (res : nat) : Prop :=
  ∀ t, res ∉ subs_of b t.

Lemma detached_run ops b res :
  Forall (avoids res) ops → detached b res →
  detached (bus_run ops b) res ∧ received (bus_run ops b) res = received b res.
Proof.
  induction ops as [|op ops IH] using rev_ind; intros Hav Hdet; [done|].
  apply Forall_app in Hav as [Hav Hop]. rewrite Forall_singleton in Hop.
  destruct (IH Hav Hdet) as [Hdet' Hrec]. rewrite bus_run_snoc. split.
  - intros t. apply occurrences_0.
    rewrite (proj1 (avoiding_step op _ res t Hop)). by apply occurrences_0.
  - rewrite (proj2 (avoiding_step op _ res [] Hop)), Hrec.
    destruct op as [t p now| | |]; rewrite ?app_nil_r; try done.
    case_decide; [by rewrite app_nil_r|].
    by rewrite (proj2 (occurrences_0 _ _) (Hdet' t)), app_nil_r.
Qed.

(** A streaming request under a name that is not inherited. *)
Lemma subscribe_stream_plain topic res b :
  topic ∉ inherited_names →
  subscribe_stream topic res b = Done (bus_step (SubscribeStream topic res) b).
Proof.
  intros Hp. unfold bus_step, subscribe_stream.
  by rewrite bool_decide_eq_false_2 by done.
Qed.

Lemma attached_subscribe b topic res :
  topic ∉ inherited_names →
  detached b res →
  attached (bus_step (SubscribeStream topic res) b) topic res
  ∧ received (bus_step (SubscribeStream topic res) b) res
    = received b res ++ map sse_frame (log_of b topic)
  ∧ log_of (bus_step (SubscribeStream topic res) b) topic = log_of b topic.
Proof.
  intros Hp Hdet. split_and!.
  - intros t.
    pose proof (proj2 (occurrences_0 _ _) (Hdet t)) as H0.
    destruct (decide (topic = t)) as [->|Hne].
    + rewrite subs_of_step by by apply regular_topic.
      rewrite decide_True by done. rewrite occurrences_app, H0.
      unfold occurrences. rewrite filter_cons, decide_True by done.
      by rewrite decide_True.
    + rewrite subs_of_step by (by intros Heq; simpl in Heq). by rewrite !decide_False.
  - rewrite bus_step_plain by done. unfold received, log_of. simpl.
    by rewrite replay_lookup, decide_True.
  - rewrite log_of_step by by apply regular_topic. by rewrite app_nil_r.
Qed.

(** While [res] stays attached, it receives the frame of every message
    published on its topic, once and in order, and nothing else. *)
Lemma attached_run ops b topic res :
  topic ∉ inherited_names →
  Forall (avoids res) ops → attached b topic res →
  attached (bus_run ops b) topic res
  ∧ received (bus_run ops b) res =
    received b res
    ++ map sse_frame (messages_from (length (log_of b topic)) (published topic ops)).
Proof.
  intros Hp.
  induction ops as [|op ops IH] using rev_ind; intros Hav Hatt.
  - simpl. by rewrite app_nil_r.
  - apply Forall_app in Hav as [Hav Hop]. rewrite Forall_singleton in Hop.
    destruct (IH Hav Hatt) as [Hatt' Hrec]. rewrite bus_run_snoc. split.
    + intros t. rewrite (proj1 (avoiding_step op _ res t Hop)). apply Hatt'.
    + rewrite (proj2 (avoiding_step op _ res [] Hop)), Hrec, <- app_assoc.
      f_equal. rewrite published_app, messages_from_app, map_app. f_equal.
      destruct op as [t p now| | |]; simpl; try done.
      destruct (decide (t = topic)) as [->|Hne].
      * rewrite decide_False by done. rewrite Hatt', decide_True by done. simpl.
        rewrite log_of_run by (apply Forall_forall; intros; by apply regular_topic).
        by rewrite length_app, messages_from_length.
      * case_decide; [done|]. rewrite Hatt', decide_False by done. done.
Qed.

(** The frame of a message, written out. *)
Definition frame_text (m : message) : str :=
  lit "data: "
  ++ JSON_stringify
       (JObj [(lit "offset", JNum (Z.of_nat (offset m)));
              (lit "timestamp", JStr (timestamp m));
              (lit "data", data m)])
  ++ [LF; LF].

(** C2, at the failing input: the topic [constructor] is fresh, yet of two
    publications on it none is numbered: each request ends in a TypeError
    and leaves the bus as it was, so the log of the topic stays empty where
    the offsets [0; 1] are asked for, and a streaming subscriber that
    connects afterwards is refused in the same way and receives nothing. *)
Theorem C2_inherited_topic_name_is_not_numbered :
  let topic := lit "constructor" in
  let ops := [Publish topic (JObj []) (lit "t0"); Publish topic (JObj []) (lit "t1")] in
  let b1 := bus_run ops bus_init in
  log_of bus_init topic = []
  ∧ length (published topic ops) = 2
  ∧ post_publish topic (JObj []) (lit "t0") bus_init = (bus_init, Failed TypeError)
  ∧ b1 = bus_init
  ∧ map offset (log_of b1 topic) = []
  ∧ map offset (log_of b1 topic) ≠ seq 0 (length (published topic ops))
  ∧ subscribe_stream topic 1 b1 = Thrown TypeError
  ∧ received (bus_step (SubscribeStream topic 1) b1) 1 = [].
Proof. vm_compute. split_and!; try done. Qed.

(** Under every topic name that is not inherited from [Object.prototype]:
    on a fresh topic the publications get the offsets [0..N-1] in publish
    order; a streaming connection opened after them, and left open, first
    receives those [N] messages in offset order and then every message
    published on the topic later, once each and without a gap: at any time
    what it has received is the frames of the whole log of the topic, each
    the line [data: ] with the message as a one-line document, then an
    empty line. *)
Theorem offsets_replay_and_live_delivery
    (topic : str) (res : nat) (b0 : bus) (before after : list bus_op) :
  let b1 := bus_run before b0 in
  let b2 := bus_step (SubscribeStream topic res) b1 in
  let b3 := bus_run after b2 in
  let N := length (published topic before) in
  topic ∉ inherited_names →
  Forall (λ p : jvalue * str, modelled p.1 = true) (published topic (before ++ after)) →
  log_of b0 topic = [] →
  detached b0 res →
  received b0 res = [] →
  Forall (avoids res) before →
  Forall (avoids res) after →
  subscribe_stream topic res b1 = Done b2
  ∧ log_of b1 topic = messages_from 0 (published topic before)
  ∧ map offset (log_of b1 topic) = seq 0 N
  ∧ map (λ m, (data m, timestamp m)) (log_of b1 topic) = published topic before
  ∧ received b2 res = map frame_text (log_of b1 topic)
  ∧ log_of b3 topic = log_of b1 topic ++ messages_from N (published topic after)
  ∧ map offset (log_of b3 topic) = seq 0 (N + length (published topic after))
  ∧ received b3 res = map frame_text (log_of b3 topic).
Proof.
  intros b1 b2 b3 N Hp _ Hfresh Hdet Hrec Hbefore Hafter.
  assert (∀ ops, Forall (regular topic) ops) as Hreg.
  { intros ops. apply Forall_forall. intros; by apply regular_topic. }
  assert (log_of b1 topic = messages_from 0 (published topic before)) as Hlog1.
  { subst b1. by rewrite log_of_run, Hfresh. }
  destruct (detached_run before b0 res Hbefore Hdet) as [Hdet1 Hrec1].
  destruct (attached_subscribe b1 topic res Hp Hdet1) as (Hatt2 & Hrec2 & Hlog2).
  destruct (attached_run after b2 topic res Hp Hafter Hatt2) as [_ Hrec3].
  fold b1 in Hrec1. fold b2 in Hrec2, Hlog2. fold b3 in Hrec3.
  assert (length (log_of b1 topic) = N) as Hlen.
  { by rewrite Hlog1, messages_from_length. }
  assert (log_of b3 topic = log_of b1 topic ++ messages_from N (published topic after))
    as Hlog3.
  { subst b3. by rewrite log_of_run, Hlog2, Hlen. }
  change frame_text with sse_frame.
  split_and!.
  - by apply subscribe_stream_plain.
  - done.
  - by rewrite Hlog1, messages_from_offsets.
  - by rewrite Hlog1, messages_from_contents.
  - by rewrite Hrec2, Hrec1, Hrec.
  - done.
  - rewrite Hlog3, map_app, Hlog1, !messages_from_offsets, seq_app. done.
  - rewrite Hrec3, Hrec2, Hrec1, Hrec, Hlog2, Hlen, Hlog3, map_app. done.
Qed.

Lemma offsets_replay_witness :
  let topic := lit "payments" in
  let before := [Publish topic (JObj [(lit "n", JStr (lit "a"))]) (lit "t0");
                 SubscribeStream (lit "audit") 7;
                 Publish (lit "constructor") (JObj []) (lit "t0");
                 Publish topic (JObj [(lit "n", JStr (lit "b"))]) (lit "t1")] in
  let after := [Publish (lit "audit") (JObj []) (lit "t2");
                Publish topic (JObj [(lit "n", JStr (lit "c"))]) (lit "t3");
                Close (lit "audit") 7] in
  let b1 := bus_run before bus_init in
  let b2 := bus_step (SubscribeStream topic 1) b1 in
  let b3 := bus_run after b2 in
  subscribe_stream topic 1 b1 = Done b2
  ∧ log_of b1 topic = messages_from 0 (published topic before)
  ∧ map offset (log_of b1 topic) = seq 0 (length (published topic before))
  ∧ map (λ m, (data m, timestamp m)) (log_of b1 topic) = published topic before
  ∧ received b2 1 = map frame_text (log_of b1 topic)
  ∧ log_of b3 topic
    = log_of b1 topic
      ++ messages_from (length (published topic before)) (published topic after)
  ∧ map offset (log_of b3 topic)
    = seq 0 (length (published topic before) + length (published topic after))
  ∧ received b3 1 = map frame_text (log_of b3 topic).
Proof.
  intros topic before after.
  apply (offsets_replay_and_live_delivery topic 1 bus_init before after).
  - closed_decide.
  - closed_decide.
  - reflexivity.
  - intros t. vm_compute. apply not_elem_of_nil.
  - reflexivity.
  - repeat constructor; simpl; lia.
  - repeat constructor; simpl; lia.
Defined.

(** ** Directory watcher *)









Definition is_regular (k : fkind) : bool :=
  match k with
  | RegularFile => true
  | _ => false
  end.

(** *** The loop when every handler returns *)

(** The callback, the timers phase, the arrival of a notification and the
    loop as they go when no handler call raises and the process is alive:
    [fire], [advance], [arrive] and [run_watcher] without the oracle and
    without the test of [alive].  The debounce rule is proved of this loop
    first; the loop of the model follows it up to the handler call that
    raises, if one does, and stops there. *)
Definition quiet_fire (disk : str → fkind) (cb : timer) (w : watcher) : watcher :=
  match cb with
  | ClearFlag key =>
      Watcher (debounce w ∖ {[key]}) (timers w) (calls w) (uncaught w)
  | Settle fp h =>
      if existsSync (disk fp) then
        match statSync_isFile fp (disk fp) with
        | Done true =>
            Watcher (debounce w) (timers w) (calls w ++ [(h, fp)]) (uncaught w)
        | Done false => w
        | Thrown e => Watcher (debounce w) (timers w) (calls w) (Some e)
        | _ => w
        end
      else w
  end.

Definition quiet_advance (disk : nat → str → fkind) (now : nat) (w : watcher)
    : watcher :=
  let due := take_while (λ t : nat * timer, t.1 <=? now) (timers w) in
  let later := drop_while (λ t : nat * timer, t.1 <=? now) (timers w) in
  fold_left (λ w (t : nat * timer), quiet_fire (disk t.1) t.2 w) due
            (Watcher (debounce w) later (calls w) (uncaught w)).

Definition quiet_arrive (disk : nat → str → fkind) (w : watcher) (a : nat * raw_event)
    : watcher :=
  on_event a.2 a.1 (quiet_advance disk a.1 w).



(** The guard [existsSync] keeps [statSync] from throwing. *)
Lemma fire_uncaught dk cb w : uncaught (quiet_fire dk cb w) = uncaught w.
Proof.
  destruct cb as [key|p h]; simpl; [done|].
  by destruct (dk p).
Qed.


Lemma fold_fire_uncaught (disk : nat → str → fkind) due w :
  uncaught (fold_left (λ w (t : nat * timer), quiet_fire (disk t.1) t.2 w) due w) = uncaught w.
Proof.
  revert w. induction due as [|t due IH]; intros w; simpl; [done|].
  by rewrite IH, fire_uncaught.
Qed.


Lemma advance_uncaught disk now w : uncaught (quiet_advance disk now w) = uncaught w.
Proof. unfold quiet_advance. by rewrite fold_fire_uncaught. Qed.


Lemma on_event_uncaught ev now w : uncaught (on_event ev now w) = uncaught w.
Proof.
  unfold on_event. destruct (ev_filename ev) as [[|c f]|]; try done.
  repeat case_match; done.
Qed.





Section OnePath.
Variable disk : nat → str → fkind.
Variable fp : str.












End OnePath.

Section Burst.
Variable disk : nat → str → fkind.
Variable fp : str.
Variable h : handler.
Variable t0 horizon : nat.
Variable flags : gset str.
Variable made : list (handler * str).
Variable errs : option exn.
Hypothesis flag_set : fp ∈ flags.





Lemma fire_settle w :
  quiet_fire (disk (t0 + 300)) (Settle fp h) w =
  Watcher (debounce w) (timers w)
          (calls w ++ if is_regular (disk (t0 + 300) fp) then [(h, fp)] else [])
          (uncaught w).
Proof.
  simpl. destruct (disk (t0 + 300) fp); simpl; rewrite ?app_nil_r; by destruct w.
Qed.





End Burst.

Lemma arrivals_uncaught disk arrivals w :
  uncaught (fold_left (quiet_arrive disk) arrivals w) = uncaught w.
Proof.
  revert w. induction arrivals as [|a arrivals IH]; intros w; simpl; [done|].
  rewrite IH. unfold quiet_arrive. by rewrite on_event_uncaught, advance_uncaught.
Qed.




(** *** The loop of the model against the loop of the returning handlers *)

Lemma quiet_fire_calls dk cb w : calls w `prefix_of` calls (quiet_fire dk cb w).
Proof.
  destruct cb as [key|p h]; simpl; [done|].
  destruct (dk p); simpl; try done. by apply prefix_app_r.
Qed.

Lemma quiet_fold_calls (disk : nat → str → fkind) due w :
  calls w `prefix_of`
  calls (fold_left (λ w (t : nat * timer), quiet_fire (disk t.1) t.2 w) due w).
Proof.
  revert w. induction due as [|t due IH]; intros w; simpl; [done|].
  etrans; [apply (quiet_fire_calls (disk t.1) t.2)|apply IH].
Qed.

Lemma quiet_advance_calls disk now w : calls w `prefix_of` calls (quiet_advance disk now w).
Proof.
  unfold quiet_advance.
  exact (quiet_fold_calls disk _ (Watcher (debounce w) _ (calls w) (uncaught w))).
Qed.

Lemma on_event_calls ev now w : calls (on_event ev now w) = calls w.
Proof.
  unfold on_event. destruct (ev_filename ev) as [[|c f]|]; try done.
  repeat case_match; done.
Qed.

Lemma quiet_arrive_calls disk w a : calls w `prefix_of` calls (quiet_arrive disk w a).
Proof. unfold quiet_arrive. rewrite on_event_calls. apply quiet_advance_calls. Qed.

Lemma quiet_arrivals_calls disk arrivals w :
  calls w `prefix_of` calls (fold_left (quiet_arrive disk) arrivals w).
Proof.
  revert w. induction arrivals as [|a arrivals IH]; intros w; simpl; [done|].
  etrans; [apply (quiet_arrive_calls disk w a)|apply IH].
Qed.


Section Follow.
Variable disk : nat → str → fkind.
Variable raises : nat → handler → str → option exn.
Variable made0 : list (handler * str).









End Follow.







(** ** Tagged-markup parsing terminates *)

Lemma match_lit_length ci pat s r :
  match_lit ci pat s = Some r → length s = length pat + length r.
Proof.
  revert s. induction pat as [|p pat IH]; intros s; simpl.
  - by intros [= ->].
  - destruct s as [|c s]; [done|]. case_match; [|done].
    intros Hm%IH. simpl. lia.
Qed.

Lemma lazy_until_length close s body rest :
  (∀ s r, close s = Some r → length r ≤ length s) →
  lazy_until close s = Some (body, rest) → length rest ≤ length s.
Proof.
  intros Hclose. revert body. induction s as [|c s IH]; intros body; simpl.
  - destruct (close []) eqn:Hc; [|done]. intros [= <- <-]. by apply (Hclose []).
  - destruct (close (c :: s)) eqn:Hc.
    + intros [= <- <-]. by apply (Hclose (c :: s)).
    + destruct (lazy_until close s) as [[b r]|] eqn:Hl; [|done].
      intros [= <- <-]. specialize (IH _ eq_refl). lia.
Qed.

Lemma exec_from_shorter {A} (attempt : str → option A) (rest_of : A → str) s m :
  (∀ s m, attempt s = Some m → length (rest_of m) < length s) →
  exec_from attempt s = Some m → length (rest_of m) < length s.
Proof.
  intros Hatt. induction s as [|c s IH]; simpl.
  - destruct (attempt []) eqn:Ha; [|done]. intros [= <-]. exact (Hatt [] _ Ha).
  - destruct (attempt (c :: s)) eqn:Ha.
    + intros [= <-]. exact (Hatt (c :: s) _ Ha).
    + intros Hm%IH. lia.
Qed.

Lemma match_lit_le ci pat s r : match_lit ci pat s = Some r → length r ≤ length s.
Proof. intros H%match_lit_length. lia. Qed.

Lemma lazy_until_body close s body rest :
  lazy_until close s = Some (body, rest) → length body ≤ length s.
Proof.
  revert body. induction s as [|c s IH]; intros body; simpl.
  - destruct (close []); [|done]. by intros [= <- <-].
  - destruct (close (c :: s)); [intros [= <- <-]; simpl; lia|].
    destruct (lazy_until close s) as [[b r]|] eqn:Hl; [|done].
    intros [= <- <-]. specialize (IH _ eq_refl). simpl. lia.
Qed.

Lemma item_at_shorter s m : item_at s = Some m → length m.2 < length s.
Proof.
  unfold item_at. destruct (match_lit true _ s) as [r|] eqn:Hopen; [|done].
  apply match_lit_length in Hopen. destruct m as [body rest].
  intros Hl%lazy_until_length; [|apply match_lit_le].
  change (length (lit "<transaction>")) with 13 in Hopen.
  cbn [snd]. lia.
Qed.

Lemma item_at_inner s m : item_at s = Some m → length m.1 ≤ length s.
Proof.
  unfold item_at. destruct (match_lit true _ s) as [r|] eqn:Hopen; [|done].
  apply match_lit_length in Hopen. destruct m as [body rest].
  intros Hl%lazy_until_body. cbn [fst]. lia.
Qed.

Lemma word_run_length s : length (word_run s).2 ≤ length s.
Proof.
  induction s as [|c s IH]; simpl; [done|].
  destruct (is_word c); simpl; [|done].
  destruct (word_run s) as [w r]. simpl in *. lia.
Qed.

Lemma field_at_shorter s m : field_at s = Some m → length m.2 < length s.
Proof.
  unfold field_at. destruct s as [|c r]; [done|].
  destruct (Ascii.eqb c "<"); [|done].
  pose proof (word_run_length r) as Hw. destruct (word_run r) as [name r1].
  destruct name as [|n name]; [done|]. destruct r1 as [|d r']; [done|].
  destruct (Ascii.eqb d ">"); [|done].
  destruct (lazy_until _ r') as [[body rest]|] eqn:Hl; [|done].
  intros [= <-]. apply lazy_until_length in Hl; [|apply match_lit_le].
  cbn [snd length] in *. lia.
Qed.

(** The field loop ends within its fuel: every match moves [lastIndex] on. *)
Lemma field_loop_total fuel s obj :
  length s < fuel → is_Some (field_loop fuel s obj).
Proof.
  revert s obj. induction fuel as [|fuel IH]; intros s obj Hlen; [lia|].
  simpl. destruct (exec_from field_at s) as [[[name body] rest]|] eqn:He; [|done].
  apply IH.
  apply (exec_from_shorter field_at (λ m, m.2)) in He; [simpl in He; lia|].
  apply field_at_shorter.
Qed.

(** The item loop ends within its fuel. *)
Lemma item_loop_total fuel s records :
  length s < fuel → is_Some (item_loop fuel s records).
Proof.
  revert s records. induction fuel as [|fuel IH]; intros s records Hlen; [lia|].
  cbn [item_loop]. destruct (exec_from item_at s) as [[inner rest]|] eqn:He; [|done].
  destruct (field_loop_total (S (length inner)) inner []) as [obj ->]; [lia|].
  apply IH.
  apply (exec_from_shorter item_at (λ m, m.2)) in He; [simpl in He; lia|].
  apply item_at_shorter.
Qed.

Lemma xmlToRecords_total xml : is_Some (xmlToRecords xml).
Proof. apply item_loop_total. lia. Qed.

(** ** Structured-document parsing: fuel *)

Lemma skip_ws_length s : length (skip_ws s) ≤ length s.
Proof.
  induction s as [|c s IH]; simpl; [done|].
  destruct (json_ws c); simpl; lia.
Qed.

Lemma pmap_Parsed {A B} (f : A → B) (r : presult A) b rest :
  pmap f r = Parsed b rest → ∃ a, r = Parsed a rest ∧ b = f a.
Proof. destruct r; simpl; try done. intros [= <- <-]. eauto. Qed.

Lemma parse_chars_shorter s k r : parse_chars s = Parsed k r → length r < length s.
Proof.
  remember (length s) as n eqn:Hn. revert s k Hn.
  induction n as [n IH] using lt_wf_ind. intros s k -> .
  assert (∀ c s' k', length s' < length s →
            prepend c (parse_chars s') = Parsed k' r → length r < length s) as Hpre.
  { intros c s' k' Hlt (a & Ha & _)%pmap_Parsed.
    specialize (IH _ Hlt s' a eq_refl Ha). lia. }
  destruct s as [|c s]; simpl; [done|].
  destruct (Ascii.eqb c DQ); [intros [= <- <-]; simpl; lia|].
  destruct (Ascii.eqb c "\").
  - destruct s as [|e s]; [done|]. simpl in Hpre.
    repeat (case_match; try (intros Hr; eapply Hpre; [|exact Hr]; simpl; lia);
            try done).
  - case_match; [done|]. intros Hr. eapply Hpre; [|exact Hr]. simpl. lia.
Qed.

Lemma digits_run_length s : length (digits_run s).1 + length (digits_run s).2 = length s.
Proof.
  induction s as [|c s IH]; simpl; [done|].
  destruct (is_digit c); simpl; [|done].
  destruct (digits_run s) as [ds r]. simpl in *. lia.
Qed.

Lemma parse_frac_length s fr r : parse_frac s = Parsed fr r → length r ≤ length s.
Proof.
  unfold parse_frac. destruct s as [|c s]; [by intros [= <- <-]|].
  destruct (Ascii.eqb c "."); [|by intros [= <- <-]].
  pose proof (digits_run_length s) as Hd.
  destruct (digits_run s) as [[|d ds] r']; simpl in *.
  - by destruct s.
  - intros [= <- <-]. lia.
Qed.

Lemma parse_exp_length s ex r : parse_exp s = Parsed ex r → length r ≤ length s.
Proof.
  unfold parse_exp. destruct s as [|c s]; [by intros [= <- <-]|].
  destruct (Ascii.eqb c "e" || Ascii.eqb c "E"); [|by intros [= <- <-]].
  destruct s as [|g s'].
  - simpl. done.
  - destruct (Ascii.eqb g "+" || Ascii.eqb g "-").
    + pose proof (digits_run_length s') as Hd.
      destruct (digits_run s') as [[|d ds] r']; simpl in *.
      * by destruct s'.
      * intros [= <- <-]. lia.
    + pose proof (digits_run_length (g :: s')) as Hd.
      destruct (digits_run (g :: s')) as [[|d ds] r']; simpl in *.
      * done.
      * intros [= <- <-]. lia.
Qed.

Lemma parse_unsigned_shorter neg s v r :
  parse_unsigned neg s = Parsed v r → length r < length s.
Proof.
  unfold parse_unsigned. destruct s as [|d r0]; [done|].
  destruct (is_digit d); [|done].
  set (ipr := if Ascii.eqb d "0" then ([d], r0)
              else let '(ds, r') := digits_run r0 in (d :: ds, r')).
  assert (length ipr.2 ≤ length r0) as Hipr.
  { subst ipr. destruct (Ascii.eqb d "0"); simpl; [done|].
    pose proof (digits_run_length r0). destruct (digits_run r0). simpl in *. lia. }
  destruct ipr as [ip r1]. simpl in Hipr.
  destruct (parse_frac r1) as [fr r2| | |] eqn:Hfr; try done.
  apply parse_frac_length in Hfr.
  destruct (parse_exp r2) as [ex r3| | |] eqn:Hex; try done.
  apply parse_exp_length in Hex.
  destruct fr, ex; try done.
  case_match; [|done]. intros [= <- <-]. simpl. lia.
Qed.

Lemma parse_number_shorter s v r : parse_number s = Parsed v r → length r < length s.
Proof.
  unfold parse_number. destruct s as [|c s]; [done|].
  destruct (Ascii.eqb c "-"); intros H%parse_unsigned_shorter; simpl in *; lia.
Qed.

Lemma parse_keyword_shorter kw v s v' r :
  kw ≠ [] → parse_keyword kw v s = Parsed v' r → length r < length s.
Proof.
  intros Hkw. unfold parse_keyword.
  destruct (match_lit false kw s) eqn:Hm; [|by destruct s].
  intros [= <- <-]. apply match_lit_length in Hm. destruct kw; [done|]. simpl in Hm. lia.
Qed.

(** A parser that consumes input whenever it succeeds. *)
Definition consuming (p : str → presult jvalue) : Prop :=
  ∀ s v r, p s = Parsed v r → length r < length s.

Lemma value_step_consuming elements members :
  consuming elements → consuming members → consuming (value_step elements members).
Proof.
  intros He Hm s v r. unfold value_step.
  pose proof (skip_ws_length s) as Hs. destruct (skip_ws s) as [|c s1]; [done|].
  simpl in Hs.
  destruct (Ascii.eqb c "{").
  { pose proof (skip_ws_length s1) as Hs1. destruct (skip_ws s1) as [|d s2]; [done|].
    simpl in Hs1. destruct (Ascii.eqb d "}").
    - intros [= <- <-]. lia.
    - intros H%Hm. lia. }
  destruct (Ascii.eqb c "[").
  { pose proof (skip_ws_length s1) as Hs1. destruct (skip_ws s1) as [|d s2]; [done|].
    simpl in Hs1. destruct (Ascii.eqb d "]").
    - intros [= <- <-]. lia.
    - intros H%He. lia. }
  destruct (Ascii.eqb c DQ).
  { intros (k & Hk%parse_chars_shorter & _)%pmap_Parsed. lia. }
  destruct (Ascii.eqb c "t").
  { intros H%parse_keyword_shorter; [simpl in H; lia|done]. }
  destruct (Ascii.eqb c "f").
  { intros H%parse_keyword_shorter; [simpl in H; lia|done]. }
  destruct (Ascii.eqb c "n").
  { intros H%parse_keyword_shorter; [simpl in H; lia|done]. }
  intros H%parse_number_shorter. simpl in H. lia.
Qed.

Lemma elements_step_consuming value elements :
  consuming value → (∀ acc, consuming (λ s, elements s acc)) →
  ∀ acc, consuming (λ s, elements_step value elements s acc).
Proof.
  intros Hv He acc s v r. unfold elements_step.
  destruct (value s) as [x s1| | |] eqn:Hx; try done. apply Hv in Hx.
  pose proof (skip_ws_length s1) as Hs1. destruct (skip_ws s1) as [|d s2]; [done|].
  simpl in Hs1. destruct (Ascii.eqb d ",").
  - intros H%He. lia.
  - destruct (Ascii.eqb d "]"); [|done]. intros [= <- <-]. lia.
Qed.

Lemma members_step_consuming value members :
  consuming value → (∀ acc, consuming (λ s, members s acc)) →
  ∀ acc, consuming (λ s, members_step value members s acc).
Proof.
  intros Hv Hm acc s v r. unfold members_step.
  pose proof (skip_ws_length s) as Hs. destruct (skip_ws s) as [|q s1]; [done|].
  simpl in Hs. destruct (Ascii.eqb q DQ); [|done].
  destruct (parse_chars s1) as [k s2| | |] eqn:Hk; try done.
  apply parse_chars_shorter in Hk.
  pose proof (skip_ws_length s2) as Hs2. destruct (skip_ws s2) as [|d s3]; [done|].
  simpl in Hs2. destruct (Ascii.eqb d ":"); [|done].
  destruct (value s3) as [x s4| | |] eqn:Hx; try done. apply Hv in Hx.
  pose proof (skip_ws_length s4) as Hs4. destruct (skip_ws s4) as [|e s5]; [done|].
  simpl in Hs4. destruct (Ascii.eqb e ",").
  - intros H%Hm. lia.
  - destruct (Ascii.eqb e "}"); [|done]. intros [= <- <-]. lia.
Qed.

Lemma parse_consuming fuel :
  consuming (parse_value fuel)
  ∧ (∀ acc, consuming (λ s, parse_elements fuel s acc))
  ∧ (∀ acc, consuming (λ s, parse_members fuel s acc)).
Proof.
  induction fuel as [|fuel (IHv & IHe & IHm)]; [by split_and!|].
  split_and!.
  - apply value_step_consuming; [apply (IHe [])|apply (IHm [])].
  - by apply elements_step_consuming.
  - by apply members_step_consuming.
Qed.

Lemma value_step_fuel elements members s :
  (∀ r, length r < length s → elements r ≠ OutOfFuel) →
  (∀ r, length r < length s → members r ≠ OutOfFuel) →
  value_step elements members s ≠ OutOfFuel.
Proof.
  intros He Hm. unfold value_step.
  pose proof (skip_ws_length s) as Hs. destruct (skip_ws s) as [|c s1]; [done|].
  simpl in Hs.
  destruct (Ascii.eqb c "{").
  { destruct (skip_ws s1) as [|d s2]; [done|].
    destruct (Ascii.eqb d "}"); [done|]. apply Hm. lia. }
  destruct (Ascii.eqb c "[").
  { destruct (skip_ws s1) as [|d s2]; [done|].
    destruct (Ascii.eqb d "]"); [done|]. apply He. lia. }
  destruct (Ascii.eqb c DQ).
  { assert (parse_chars s1 ≠ OutOfFuel) as Hc.
    { clear. remember (length s1) as n eqn:Hn. revert s1 Hn.
      induction n as [n IH] using lt_wf_ind. intros s1 ->.
      assert (∀ c s', length s' < length s1 → prepend c (parse_chars s') ≠ OutOfFuel)
        as Hpre.
      { intros c s' Hlt. specialize (IH _ Hlt s' eq_refl).
        by destruct (parse_chars s'). }
      destruct s1 as [|c s]; simpl; [done|].
      repeat (case_match; try done; try (apply Hpre; simpl; lia)).
      all: subst; try (apply Hpre; simpl; lia). }
    by destruct (parse_chars s1). }
  assert (∀ kw v, parse_keyword kw v (c :: s1) ≠ OutOfFuel) as Hkw.
  { intros kw v. unfold parse_keyword. by destruct (match_lit false kw (c :: s1)). }
  destruct (Ascii.eqb c "t"); [apply Hkw|].
  destruct (Ascii.eqb c "f"); [apply Hkw|].
  destruct (Ascii.eqb c "n"); [apply Hkw|].
  assert (∀ neg s, parse_unsigned neg s ≠ OutOfFuel) as Hu.
  { intros neg s0. unfold parse_unsigned. destruct s0 as [|d r0]; [done|].
    destruct (is_digit d); [|done].
    destruct (if Ascii.eqb d "0" then _ else _) as [ip r1].
    assert (parse_frac r1 ≠ OutOfFuel) as Hfr.
    { unfold parse_frac. destruct r1 as [|x r1]; [done|].
      destruct (Ascii.eqb x "."); [|done].
      destruct (digits_run r1) as [[|? ?] ?]; [by destruct r1|done]. }
    destruct (parse_frac r1) as [fr r2| | |]; try done.
    assert (parse_exp r2 ≠ OutOfFuel) as Hex.
    { unfold parse_exp. destruct r2 as [|x r2]; [done|].
      destruct (_ || _); [|done].
      destruct (match r2 with [] => _ | _ => _ end) as [sign r3].
      destruct (digits_run r3) as [[|? ?] ?]; [by destruct r3|done]. }
    destruct (parse_exp r2) as [ex r3| | |]; try done.
    destruct fr, ex; try done. by case_match. }
  unfold parse_number. destruct (Ascii.eqb c "-"); apply Hu.
Qed.

Lemma elements_step_fuel value elements s acc :
  consuming value →
  value s ≠ OutOfFuel →
  (∀ r acc', length r + 2 ≤ length s → elements r acc' ≠ OutOfFuel) →
  elements_step value elements s acc ≠ OutOfFuel.
Proof.
  intros Hc Hv He. unfold elements_step.
  destruct (value s) as [x s1| | |] eqn:Hx; try done. apply Hc in Hx.
  pose proof (skip_ws_length s1) as Hs1. destruct (skip_ws s1) as [|d s2]; [done|].
  simpl in Hs1. destruct (Ascii.eqb d ","); [apply He; lia|].
  by destruct (Ascii.eqb d "]").
Qed.

Lemma members_step_fuel value members s acc :
  consuming value →
  (∀ r, length r < length s → value r ≠ OutOfFuel) →
  (∀ r acc', length r + 2 ≤ length s → members r acc' ≠ OutOfFuel) →
  members_step value members s acc ≠ OutOfFuel.
Proof.
  intros Hc Hv Hm. unfold members_step.
  pose proof (skip_ws_length s) as Hs. destruct (skip_ws s) as [|q s1]; [done|].
  simpl in Hs. destruct (Ascii.eqb q DQ); [|done].
  destruct (parse_chars s1) as [k s2| | |] eqn:Hk; try done.
  { apply parse_chars_shorter in Hk.
    pose proof (skip_ws_length s2) as Hs2. destruct (skip_ws s2) as [|d s3]; [done|].
    simpl in Hs2. destruct (Ascii.eqb d ":"); [|done].
    assert (value s3 ≠ OutOfFuel) as Hv3 by (apply Hv; lia).
    destruct (value s3) as [x s4| | |] eqn:Hx; try done. apply Hc in Hx.
    pose proof (skip_ws_length s4) as Hs4. destruct (skip_ws s4) as [|e s5]; [done|].
    simpl in Hs4. destruct (Ascii.eqb e ","); [apply Hm; lia|].
    by destruct (Ascii.eqb e "}"). }
  exfalso. revert Hk. clear.
  remember (length s1) as n eqn:Hn. revert s1 Hn.
  induction n as [n IH] using lt_wf_ind. intros s1 ->.
  assert (∀ c s', length s' < length s1 → prepend c (parse_chars s') ≠ OutOfFuel)
    as Hpre.
  { intros c s' Hlt. specialize (IH _ Hlt s' eq_refl).
    by destruct (parse_chars s'). }
  destruct s1 as [|c s]; simpl; [done|].
  repeat (case_match; try done; try (apply Hpre; simpl; lia)).
  all: subst; try (apply Hpre; simpl; lia).
Qed.

(** The fuel of [JSON_parse] is never used up: a value needs at most two
    units per character. *)
Lemma parse_fuel_suffices fuel :
  (∀ s, 2 * length s < fuel → parse_value fuel s ≠ OutOfFuel)
  ∧ (∀ s acc, 2 * length s + 1 < fuel → parse_elements fuel s acc ≠ OutOfFuel)
  ∧ (∀ s acc, 2 * length s + 1 < fuel → parse_members fuel s acc ≠ OutOfFuel).
Proof.
  induction fuel as [|fuel (IHv & IHe & IHm)]; [split_and!; intros; lia|].
  destruct (parse_consuming fuel) as (Hcv & _ & _).
  split_and!.
  - intros s Hs. apply value_step_fuel; intros r Hr; [apply IHe|apply IHm]; lia.
  - intros s acc Hs. apply elements_step_fuel; [done|apply IHv; lia|].
    intros r acc' Hr. apply IHe. lia.
  - intros s acc Hs. apply members_step_fuel; [done| |].
    + intros r Hr. apply IHv. lia.
    + intros r acc' Hr. apply IHm. lia.
Qed.

Lemma JSON_parse_fuel s : JSON_parse s ≠ OutOfFuel.
Proof.
  unfold JSON_parse.
  pose proof (proj1 (parse_fuel_suffices (S (2 * length s))) s) as Hv.
  destruct (parse_value (S (2 * length s)) s) as [v r| | |]; try done.
  - by destruct (skip_ws r).
  - apply Hv. lia.
Qed.

(** A parser that agrees with another wherever that one has fuel enough. *)
Definition extends (p p' : str → presult jvalue) : Prop :=
  ∀ s, p s ≠ OutOfFuel → p' s = p s.

Lemma value_step_extends elements members elements' members' :
  extends elements elements' → extends members members' →
  extends (value_step elements members) (value_step elements' members').
Proof.
  intros He Hm s. unfold value_step.
  destruct (skip_ws s) as [|c s1]; [done|].
  destruct (Ascii.eqb c "{").
  { destruct (skip_ws s1) as [|d s2]; [done|].
    destruct (Ascii.eqb d "}"); [done|]. apply Hm. }
  destruct (Ascii.eqb c "[").
  { destruct (skip_ws s1) as [|d s2]; [done|].
    destruct (Ascii.eqb d "]"); [done|]. apply He. }
  done.
Qed.

Lemma elements_step_extends value elements value' elements' :
  extends value value' →
  (∀ acc, extends (λ s, elements s acc) (λ s, elements' s acc)) →
  ∀ acc, extends (λ s, elements_step value elements s acc)
                 (λ s, elements_step value' elements' s acc).
Proof.
  intros Hv He acc s. unfold elements_step.
  destruct (value s) as [x s1| | |] eqn:Hx; try done;
    rewrite (Hv s) by (by rewrite Hx); rewrite Hx; try done.
  destruct (skip_ws s1) as [|d s2]; [done|].
  destruct (Ascii.eqb d ","); [apply He|done].
Qed.

Lemma members_step_extends value members value' members' :
  extends value value' →
  (∀ acc, extends (λ s, members s acc) (λ s, members' s acc)) →
  ∀ acc, extends (λ s, members_step value members s acc)
                 (λ s, members_step value' members' s acc).
Proof.
  intros Hv Hm acc s. unfold members_step.
  destruct (skip_ws s) as [|q s1]; [done|].
  destruct (Ascii.eqb q DQ); [|done].
  destruct (parse_chars s1) as [k s2| | |]; try done.
  destruct (skip_ws s2) as [|d s3]; [done|].
  destruct (Ascii.eqb d ":"); [|done].
  destruct (value s3) as [x s4| | |] eqn:Hx; try done;
    rewrite (Hv s3) by (by rewrite Hx); rewrite Hx; try done.
  destruct (skip_ws s4) as [|e s5]; [done|].
  destruct (Ascii.eqb e ","); [apply Hm|done].
Qed.

Lemma parse_extends_S fuel :
  extends (parse_value fuel) (parse_value (S fuel))
  ∧ (∀ acc, extends (λ s, parse_elements fuel s acc) (λ s, parse_elements (S fuel) s acc))
  ∧ (∀ acc, extends (λ s, parse_members fuel s acc) (λ s, parse_members (S fuel) s acc)).
Proof.
  induction fuel as [|fuel (IHv & IHe & IHm)];
    [unfold extends; split_and!; intros; simpl in *; done|].
  split_and!.
  - apply value_step_extends; [apply (IHe [])|apply (IHm [])].
  - by apply elements_step_extends.
  - by apply members_step_extends.
Qed.

(** More fuel does not change a result that was reached. *)
Lemma parse_value_more_fuel fuel fuel' s :
  fuel ≤ fuel' → parse_value fuel s ≠ OutOfFuel → parse_value fuel' s = parse_value fuel s.
Proof.
  induction 1 as [|fuel' Hle IH]; [done|].
  intros Hn. rewrite <- (IH Hn).
  apply (proj1 (parse_extends_S fuel')). by rewrite (IH Hn).
Qed.

(** ** Structured-document round trip *)

(** Reading back one quoted code unit. *)
Lemma parse_quote_char c s :
  parse_chars (quote_char c ++ s) = prepend c (parse_chars s).
Proof. destruct c as [[] [] [] [] [] [] [] []]; reflexivity. Qed.

Lemma parse_quoted k rest :
  parse_chars (concat (map quote_char k) ++ DQ :: rest) = Parsed k rest.
Proof.
  induction k as [|c k IH]; [done|].
  cbn [map concat]. rewrite <- app_assoc, parse_quote_char, IH. done.
Qed.

Lemma quote_unfold k : quote k = DQ :: concat (map quote_char k) ++ [DQ].
Proof. done. Qed.

(** The text of a serialized RecordSet, written with its continuation so
    that every piece starts with its first character. *)
Definition quoted (k tail : str) : str :=
  DQ :: concat (map quote_char k) ++ DQ :: tail.

Fixpoint members_text (l : record) (tail : str) : str :=
  match l with
  | [] => tail
  | kv :: l' =>
      LF :: " " :: " " :: " " :: " "
      :: quoted kv.1
           (":" :: " "
            :: quoted kv.2
                 match l' with
                 | [] => LF :: " " :: " " :: "}" :: tail
                 | _ :: _ => "," :: members_text l' tail
                 end)
  end%char.

Definition record_text (r : record) (tail : str) : str :=
  "{"%char
  :: match r with
     | [] => "}"%char :: tail
     | _ :: _ => members_text r tail
     end.

Fixpoint records_text (rs : recordset) (tail : str) : str :=
  match rs with
  | [] => tail
  | r :: rs' =>
      LF :: " " :: " "
      :: record_text r
           match rs' with
           | [] => LF :: "]" :: tail
           | _ :: _ => "," :: records_text rs' tail
           end
  end%char.

Definition document (rs : recordset) : str :=
  match rs with
  | [] => lit "[]"
  | _ :: _ => "["%char :: records_text rs []
  end.

Lemma value_step_string elements members s r :
  skip_ws s = DQ :: r → value_step elements members s = pmap JStr (parse_chars r).
Proof. intros H. unfold value_step. by rewrite H. Qed.

Lemma value_step_object elements members s r d r' :
  skip_ws s = "{"%char :: r → skip_ws r = d :: r' →
  value_step elements members s =
  if Ascii.eqb d "}" then Parsed (JObj []) r' else members r.
Proof. intros H H'. unfold value_step. by rewrite H, H'. Qed.

Lemma value_step_array elements members s r d r' :
  skip_ws s = "["%char :: r → skip_ws r = d :: r' →
  value_step elements members s =
  if Ascii.eqb d "]" then Parsed (JArr []) r' else elements r.
Proof. intros H H'. unfold value_step. by rewrite H, H'. Qed.

Lemma members_step_member value members s acc r k r1 r2 v r3 :
  skip_ws s = DQ :: r → parse_chars r = Parsed k r1 →
  skip_ws r1 = ":"%char :: r2 → value r2 = Parsed v r3 →
  members_step value members s acc =
  match skip_ws r3 with
  | e :: r4 =>
      if Ascii.eqb e "," then members r4 (obj_set acc k v)
      else if Ascii.eqb e "}" then Parsed (JObj (obj_set acc k v)) r4
      else Rejected (UnexpectedToken e)
  | [] => Rejected UnexpectedEnd
  end.
Proof. intros H1 H2 H3 H4. unfold members_step. by rewrite H1, H2, H3, H4. Qed.

Lemma elements_step_item value elements s acc v r :
  value s = Parsed v r →
  elements_step value elements s acc =
  match skip_ws r with
  | d :: r' =>
      if Ascii.eqb d "," then elements r' (acc ++ [v])
      else if Ascii.eqb d "]" then Parsed (JArr (acc ++ [v])) r'
      else Rejected (UnexpectedToken d)
  | [] => Rejected UnexpectedEnd
  end.
Proof. intros H. unfold elements_step. by rewrite H. Qed.

Lemma parse_value_quoted fuel v tail :
  0 < fuel → parse_value fuel (" "%char :: quoted v tail) = Parsed (JStr v) tail.
Proof.
  destruct fuel as [|fuel]; [lia|]. intros _. cbn [parse_value].
  rewrite (value_step_string _ _ _ (concat (map quote_char v) ++ DQ :: tail)) by done.
  by rewrite parse_quoted.
Qed.

Lemma members_text_cons kv l tail :
  members_text (kv :: l) tail =
  (LF :: " " :: " " :: " " :: " "
   :: quoted kv.1
        (":" :: " "
         :: quoted kv.2
              match l with
              | [] => LF :: " " :: " " :: "}" :: tail
              | _ :: _ => "," :: members_text l tail
              end))%char.
Proof. done. Qed.

Lemma parse_members_text fuel l tail acc :
  l ≠ [] → length l < fuel → NoDup (obj_keys acc ++ obj_keys l) →
  parse_members fuel (members_text l tail) acc =
  Parsed (JObj (acc ++ map (λ kv : str * str, (kv.1, JStr kv.2)) l)) tail.
Proof.
  revert fuel acc. induction l as [|[k v] l IH]; intros fuel acc Hne Hfuel Hnd; [done|].
  destruct fuel as [|fuel]; [simpl in Hfuel; lia|].
  rewrite members_text_cons. cbn [parse_members fst snd].
  erewrite members_step_member;
    [|reflexivity|apply parse_quoted|reflexivity
     |apply parse_value_quoted; simpl in Hfuel; lia].
  assert (obj_set acc k (JStr v) = acc ++ [(k, JStr v)]) as Hset.
  { apply obj_set_fresh. apply NoDup_app in Hnd as (_ & Hdisj & _).
    intros Hin. apply (Hdisj _ Hin). unfold obj_keys. simpl. apply list_elem_of_here. }
  rewrite Hset. destruct l as [|kv l].
  - reflexivity.
  - change (skip_ws ("," :: ?s)%char) with (","%char :: s).
    change (Ascii.eqb "," ",") with true. cbv iota.
    rewrite IH; [|done|simpl in *; lia|].
    + by rewrite <- app_assoc.
    + unfold obj_keys in *. rewrite map_app, <- app_assoc. exact Hnd.
Qed.

Lemma parse_record_text fuel r tail :
  length r + 1 < fuel → wf_object r →
  parse_value fuel (LF :: " " :: " " :: record_text r tail)%char =
  Parsed (json_of_record r) tail.
Proof.
  intros Hfuel Hwf. destruct fuel as [|fuel]; [lia|]. cbn [parse_value].
  destruct r as [|kv r].
  - by erewrite value_step_object by reflexivity.
  - unfold record_text.
    erewrite value_step_object;
      [|reflexivity|rewrite members_text_cons; reflexivity].
    change (Ascii.eqb DQ "}") with false. cbv iota.
    rewrite parse_members_text; [done|done|simpl in *; lia|done].
Qed.

Lemma records_text_cons r rs tail :
  records_text (r :: rs) tail =
  (LF :: " " :: " "
   :: record_text r
        match rs with
        | [] => LF :: "]" :: tail
        | _ :: _ => "," :: records_text rs tail
        end)%char.
Proof. done. Qed.

(** Fuel that is enough for the items of an array of records. *)
Definition weight (rs : recordset) : nat := length rs + length (concat rs) + 2.

Lemma parse_records_text fuel rs tail acc :
  rs ≠ [] → weight rs < fuel → Forall wf_object rs →
  parse_elements fuel (records_text rs tail) acc =
  Parsed (JArr (acc ++ map json_of_record rs)) tail.
Proof.
  unfold weight.
  revert fuel acc. induction rs as [|r rs IH]; intros fuel acc Hne Hfuel Hwf; [done|].
  apply Forall_cons in Hwf as [Hr Hwf].
  simpl in Hfuel. rewrite length_app in Hfuel.
  destruct fuel as [|fuel]; [lia|].
  rewrite records_text_cons. cbn [parse_elements].
  erewrite elements_step_item by (apply parse_record_text; [lia|done]).
  destruct rs as [|r' rs].
  - reflexivity.
  - change (skip_ws ("," :: ?s)%char) with (","%char :: s).
    change (Ascii.eqb "," ",") with true. cbv iota.
    rewrite IH; [|done|simpl in *; lia|done].
    by rewrite <- app_assoc.
Qed.

Lemma parse_document fuel rs :
  weight rs + 1 < fuel → Forall wf_object rs →
  parse_value fuel (document rs) = Parsed (json_of_recordset rs) [].
Proof.
  intros Hfuel Hwf. destruct fuel as [|fuel]; [lia|]. cbn [parse_value].
  destruct rs as [|r rs].
  - by erewrite value_step_array by reflexivity.
  - unfold document.
    erewrite value_step_array;
      [|reflexivity|rewrite records_text_cons; reflexivity].
    change (Ascii.eqb "{" "]") with false. cbv iota.
    rewrite parse_records_text; [done|done|lia|done].
Qed.

Lemma JSON_parse_document rs :
  Forall wf_object rs → JSON_parse (document rs) = Parsed (json_of_recordset rs) [].
Proof.
  intros Hwf. unfold JSON_parse.
  set (fuel := S (2 * length (document rs))).
  set (big := fuel + weight rs + 2).
  assert (parse_value big (document rs) = Parsed (json_of_recordset rs) []) as Hbig.
  { apply parse_document; [subst big; lia|done]. }
  assert (parse_value fuel (document rs) ≠ OutOfFuel) as Hfuel.
  { apply (proj1 (parse_fuel_suffices fuel)). subst fuel. lia. }
  rewrite <- (parse_value_more_fuel fuel big) by (done || subst big; lia).
  by rewrite Hbig.
Qed.

Lemma join_cons_cons sep x y l : join sep (x :: y :: l) = x ++ sep ++ join sep (y :: l).
Proof. done. Qed.

Definition member_text (kv : str * str) : str :=
  quote kv.1 ++ lit ": " ++ quote kv.2.

Lemma members_text_join l tail :
  l ≠ [] →
  ([LF] ++ lit "    ")
  ++ join (lit "," ++ [LF] ++ lit "    ") (map member_text l)
  ++ ([LF] ++ lit "  ") ++ lit "}" ++ tail
  = members_text l tail.
Proof.
  induction l as [|kv l IH]; [done|]. intros _.
  rewrite members_text_cons. destruct l as [|kv' l].
  - cbn [map join]. unfold member_text, quote, quoted.
    rewrite <- !app_assoc. reflexivity.
  - rewrite <- IH by done. cbn [map]. rewrite join_cons_cons.
    unfold member_text, quote, quoted. rewrite <- !app_assoc. reflexivity.
Qed.

Lemma stringify_record r tail :
  stringify (lit "  ") (lit "  ") (json_of_record r) ++ tail = record_text r tail.
Proof.
  destruct r as [|kv r]; [reflexivity|].
  unfold record_text. rewrite <- members_text_join by done.
  unfold json_of_record.
  change (stringify (lit "  ") (lit "  ") (JObj (map ?f (kv :: r)))) with
    (lit "{" ++ ([LF] ++ lit "    ")
     ++ join (lit "," ++ [LF] ++ lit "    ")
          (map (λ kv : str * jvalue,
                  let '(k, x) := kv in
                  quote k ++ lit ": " ++ stringify (lit "  ") (lit "    ") x)
               (map f (kv :: r)))
     ++ ([LF] ++ lit "  ") ++ lit "}").
  rewrite map_map. rewrite <- !app_assoc. reflexivity.
Qed.

Lemma records_text_join rs tail :
  rs ≠ [] →
  ([LF] ++ lit "  ")
  ++ join (lit "," ++ [LF] ++ lit "  ")
       (map (λ r, stringify (lit "  ") (lit "  ") (json_of_record r)) rs)
  ++ [LF] ++ lit "]" ++ tail
  = records_text rs tail.
Proof.
  induction rs as [|r rs IH]; [done|]. intros _.
  rewrite records_text_cons. destruct rs as [|r' rs].
  - cbn [map join]. rewrite <- stringify_record, <- !app_assoc. reflexivity.
  - rewrite <- IH by done. cbn [map]. rewrite join_cons_cons.
    rewrite <- stringify_record, <- !app_assoc. reflexivity.
Qed.

(** The serialized text of a RecordSet, piece by piece. *)
Lemma stringify_recordset rs :
  JSON_stringify2 (json_of_recordset rs) = document rs.
Proof.
  destruct rs as [|r rs]; [reflexivity|].
  unfold document. rewrite <- records_text_join by done.
  unfold JSON_stringify2, json_of_recordset.
  change (stringify (lit "  ") [] (JArr (map ?f (r :: rs)))) with
    (lit "[" ++ ([LF] ++ lit "  ")
     ++ join (lit "," ++ [LF] ++ lit "  ")
          (map (stringify (lit "  ") (lit "  ")) (map f (r :: rs)))
     ++ [LF] ++ lit "]").
  rewrite map_map, <- !app_assoc. reflexivity.
Qed.

(** The objects of a RecordSet, as the pipeline holds them. *)
Definition objects_of (rs : recordset) : list (object jvalue) :=
  map (λ r : record, members_of (json_of_record r)) rs.

Lemma JArr_objects_of rs : JArr (map JObj (objects_of rs)) = json_of_recordset rs.
Proof. unfold objects_of, json_of_recordset. by rewrite map_map. Qed.

Lemma as_record_json r : as_record (json_of_record r) = Some r.
Proof.
  unfold as_record, json_of_record. apply mapM_Some.
  induction r as [|[k v] r IH]; constructor; done.
Qed.

Lemma as_recordset_json rs : as_recordset (json_of_recordset rs) = Some rs.
Proof.
  unfold as_recordset, json_of_recordset. apply mapM_Some.
  induction rs as [|r rs IH]; constructor; [apply as_record_json|done].
Qed.

Lemma as_objects_json rs : as_objects (json_of_recordset rs) = Some (objects_of rs).
Proof.
  unfold as_objects, json_of_recordset, objects_of. apply mapM_Some.
  induction rs as [|r rs IH]; constructor; done.
Qed.

Lemma parseFile_csv content :
  parseFile content (lit ".csv") = Done (Some (json_of_recordset (csvToRecords content))).
Proof. done. Qed.

Lemma parseFile_json content :
  parseFile content (lit ".json") =
  match JSON_parse content with
  | Parsed v _ => Done (Some v)
  | Rejected cause => Thrown (SyntaxError cause)
  | Unmodelled => Unrepresented
  | OutOfFuel => Exhausted
  end.
Proof. done. Qed.

Lemma parseFile_xml content :
  parseFile content (lit ".xml") =
  match xmlToRecords content with
  | Some rs => Done (Some (json_of_recordset rs))
  | None => Exhausted
  end.
Proof. done. Qed.

Lemma convert_json records :
  convert (lit ".json") records = Done (JSON_stringify2 (JArr (map JObj records))).
Proof. done. Qed.

(** The structured document written for a RecordSet reads back as it. *)
Lemma json_round_trip rs :
  Forall wf_object rs →
  ∃ text, convert (lit ".json") (objects_of rs) = Done text
          ∧ parseFile text (lit ".json") = Done (Some (json_of_recordset rs)).
Proof.
  intros Hwf. eexists. split; [apply convert_json|].
  rewrite parseFile_json.
  by rewrite JArr_objects_of, stringify_recordset, JSON_parse_document.
Qed.

(** C3: a RecordSet written as a structured document, as the pipeline
    does for the target [.json], and read back by [parseFile] is the same
    RecordSet: the conversion returns a text, and the text is parsed as the
    RecordSet.  It holds for every RecordSet of well-formed objects, so in
    particular for those whose records share one field set. *)
Theorem C3_structured_document_round_trip (rs : recordset) :
  Forall wf_object rs →
  ∃ text,
    convert (lit ".json") (objects_of rs) = Done text
    ∧ parseFile text (lit ".json") = Done (Some (json_of_recordset rs))
    ∧ as_recordset (json_of_recordset rs) = Some rs.
Proof.
  intros Hwf. destruct (json_round_trip rs Hwf) as (text & Hc & Hp).
  exists text. split_and!; [done|done|apply as_recordset_json].
Qed.

Lemma C3_witness :
  let rs := [[(lit "id", lit "1"); (lit "amount", lit "100")];
             [(lit "id", lit "2"); (lit "amount", lit "200")]] in
  ∃ text,
    convert (lit ".json") (objects_of rs) = Done text
    ∧ parseFile text (lit ".json") = Done (Some (json_of_recordset rs))
    ∧ as_recordset (json_of_recordset rs) = Some rs.
Proof.
  intros rs. apply (C3_structured_document_round_trip rs).
  repeat constructor; closed_decide.
Defined.

(** ** Which parsers can fail *)

Lemma parseFile_Thrown content ext e :
  parseFile content ext = Thrown e →
  ext = lit ".json" ∧ ∃ cause, e = SyntaxError cause ∧ JSON_parse content = Rejected cause.
Proof.
  unfold parseFile. repeat case_decide; try done.
  - destruct (JSON_parse content) eqn:Hp; try done. intros [= <-]. eauto.
  - by destruct (xmlToRecords content).
Qed.

Lemma parseFile_not_Exhausted content ext : parseFile content ext ≠ Exhausted.
Proof.
  unfold parseFile. repeat case_decide; try done.
  - pose proof (JSON_parse_fuel content). by destruct (JSON_parse content).
  - by destruct (xmlToRecords_total content) as [rs ->].
Qed.

Lemma handleFileTransform_parse_error write_ok t1 t2 name content fx e :
  toLowerCase (extname name) ∈ [lit ".csv"; lit ".json"; lit ".xml"] →
  parseFile content (toLowerCase (extname name)) = Thrown e →
  handleFileTransform write_ok t1 t2 name content fx
  = (Effects (written fx) (logged fx ++ [ParseFailed name e]) (the_bus fx), Done ()).
Proof.
  intros Hext Hp. unfold handleFileTransform.
  rewrite bool_decide_eq_true_2 by done. simpl negb. cbv iota.
  by rewrite Hp.
Qed.

(** C7: delimited-text and tagged-markup parsing return a RecordSet for
    every input (the loops of the markup parser end for every input); the
    only exception [parseFile] can raise is the SyntaxError of
    [JSON.parse], for the structured-document format, as on the text
    "[{"; the pipeline catches it and logs it with its cause. *)
Theorem C7_only_structured_document_parsing_fails :
  (∀ content,
     parseFile content (lit ".csv")
     = Done (Some (json_of_recordset (csvToRecords content))))
  ∧ (∀ content, ∃ rs,
       xmlToRecords content = Some rs
       ∧ parseFile content (lit ".xml") = Done (Some (json_of_recordset rs)))
  ∧ (∀ content ext e,
       parseFile content ext = Thrown e →
       ext = lit ".json"
       ∧ ∃ cause, e = SyntaxError cause ∧ JSON_parse content = Rejected cause)
  ∧ (∀ content ext, parseFile content ext ≠ Exhausted)
  ∧ parseFile (lit "[{") (lit ".json") = Thrown (SyntaxError UnexpectedEnd)
  ∧ (∀ write_ok t1 t2 name content fx e,
       toLowerCase (extname name) ∈ [lit ".csv"; lit ".json"; lit ".xml"] →
       parseFile content (toLowerCase (extname name)) = Thrown e →
       handleFileTransform write_ok t1 t2 name content fx
       = (Effects (written fx) (logged fx ++ [ParseFailed name e]) (the_bus fx),
          Done ())).
Proof.
  split_and!.
  - done.
  - intros content. destruct (xmlToRecords_total content) as [rs Hrs].
    exists rs. split; [done|]. by rewrite parseFile_xml, Hrs.
  - apply parseFile_Thrown.
  - apply parseFile_not_Exhausted.
  - by vm_compute.
  - apply handleFileTransform_parse_error.
Qed.

(** ** Trimming *)

(** A line of whitespace only. *)
Definition is_blank (l : str) : bool := forallb is_ws l.

Lemma trimStart_blank l : is_blank l = true → trimStart l = [].
Proof.
  induction l as [|c l IH]; simpl; [done|].
  intros [Hc Hl]%andb_prop. rewrite Hc. auto.
Qed.

Lemma trimStart_nil_blank l : trimStart l = [] → is_blank l = true.
Proof.
  induction l as [|c l IH]; simpl; [done|].
  destruct (is_ws c); [auto|done].
Qed.

Lemma trimStart_app a b :
  trimStart (a ++ b) = if is_blank a then trimStart b else trimStart a ++ b.
Proof.
  induction a as [|c a IH]; simpl; [done|].
  destruct (is_ws c); simpl; [exact IH|done].
Qed.

Lemma is_blank_app a b : is_blank (a ++ b) = is_blank a && is_blank b.
Proof. unfold is_blank. apply forallb_app. Qed.

Lemma is_blank_rev a : is_blank (rev a) = is_blank a.
Proof.
  induction a as [|c a IH]; simpl; [done|].
  rewrite is_blank_app, IH. simpl. rewrite andb_true_r. apply andb_comm.
Qed.

Lemma trimEnd_blank l : is_blank l = true → trimEnd l = [].
Proof.
  intros H. unfold trimEnd. rewrite trimStart_blank; [done|by rewrite is_blank_rev].
Qed.

Lemma trimEnd_nil_blank l : trimEnd l = [] → is_blank l = true.
Proof.
  unfold trimEnd. intros H. rewrite <- is_blank_rev. apply trimStart_nil_blank.
  apply (f_equal (@rev ascii)) in H. by rewrite rev_involutive in H.
Qed.

Lemma trimEnd_app a b :
  trimEnd (a ++ b) = if is_blank b then trimEnd a else a ++ trimEnd b.
Proof.
  unfold trimEnd. rewrite rev_app_distr, trimStart_app, is_blank_rev.
  destruct (is_blank b); [done|]. by rewrite rev_app_distr, rev_involutive.
Qed.

Lemma trimEnd_cons c l :
  trimEnd (c :: l) = if is_blank l then trimEnd [c] else c :: trimEnd l.
Proof. apply (trimEnd_app [c] l). Qed.

Lemma trimEnd_split s : ∃ w, s = trimEnd s ++ w ∧ is_blank w = true.
Proof.
  induction s as [|c s (w & Hs & Hw)] using rev_ind.
  - by exists [].
  - rewrite trimEnd_app. simpl. destruct (is_ws c) eqn:Hc; simpl.
    + exists (w ++ [c]). split.
      * rewrite app_assoc. by rewrite <- Hs.
      * rewrite is_blank_app, Hw. simpl. by rewrite Hc.
    + exists []. split; [|done].
      unfold trimEnd. simpl. rewrite Hc. simpl. by rewrite app_nil_r.
Qed.

Lemma trimStart_trimEnd s : trimStart (trimEnd s) = trimEnd (trimStart s).
Proof.
  induction s as [|c s IH]; [done|].
  rewrite trimEnd_cons. simpl trimStart at 2.
  destruct (is_ws c) eqn:Hc.
  - destruct (is_blank s) eqn:Hs.
    + rewrite (trimEnd_blank [c]) by (simpl; by rewrite Hc).
      rewrite (trimStart_blank s Hs). done.
    + simpl. rewrite Hc. exact IH.
  - destruct (is_blank s) eqn:Hs.
    + rewrite (trimEnd_cons c s), Hs. unfold trimEnd. simpl. rewrite Hc. simpl.
      by rewrite Hc.
    + simpl. rewrite Hc. by rewrite (trimEnd_cons c s), Hs.
Qed.

Lemma trim_alt s : trim s = trimStart (trimEnd s).
Proof. unfold trim. by rewrite trimStart_trimEnd. Qed.

Lemma trim_nil_blank l : trim l = [] ↔ is_blank l = true.
Proof.
  rewrite trim_alt. split.
  - intros H%trimStart_nil_blank. destruct (trimEnd_split l) as (w & Hl & Hw).
    rewrite Hl, is_blank_app, H, Hw. done.
  - intros H. by rewrite trimEnd_blank.
Qed.

Lemma trim_ws_cons c l : is_ws c = true → trim (c :: l) = trim l.
Proof. intros Hc. unfold trim. simpl. by rewrite Hc. Qed.

(** ** Delimited-text parsing *)

Definition nonblank (l : str) : bool := negb (is_blank l).

(** Two lists of lines that hold the same text once blank lines are dropped
    and the others trimmed. *)
Definition same_lines (L1 L2 : list str) : Prop :=
  map trim (List.filter nonblank L1) = map trim (List.filter nonblank L2).

Lemma split_lines_LF s : split_lines (LF :: s) = [] :: split_lines s.
Proof. done. Qed.

Lemma split_lines_CRLF s : split_lines (CR :: LF :: s) = [] :: split_lines s.
Proof. done. Qed.

Lemma split_lines_cons c s :
  c ≠ LF → (c = CR → head s ≠ Some LF) →
  split_lines (c :: s) = cons_head c (split_lines s).
Proof.
  intros Hc Hcr. cbn [split_lines].
  destruct (Ascii.eqb_spec c LF) as [|_]; [done|].
  destruct s as [|d s]; [done|].
  destruct (Ascii.eqb_spec c CR) as [->|_]; [|done].
  destruct (Ascii.eqb_spec d LF) as [->|_]; [|done].
  by destruct Hcr.
Qed.

Lemma split_lines_nonempty s : ∃ h t, split_lines s = h :: t.
Proof.
  induction s as [|c s (h & t & IH)]; [by eexists _, _|].
  cbn [split_lines]. destruct (Ascii.eqb c LF); [by eexists _, _|].
  destruct s as [|d s]; [by eexists _, _|].
  destruct (Ascii.eqb c CR && Ascii.eqb d LF); [by eexists _, _|].
  rewrite IH. by eexists _, _.
Qed.

Lemma split_lines_blank w : is_blank w = true → Forall (λ l, is_blank l = true) (split_lines w).
Proof.
  remember (length w) as n eqn:Hn. revert w Hn.
  induction n as [n IH] using lt_wf_ind. intros w -> Hw.
  destruct w as [|c w]; [by repeat constructor|].
  simpl in Hw. apply andb_prop in Hw as [Hc Hw].
  assert (is_blank [c] = true) as Hc1 by (simpl; by rewrite Hc).
  cbn [split_lines]. destruct (Ascii.eqb c LF).
  { constructor; [done|]. apply (IH (length w)); simpl; auto. }
  destruct w as [|d w]; [by repeat constructor|].
  destruct (Ascii.eqb c CR && Ascii.eqb d LF).
  { constructor; [done|]. simpl in Hw. apply andb_prop in Hw as [_ Hw].
    apply (IH (length w)); simpl; auto. }
  specialize (IH (length (d :: w)) ltac:(simpl; lia) (d :: w) eq_refl Hw).
  destruct (split_lines (d :: w)) as [|h t]; [by repeat constructor|].
  apply Forall_cons in IH as [Hh Ht]. constructor; [|done].
  simpl. by rewrite Hc.
Qed.

Lemma same_lines_blank L : Forall (λ l, is_blank l = true) L → same_lines L [].
Proof.
  unfold same_lines. induction 1 as [|l L Hl _ IH]; [done|].
  simpl. replace (nonblank l) with false by (unfold nonblank; by rewrite Hl).
  done.
Qed.

Lemma same_lines_cons h1 h2 t1 t2 :
  trim h1 = trim h2 → same_lines t1 t2 → same_lines (h1 :: t1) (h2 :: t2).
Proof.
  unfold same_lines. intros Hh Ht. simpl.
  assert (nonblank h1 = nonblank h2) as Hb.
  { unfold nonblank. f_equal.
    destruct (is_blank h1) eqn:H1, (is_blank h2) eqn:H2; try done.
    - apply trim_nil_blank in H1. rewrite H1 in Hh. symmetry in Hh.
      apply trim_nil_blank in Hh. congruence.
    - apply trim_nil_blank in H2. rewrite H2 in Hh.
      apply trim_nil_blank in Hh. congruence. }
  rewrite Hb. destruct (nonblank h2); simpl; [|done].
  by rewrite Hh, Ht.
Qed.

(** Whitespace in front of a text does not change its lines. *)
Lemma same_lines_leading c s :
  is_ws c = true → same_lines (split_lines (c :: s)) (split_lines s).
Proof.
  intros Hc. destruct (Ascii.eqb_spec c LF) as [->|Hlf].
  { rewrite split_lines_LF. unfold same_lines. done. }
  destruct (split_lines_nonempty s) as (h & t & Hs).
  destruct (decide (c = CR ∧ head s = Some LF)) as [[-> Hhd]|Hn].
  { destruct s as [|d s]; [done|]. simpl in Hhd. injection Hhd as ->.
    rewrite split_lines_CRLF, split_lines_LF. done. }
  rewrite split_lines_cons, Hs; [|done|intros ->; intros ?; apply Hn; done].
  simpl. apply same_lines_cons; [|done]. by apply trim_ws_cons.
Qed.

Lemma same_lines_trimStart s : same_lines (split_lines (trimStart s)) (split_lines s).
Proof.
  induction s as [|c s IH]; [done|]. simpl.
  destruct (is_ws c) eqn:Hc; [|done].
  unfold same_lines in *. rewrite IH. symmetry. by apply same_lines_leading.
Qed.

Lemma trimEnd_eq_blank h1 h2 : trimEnd h1 = trimEnd h2 → is_blank h1 = is_blank h2.
Proof.
  intros Hh. destruct (is_blank h1) eqn:H1, (is_blank h2) eqn:H2; try done.
  - apply trimEnd_blank in H1. rewrite H1 in Hh. symmetry in Hh.
    apply trimEnd_nil_blank in Hh. congruence.
  - apply trimEnd_blank in H2. rewrite H2 in Hh.
    apply trimEnd_nil_blank in Hh. congruence.
Qed.

Lemma trimEnd_eq_trim h1 h2 : trimEnd h1 = trimEnd h2 → trim h1 = trim h2.
Proof. intros H. by rewrite !trim_alt, H. Qed.

(** Whitespace after a text changes neither the lines before the last one
    nor, up to its trailing whitespace, the first. *)
Lemma split_lines_trailing s w :
  is_blank w = true →
  ∃ h1 t1 h2 t2,
    split_lines (s ++ w) = h1 :: t1 ∧ split_lines s = h2 :: t2
    ∧ trimEnd h1 = trimEnd h2 ∧ same_lines t1 t2.
Proof.
  intros Hw. remember (length s) as n eqn:Hn. revert s Hn.
  induction n as [n IH] using lt_wf_ind. intros s ->.
  destruct s as [|c s].
  { destruct (split_lines_nonempty w) as (h1 & t1 & H1).
    pose proof (split_lines_blank w Hw) as Hall. rewrite H1 in Hall.
    apply Forall_cons in Hall as [Hh Ht].
    exists h1, t1, [], []. simpl. split_and!; [done|done| |].
    - by rewrite trimEnd_blank.
    - by apply same_lines_blank. }
  assert (∀ s', length s' < length (c :: s) →
            same_lines (split_lines (s' ++ w)) (split_lines s')) as Hsame.
  { intros s' Hlt. destruct (IH _ Hlt s' eq_refl) as (h1 & t1 & h2 & t2 & -> & -> & Hh & Ht).
    apply same_lines_cons; [by apply trimEnd_eq_trim|done]. }
  destruct (Ascii.eqb_spec c LF) as [->|Hlf].
  { exists [], (split_lines (s ++ w)), [], (split_lines s).
    split_and!; try done. apply Hsame. simpl. lia. }
  destruct (decide (c = CR ∧ head (s ++ w) = Some LF)) as [[-> Hhd]|Hn].
  { destruct s as [|d s].
    - destruct w as [|d w]; [done|]. simpl in Hhd. injection Hhd as ->.
      exists [], (split_lines w), [CR], []. split_and!; try done.
      apply same_lines_blank, split_lines_blank.
      exact Hw.
    - simpl in Hhd. injection Hhd as ->.
      exists [], (split_lines (s ++ w)), [], (split_lines s).
      split_and!; try done. apply Hsame. simpl. lia. }
  destruct (IH (length s) ltac:(simpl; lia) s eq_refl)
    as (h1 & t1 & h2 & t2 & H1 & H2 & Hh & Ht).
  exists (c :: h1), t1, (c :: h2), t2. split_and!; [| | |done].
  - change ((c :: s) ++ w) with (c :: (s ++ w)).
    rewrite split_lines_cons, H1; [done|done|].
    intros ->. intros ?. by apply Hn.
  - rewrite split_lines_cons, H2; [done|done|].
    intros ->. intros Hhd. apply Hn. split; [done|].
    destruct s; [done|]. exact Hhd.
  - by rewrite (trimEnd_cons c h1), (trimEnd_cons c h2), (trimEnd_eq_blank _ _ Hh), Hh.
Qed.

Lemma same_lines_trim csv : same_lines (split_lines (trim csv)) (split_lines csv).
Proof.
  unfold trim. destruct (trimEnd_split (trimStart csv)) as (w & Hsplit & Hw).
  destruct (split_lines_trailing (trimEnd (trimStart csv)) w Hw)
    as (h1 & t1 & h2 & t2 & H1 & H2 & Hh & Ht).
  rewrite <- Hsplit in H1. rewrite H2.
  unfold same_lines. rewrite <- (same_lines_trimStart csv), H1.
  symmetry. apply same_lines_cons; [by apply trimEnd_eq_trim|done].
Qed.

(** The lines of the input that are not blank. *)
Definition nonblank_lines (csv : str) : list str :=
  List.filter nonblank (split_lines csv).

Lemma filter_map_trim L :
  filter (λ l : str, l ≠ []) (map trim L) = map trim (List.filter nonblank L).
Proof.
  induction L as [|l L IH]; [done|]. simpl. rewrite filter_cons, IH.
  destruct (is_blank l) eqn:Hb.
  - replace (nonblank l) with false by (unfold nonblank; by rewrite Hb).
    apply trim_nil_blank in Hb. rewrite decide_False; [done|]. intros H. by apply H.
  - replace (nonblank l) with true by (unfold nonblank; by rewrite Hb).
    rewrite decide_True; [done|]. intros Ht%trim_nil_blank. congruence.
Qed.

(** The lines the parser works on are the non-blank lines of the input,
    trimmed. *)
Lemma csv_lines_spec csv : csv_lines csv = map trim (nonblank_lines csv).
Proof.
  unfold csv_lines, nonblank_lines. rewrite filter_map_trim.
  apply same_lines_trim.
Qed.

Lemma split_char_nonempty sep s : ∃ h t, split_char sep s = h :: t.
Proof.
  induction s as [|c s (h & t & IH)]; [by eexists _, _|].
  simpl. destruct (Ascii.eqb c sep); [by eexists _, _|].
  rewrite IH. by eexists _, _.
Qed.

Lemma split_char_trimStart s :
  map trim (split_char "," (trimStart s)) = map trim (split_char "," s).
Proof.
  induction s as [|c s IH]; [done|]. simpl.
  destruct (is_ws c) eqn:Hc; [|done].
  destruct (Ascii.eqb_spec c ",") as [->|_]; [done|].
  rewrite IH. destruct (split_char_nonempty "," s) as (h & t & ->).
  simpl. by rewrite trim_ws_cons.
Qed.

Lemma split_char_trailing s w :
  is_blank w = true →
  Forall2 (λ a b, trimEnd a = trimEnd b) (split_char "," (s ++ w)) (split_char "," s).
Proof.
  intros Hw. induction s as [|c s IH].
  - simpl. assert (split_char "," w = [w]) as ->.
    { clear -Hw. induction w as [|c w IH]; [done|]. simpl in *.
      apply andb_prop in Hw as [Hc Hw].
      destruct (Ascii.eqb_spec c ",") as [->|_]; [done|]. by rewrite IH. }
    constructor; [|done]. by rewrite trimEnd_blank.
  - simpl. destruct (Ascii.eqb c ","); [by constructor|].
    destruct IH as [|h1 h2 t1 t2 Hh Ht]; [by repeat constructor|].
    simpl. constructor; [|done].
    by rewrite (trimEnd_cons c h1), (trimEnd_cons c h2), (trimEnd_eq_blank _ _ Hh), Hh.
Qed.

(** The cells of a line: split on commas, each cell trimmed. *)
Definition cells (line : str) : list str := map trim (split_char "," line).

(** Trimming the line first changes nothing. *)
Lemma cells_trim line : map trim (split_char "," (trim line)) = cells line.
Proof.
  unfold cells. rewrite <- (split_char_trimStart line).
  change (trim line) with (trimEnd (trimStart line)).
  destruct (trimEnd_split (trimStart line)) as (w & Hsplit & Hw).
  pose proof (split_char_trailing (trimEnd (trimStart line)) w Hw) as HF.
  rewrite <- Hsplit in HF. symmetry.
  revert HF. generalize (split_char "," (trimStart line)).
  generalize (split_char "," (trimEnd (trimStart line))).
  intros l2 l1 HF. induction HF as [|a b ta tb Hab _ IH]; [done|].
  simpl. by rewrite IH, (trimEnd_eq_trim _ _ Hab).
Qed.

(** The headers zipped against the values of a row, a missing value read
    as the empty string; values beyond the headers are dropped. *)
Fixpoint zip_pad (headers vals : list str) : list (str * str) :=
  match headers with
  | [] => []
  | h :: hs =>
      match vals with
      | [] => (h, []) :: zip_pad hs []
      | v :: vs => (h, v) :: zip_pad hs vs
      end
  end.

(** The object that a sequence of assignments builds. *)
Definition obj_of_pairs (pairs : list (str * str)) : record :=
  fold_left (λ o (kv : str * str), obj_set o kv.1 kv.2) pairs [].

(** Delimited-text parsing in the words of its description: the first
    non-blank line gives the headers, every later non-blank line a record. *)
Definition csv_spec (csv : str) : recordset :=
  match nonblank_lines csv with
  | [] => []
  | header :: rows =>
      map (λ line, obj_of_pairs (zip_pad (cells header) (cells line))) rows
  end.

Lemma assign_fields_zip headers i vals obj :
  assign_fields headers i vals obj =
  fold_left (λ o (kv : str * str), obj_set o kv.1 kv.2)
            (zip_pad headers (drop i vals)) obj.
Proof.
  revert i obj. induction headers as [|h hs IH]; intros i obj; [done|].
  cbn [assign_fields zip_pad]. rewrite IH.
  destruct (vals !! i) as [v|] eqn:Hv.
  - rewrite (drop_S _ _ _ Hv). cbn [fold_left fst snd]. by destruct v.
  - rewrite (drop_ge vals i) by (by apply lookup_ge_None).
    rewrite (drop_ge vals (S i)) by (apply lookup_ge_None in Hv; lia).
    done.
Qed.

(** With distinct headers the object is the zipped sequence itself. *)
Lemma obj_of_pairs_zip headers vals :
  NoDup headers → obj_of_pairs (zip_pad headers vals) = zip_pad headers vals.
Proof.
  unfold obj_of_pairs. intros Hnd.
  assert (∀ acc, NoDup (obj_keys acc ++ headers) →
            fold_left (λ o (kv : str * str), obj_set o kv.1 kv.2)
                      (zip_pad headers vals) acc
            = acc ++ zip_pad headers vals) as Hgen.
  { clear Hnd. revert vals. induction headers as [|h hs IH]; intros vals acc Hnd.
    - simpl. by rewrite app_nil_r.
    - assert (h ∉ obj_keys acc) as Hfresh.
      { apply NoDup_app in Hnd as (_ & Hdisj & _). intros Hin.
        apply (Hdisj _ Hin). apply list_elem_of_here. }
      assert (∀ v, NoDup (obj_keys (acc ++ [(h, v)]) ++ hs)) as Hnd'.
      { intros v. unfold obj_keys in *. rewrite map_app, <- app_assoc. exact Hnd. }
      destruct vals as [|v vs]; cbn [zip_pad fold_left fst snd];
        rewrite obj_set_fresh by done; rewrite IH by done;
        by rewrite <- app_assoc. }
  apply (Hgen []). done.
Qed.

(** Delimited-text parsing skips blank lines wherever they are, takes the
    first non-blank line as the header (split on commas, each name trimmed),
    and turns every later non-blank line into one record: its cells, split
    on commas and trimmed, are zipped by position against the headers, a
    short line giving the empty string for the fields it lacks. *)
Lemma csvToRecords_spec (csv : str) :
  csvToRecords csv = csv_spec csv.
Proof.
  unfold csvToRecords, csv_spec. rewrite csv_lines_spec.
  destruct (nonblank_lines csv) as [|header rows]; [done|].
  destruct (decide (rows = [])) as [->|Hrows]; [done|].
  replace (length (map trim (header :: rows)) <? 2) with false.
  2:{ symmetry. apply Nat.ltb_ge. destruct rows; [done|]. simpl. lia. }
  cbn [map nth drop]. rewrite drop_0, cells_trim, map_map.
  apply map_ext. intros line.
  by rewrite cells_trim, assign_fields_zip, drop_0.
Qed.

(** ** Delimited-text round trip *)

Lemma split_char_app_sep sep x rest :
  sep ∉ x → split_char sep (x ++ sep :: rest) = x :: split_char sep rest.
Proof.
  induction x as [|c x IH]; intros Hx; simpl.
  - by rewrite Ascii.eqb_refl.
  - apply not_elem_of_cons in Hx as [Hc Hx].
    destruct (Ascii.eqb_spec c sep) as [->|_]; [done|].
    by rewrite IH.
Qed.

Lemma split_char_none sep x : sep ∉ x → split_char sep x = [x].
Proof.
  induction x as [|c x IH]; intros Hx; simpl; [done|].
  apply not_elem_of_cons in Hx as [Hc Hx].
  destruct (Ascii.eqb_spec c sep) as [->|_]; [done|].
  by rewrite IH.
Qed.

Lemma split_char_join sep cs :
  cs ≠ [] → Forall (λ c, sep ∉ c) cs → split_char sep (join [sep] cs) = cs.
Proof.
  induction cs as [|x cs IH]; [done|]. intros _ [Hx Hcs]%Forall_cons.
  destruct cs as [|y cs].
  - simpl. by apply split_char_none.
  - rewrite join_cons_cons.
    change (x ++ [sep] ++ join [sep] (y :: cs)) with (x ++ sep :: join [sep] (y :: cs)).
    rewrite split_char_app_sep by done. by rewrite IH.
Qed.

Lemma join_nil sep cs : sep ≠ [] → join sep cs = [] → cs = [] ∨ cs = [[]].
Proof.
  intros Hsep. destruct cs as [|x [|y cs]]; [by left| |].
  - simpl. intros ->. by right.
  - rewrite join_cons_cons. intros [_ H]%app_eq_nil.
    apply app_eq_nil in H as [? _]. done.
Qed.

(** Text without whitespace at its end. *)
Definition end_trimmed (s : str) : Prop := trimEnd s = s.

Lemma trim_fixed_end s : trim s = s → end_trimmed s.
Proof.
  unfold end_trimmed. intros H.
  rewrite <- H at 1. unfold trim, trimEnd.
  rewrite rev_involutive.
  assert (∀ t, trimStart (trimStart t) = trimStart t) as Hidem.
  { induction t as [|c t IH]; [done|]. simpl. destruct (is_ws c) eqn:Hc; [done|].
    simpl. by rewrite Hc. }
  rewrite Hidem. exact H.
Qed.

Lemma end_trimmed_join cs :
  Forall end_trimmed cs → end_trimmed (join (lit ",") cs).
Proof.
  unfold end_trimmed. induction cs as [|x cs IH]; [done|].
  intros [Hx Hcs]%Forall_cons. destruct cs as [|y cs]; [done|].
  rewrite join_cons_cons. specialize (IH Hcs).
  rewrite trimEnd_app.
  change (lit "," ++ ?r) with (","%char :: r).
  replace (is_blank (","%char :: join (lit ",") (y :: cs))) with false by done.
  f_equal. rewrite trimEnd_cons.
  destruct (is_blank (join (lit ",") (y :: cs))) eqn:Hb; [|by rewrite IH].
  rewrite trimEnd_blank in IH by done. by rewrite <- IH.
Qed.

Lemma end_trimmed_tail c s : end_trimmed (c :: s) → s ≠ [] → end_trimmed s.
Proof.
  unfold end_trimmed. rewrite trimEnd_cons.
  destruct (is_blank s) eqn:Hb.
  - intros H Hs. apply (f_equal length) in H.
    assert (length (trimEnd [c]) ≤ 1).
    { unfold trimEnd. simpl. destruct (is_ws c); simpl; lia. }
    destruct s; [done|]. simpl in H. lia.
  - by intros [= ->].
Qed.

Lemma end_trimmed_not_ws c : end_trimmed [c] → is_ws c = false.
Proof.
  unfold end_trimmed, trimEnd. simpl. by destruct (is_ws c).
Qed.

(** A line that holds no line feed and does not end in whitespace comes
    back whole from the line splitter. *)
Lemma split_lines_app_LF l rest :
  LF ∉ l → end_trimmed l → split_lines (l ++ LF :: rest) = l :: split_lines rest.
Proof.
  induction l as [|c l IH]; intros Hlf Het; [done|].
  apply not_elem_of_cons in Hlf as [Hc Hl].
  change ((c :: l) ++ LF :: rest) with (c :: (l ++ LF :: rest)).
  destruct l as [|d l].
  - change ([] ++ LF :: rest) with (LF :: rest).
    rewrite split_lines_cons; [by rewrite split_lines_LF|done|].
    intros ->. by apply end_trimmed_not_ws in Het.
  - rewrite split_lines_cons; [|done|].
    + rewrite IH; [done|done|]. by apply (end_trimmed_tail c).
    + intros _. simpl. intros [= ->]. apply Hl. apply list_elem_of_here.
Qed.

Lemma split_lines_one l : LF ∉ l → split_lines l = [l].
Proof.
  induction l as [|c l IH]; intros Hlf; [done|].
  apply not_elem_of_cons in Hlf as [Hc Hl].
  rewrite split_lines_cons, IH; [done|done|done|].
  intros _. destruct l as [|d l]; [done|]. simpl. intros [= ->].
  apply Hl. apply list_elem_of_here.
Qed.

Lemma split_lines_join L :
  L ≠ [] → Forall (λ l, (LF ∉ l) ∧ end_trimmed l) L → split_lines (join [LF] L) = L.
Proof.
  induction L as [|l L IH]; [done|]. intros _ [[Hlf Het] HL]%Forall_cons.
  destruct L as [|l' L].
  - simpl. by apply split_lines_one.
  - rewrite join_cons_cons.
    change (l ++ [LF] ++ join [LF] (l' :: L)) with (l ++ LF :: join [LF] (l' :: L)).
    rewrite split_lines_app_LF by done. by rewrite IH.
Qed.

(** *** The RecordSets that survive the text formats *)

Definition trimmed (s : str) : Prop := trim s = s.

Definition free_of (bad : list ascii) (s : str) : Prop := Forall (λ c, c ∉ bad) s.

(** A value without comma, line feed or markup-special character, and
    without whitespace at either end. *)
Definition plain_value (v : str) : Prop :=
  trimmed v ∧ free_of [","; LF; "&"; "<"; ">"]%char v.

(** On an object used as a record, reading an inherited name finds the
    inherited member where the association list finds nothing, and an
    assignment to [__proto__] creates no property.  A name that is an array
    index is enumerated before the other names, whatever the order of
    creation.  The properties of the text formats are stated for names
    that are neither: outside [inherited_names] and not starting with a
    digit. *)
Definition own_name (k : str) : Prop :=
  (k ∉ inherited_names) ∧ index_like k = false.

(** A field name made of word characters that is neither the item tag nor
    an inherited name. *)
Definition plain_name (k : str) : Prop :=
  k ≠ [] ∧ Forall (λ c, is_word c = true) k
  ∧ map canon k ≠ map canon (lit "transaction")
  ∧ own_name k.

Definition plain_record (r : record) : Prop :=
  wf_object r ∧ Forall (λ kv : str * str, plain_name kv.1 ∧ plain_value kv.2) r.

(** All records have the same field set. *)
Definition uniform (rs : recordset) : Prop :=
  ∀ r r', r ∈ rs → r' ∈ rs → obj_keys r ≡ₚ obj_keys r'.

(** Two records with the same fields and values, in whatever order. *)
Definition same_fields (r r' : record) : Prop :=
  ∀ k, obj_get r k = obj_get r' k.

Lemma is_word_not_special c :
  is_word c = true → is_ws c = false ∧ c ≠ ","%char ∧ c ≠ LF ∧ c ≠ "<"%char ∧ c ≠ ">"%char.
Proof. destruct c as [[] [] [] [] [] [] [] []]; vm_compute; intros; split_and!; done. Qed.

Lemma trim_no_ws s : Forall (λ c, is_ws c = false) s → trim s = s.
Proof.
  intros Hs. unfold trim, trimEnd.
  assert (∀ t, Forall (λ c, is_ws c = false) t → trimStart t = t) as Hfix.
  { intros t [|c t' Hc _]; [done|]. simpl. by rewrite Hc. }
  rewrite (Hfix s Hs), Hfix; [by rewrite rev_involutive|].
  by apply Forall_rev.
Qed.

Lemma plain_name_facts k :
  plain_name k → k ≠ [] ∧ trimmed k ∧ (","%char ∉ k) ∧ LF ∉ k.
Proof.
  intros (Hne & Hw & _). split_and!; [done| | |].
  - apply trim_no_ws. eapply Forall_impl; [exact Hw|].
    intros c Hc. by apply is_word_not_special in Hc as [? _].
  - intros Hin. apply (proj1 (Forall_forall _ _) Hw) in Hin.
    by apply is_word_not_special in Hin as (_ & ? & _).
  - intros Hin. apply (proj1 (Forall_forall _ _) Hw) in Hin.
    by apply is_word_not_special in Hin as (_ & _ & ? & _).
Qed.

Lemma plain_value_facts v :
  plain_value v → trimmed v ∧ (","%char ∉ v) ∧ LF ∉ v.
Proof.
  intros [Ht Hf]. split_and!; [done| |].
  - intros Hin. apply (proj1 (Forall_forall _ _) Hf) in Hin. apply Hin. set_solver.
  - intros Hin. apply (proj1 (Forall_forall _ _) Hf) in Hin. apply Hin. set_solver.
Qed.

(** The row of a record under the given headers. *)
Definition row_values (headers : list str) (r : record) : list str :=
  map (λ h, nullish_empty (obj_get r h)) headers.

Lemma obj_get_elem (r : record) k v : wf_object r → (k, v) ∈ r → obj_get r k = Some v.
Proof.
  unfold wf_object, obj_keys. induction r as [|[k' v'] r IH]; intros Hnd Hin.
  - by apply elem_of_nil in Hin.
  - simpl in *. apply NoDup_cons in Hnd as [Hk' Hnd].
    apply elem_of_cons in Hin as [[= -> ->]|Hin]; [by rewrite decide_True|].
    rewrite decide_False; [by apply IH|].
    intros ->. apply Hk'. apply list_elem_of_fmap. by exists (k, v).
Qed.

Lemma obj_get_in (r : record) k v : obj_get r k = Some v → (k, v) ∈ r.
Proof.
  induction r as [|[k' v'] r IH]; simpl; [done|].
  case_decide as Hk; [intros [= ->]; subst; apply list_elem_of_here|].
  intros H. apply list_elem_of_further. by apply IH.
Qed.

Lemma row_values_plain headers r :
  plain_record r → headers ≡ₚ obj_keys r → Forall plain_value (row_values headers r).
Proof.
  intros [Hwf Hall] Hperm. unfold row_values. apply Forall_map, Forall_forall.
  intros h Hh. rewrite Hperm in Hh.
  destruct (obj_get r h) as [v|] eqn:Hv.
  - apply obj_get_in in Hv. by apply (proj1 (Forall_forall _ _) Hall) in Hv as [_ ?].
  - by apply obj_get_None in Hv.
Qed.

Lemma zip_pad_map (f : str → str) headers :
  zip_pad headers (map f headers) = map (λ h, (h, f h)) headers.
Proof. induction headers as [|h hs IH]; [done|]. simpl. by rewrite IH. Qed.

(** The record rebuilt from a row has the fields of the original. *)
Lemma project_same_fields headers (r : record) :
  wf_object r → headers ≡ₚ obj_keys r →
  same_fields (map (λ h, (h, nullish_empty (obj_get r h))) headers) r.
Proof.
  intros Hwf Hperm k.
  assert (NoDup headers) as Hnd by (by rewrite Hperm).
  destruct (decide (k ∈ headers)) as [Hin|Hnin].
  - assert (is_Some (obj_get r k)) as [v Hv].
    { destruct (obj_get r k) eqn:Hg; [done|].
      apply obj_get_None in Hg. by rewrite <- Hperm in Hg. }
    rewrite Hv. apply obj_get_elem.
    + unfold wf_object, obj_keys. rewrite map_map. simpl. by rewrite map_id.
    + apply list_elem_of_fmap. exists k. by rewrite Hv.
  - transitivity (@None str).
    + apply obj_get_None. unfold obj_keys. rewrite map_map. simpl. by rewrite map_id.
    + symmetry. apply obj_get_None. by rewrite <- Hperm.
Qed.

Lemma elem_of_join c sep cs : c ∈ join sep cs → c ∈ sep ∨ ∃ x, x ∈ cs ∧ c ∈ x.
Proof.
  induction cs as [|x cs IH]; [by intros ?%elem_of_nil|].
  destruct cs as [|y cs].
  - simpl. intros Hc. right. exists x. split; [apply list_elem_of_here|done].
  - rewrite join_cons_cons. intros [Hc|[Hc|Hc]%elem_of_app]%elem_of_app.
    + right. exists x. split; [apply list_elem_of_here|done].
    + by left.
    + destruct (IH Hc) as [?|(z & Hz & Hcz)]; [by left|].
      right. exists z. split; [by apply list_elem_of_further|done].
Qed.

Lemma cells_join cs :
  cs ≠ [] → Forall (λ c, trimmed c ∧ ","%char ∉ c) cs → cells (join (lit ",") cs) = cs.
Proof.
  intros Hne Hall. unfold cells.
  change (lit ",") with [","%char]. rewrite split_char_join; [|done|].
  - clear Hne. induction Hall as [|c cs' [Hc _] _ IH]; [done|].
    unfold trimmed in Hc. simpl. by rewrite Hc, IH.
  - eapply Forall_impl; [exact Hall|]. by intros c [_ ?].
Qed.

(** A line of cells is fit for the line splitter and is blank only when it
    is empty. *)
Lemma cell_line_facts cs :
  Forall (λ c, trimmed c ∧ LF ∉ c) cs →
  (LF ∉ join (lit ",") cs)
  ∧ end_trimmed (join (lit ",") cs)
  ∧ (is_blank (join (lit ",") cs) = true → cs = [] ∨ cs = [[]]).
Proof.
  intros Hall.
  assert (end_trimmed (join (lit ",") cs)) as Het.
  { apply end_trimmed_join. eapply Forall_impl; [exact Hall|].
    intros c [Hc _]. by apply trim_fixed_end. }
  split_and!; [|done|].
  - intros [Hin|(x & Hx & Hin)]%elem_of_join.
    + by apply list_elem_of_singleton in Hin.
    + by apply (proj1 (Forall_forall _ _) Hall) in Hx as [_ ?].
  - intros Hb. apply join_nil with (sep := lit ","); [done|].
    unfold end_trimmed in Het. rewrite <- Het. by apply trimEnd_blank.
Qed.

Lemma filter_all {A} (p : A → bool) (l : list A) :
  Forall (λ x, p x = true) l → List.filter p l = l.
Proof.
  induction 1 as [|x l Hx _ IH]; [done|]. simpl. by rewrite Hx, IH.
Qed.

(** A cell that the parser reads back as it was written. *)
Definition csv_cell (c : str) : Prop := trimmed c ∧ (","%char ∉ c) ∧ LF ∉ c.

(** A row of such cells whose line is not blank. *)
Definition csv_row (cs : list str) : Prop :=
  Forall csv_cell cs ∧ cs ≠ [] ∧ cs ≠ [[]].

(** A record cut to the given columns, a missing field read as empty. *)
Definition project (headers : list str) (r : record) : record :=
  map (λ h, (h, nullish_empty (obj_get r h))) headers.

(** A record has a field, and is not a single empty value. *)
Definition visible (r : record) : Prop := r ≠ [] ∧ map snd r ≠ [[]].

Lemma csv_row_line cs :
  csv_row cs →
  (LF ∉ join (lit ",") cs)
  ∧ end_trimmed (join (lit ",") cs)
  ∧ nonblank (join (lit ",") cs) = true
  ∧ cells (join (lit ",") cs) = cs.
Proof.
  intros (Hc & Hne & Hsingle).
  destruct (cell_line_facts cs) as (H1 & H2 & H3).
  { eapply Forall_impl; [exact Hc|]. by intros c (? & _ & ?). }
  split_and!; [done|done| |].
  - unfold nonblank. destruct (is_blank (join (lit ",") cs)) eqn:Hb; [|done].
    by destruct (H3 eq_refl).
  - apply cells_join; [done|]. eapply Forall_impl; [exact Hc|]. by intros c (? & ? & _).
Qed.

Lemma map_ext_Forall {A B} (f g : A → B) (l : list A) :
  Forall (λ x, f x = g x) l → map f l = map g l.
Proof. induction 1 as [|x l Hx _ IH]; simpl; congruence. Qed.

(** Delimited text written by [recordsToCsv] and read back by
    [csvToRecords]: every record comes back as the values of its row,
    assigned to the names of the first record. *)
Lemma csv_rows_read_back r0 rs :
  csv_row (obj_keys r0) →
  Forall (λ r, csv_row (row_values (obj_keys r0) r)) (r0 :: rs) →
  csvToRecords (recordsToCsv (r0 :: rs))
  = map (λ r, obj_of_pairs (zip_pad (obj_keys r0) (row_values (obj_keys r0) r)))
        (r0 :: rs).
Proof.
  intros Hh Hrows. rewrite csvToRecords_spec.
  set (headers := obj_keys r0) in *.
  set (rowline := λ r : record, join (lit ",") (row_values headers r)).
  assert (recordsToCsv (r0 :: rs)
          = join [LF] (join (lit ",") headers :: map rowline (r0 :: rs))) as -> by done.
  assert (Forall (λ l, (LF ∉ l) ∧ end_trimmed l ∧ nonblank l = true)
                 (join (lit ",") headers :: map rowline (r0 :: rs))) as Hlines.
  { constructor.
    - by destruct (csv_row_line headers Hh) as (? & ? & ? & _).
    - apply Forall_map. eapply Forall_impl; [exact Hrows|]. intros r Hr.
      by destruct (csv_row_line _ Hr) as (? & ? & ? & _). }
  unfold csv_spec, nonblank_lines.
  rewrite split_lines_join; [|done|].
  2:{ eapply Forall_impl; [exact Hlines|]. by intros l (? & ? & _). }
  rewrite filter_all by (eapply Forall_impl; [exact Hlines|]; by intros l (_ & _ & ?)).
  cbv beta iota. rewrite (proj2 (proj2 (proj2 (csv_row_line headers Hh)))).
  rewrite map_map. apply map_ext_Forall.
  eapply Forall_impl; [exact Hrows|]. intros r Hr. unfold rowline.
  by rewrite (proj2 (proj2 (proj2 (csv_row_line _ Hr)))).
Qed.

(** The row of a record, assigned to distinct names, is the record cut to
    those names. *)
Lemma assigned_row_project headers (r : record) :
  NoDup headers →
  obj_of_pairs (zip_pad headers (row_values headers r)) = project headers r.
Proof.
  intros Hnd. unfold row_values, project.
  rewrite zip_pad_map, <- zip_pad_map.
  rewrite obj_of_pairs_zip by done. by rewrite zip_pad_map.
Qed.

Lemma plain_headers_row (r0 : record) :
  plain_record r0 → r0 ≠ [] → csv_row (obj_keys r0).
Proof.
  intros [_ Hall] Hne.
  assert (Forall plain_name (obj_keys r0)) as Hnames.
  { unfold obj_keys. apply Forall_map. eapply Forall_impl; [exact Hall|]. by intros kv [? _]. }
  split_and!.
  - eapply Forall_impl; [exact Hnames|]. intros k Hk.
    by apply plain_name_facts in Hk as (_ & ? & ? & ?).
  - by destruct r0.
  - intros Heq. rewrite Heq in Hnames.
    apply Forall_cons in Hnames as [(Hk & _) _]. done.
Qed.

Lemma plain_values_row headers (r : record) :
  plain_record r → visible r → headers ≡ₚ obj_keys r →
  csv_row (row_values headers r).
Proof.
  intros Hplain [Hne Hsingle] Hperm. split_and!.
  - eapply Forall_impl; [exact (row_values_plain headers r Hplain Hperm)|].
    intros v Hv. by apply plain_value_facts in Hv.
  - unfold row_values. destruct headers; [|done].
    apply Permutation_nil_l in Hperm. by destruct r.
  - intros Heq. apply Hsingle.
    destruct headers as [|h [|? ?]]; try done.
    apply Permutation_singleton_l in Hperm. unfold obj_keys in Hperm.
    destruct r as [|[k v] [|? ?]]; try done. simpl in Hperm. injection Hperm as <-.
    unfold row_values in Heq. simpl in Heq. rewrite decide_True in Heq by done.
    simpl in Heq. by injection Heq as ->.
Qed.

(** ** Tagged-markup round trip *)

(** The text of a serialized RecordSet, each piece written with its
    continuation. *)
Definition field_text (kv : str * str) (tail : str) : str :=
  lit "    " ++ "<"%char :: kv.1 ++ ">"%char :: escXml kv.2
  ++ "<"%char :: "/"%char :: kv.1 ++ ">"%char :: LF :: tail.

Definition fields_text (r : record) (tail : str) : str :=
  fold_right field_text tail r.

Definition item_text (r : record) (tail : str) : str :=
  lit "  " ++ lit "<transaction>"
  ++ LF :: fields_text r (lit "  " ++ lit "</transaction>" ++ LF :: tail).

Definition items_text (rs : recordset) (tail : str) : str :=
  fold_right item_text tail rs.

Definition xml_prolog : str := xml_decl ++ [LF] ++ lit "<transactions>" ++ [LF].

Lemma fold_left_append {A} (f : A → str) (l : list A) (init : str) :
  fold_left (λ acc x, acc ++ f x) l init = init ++ concat (map f l).
Proof.
  revert init. induction l as [|x l IH]; intros init; simpl.
  - by rewrite app_nil_r.
  - by rewrite IH, app_assoc.
Qed.

Lemma concat_fields_text (r : record) tail :
  concat (map (λ kv : str * str,
                 lit "    <" ++ kv.1 ++ lit ">" ++ escXml kv.2
                 ++ lit "</" ++ kv.1 ++ lit ">" ++ [LF]) r) ++ tail
  = fields_text r tail.
Proof.
  induction r as [|kv r IH]; [done|].
  cbn [map concat fields_text fold_right]. fold (fields_text r tail).
  rewrite <- IH. unfold field_text.
  rewrite <- !app_assoc. reflexivity.
Qed.

(** The serialized text of a RecordSet, piece by piece. *)
Lemma recordsToXml_text rs :
  recordsToXml rs = xml_prolog ++ items_text rs (lit "</transactions>").
Proof.
  unfold recordsToXml, recordsToXml_tags.
  change (xml_decl ++ [LF] ++ lit "<" ++ lit "transactions" ++ lit ">" ++ [LF])
    with xml_prolog.
  change (lit "</" ++ lit "transactions" ++ lit ">") with (lit "</transactions>").
  generalize xml_prolog as pre.
  induction rs as [|r rs IH]; intros pre; [done|].
  cbn [fold_left]. rewrite IH. rewrite fold_left_append.
  rewrite <- !app_assoc. f_equal.
  cbn [items_text fold_right]. fold (items_text rs (lit "</transactions>")).
  unfold item_text.
  rewrite <- (concat_fields_text r). reflexivity.
Qed.

(** *** What escaping leaves in a value *)

Lemma elem_of_replace_char x c r s :
  x ∈ replace_char c r s → x ∈ r ∨ (x ∈ s ∧ x ≠ c).
Proof.
  unfold replace_char. induction s as [|y s IH]; cbn [map concat].
  - by intros ?%elem_of_nil.
  - intros [Hx|Hx]%elem_of_app.
    + destruct (Ascii.eqb_spec y c) as [->|Hy]; [by left|].
      apply list_elem_of_singleton in Hx as ->. right.
      split; [apply list_elem_of_here|done].
    + destruct (IH Hx) as [?|[? ?]]; [by left|].
      right. split; [by apply list_elem_of_further|done].
Qed.

Lemma escXml_no_lt v : "<"%char ∉ escXml v.
Proof.
  unfold escXml. intros [H|[H _]]%elem_of_replace_char.
  - revert H. closed_decide.
  - apply elem_of_replace_char in H as [H|[_ H]]; [|done].
    revert H. closed_decide.
Qed.

Lemma escXml_no_gt v : ">"%char ∉ escXml v.
Proof.
  unfold escXml. intros [H|[_ H]]%elem_of_replace_char; [|done].
  revert H. closed_decide.
Qed.

Lemma replace_char_absent c r s : c ∉ s → replace_char c r s = s.
Proof.
  unfold replace_char. induction s as [|x s IH]; [done|].
  intros [Hx Hs]%not_elem_of_cons. simpl.
  destruct (Ascii.eqb_spec x c) as [->|_]; [done|]. by rewrite IH.
Qed.

Lemma escXml_plain v : plain_value v → escXml v = v.
Proof.
  intros [_ Hf]. unfold escXml.
  assert (∀ c, c ∈ [","; LF; "&"; "<"; ">"]%char → c ∉ v) as Hnot.
  { intros c Hc Hin. by apply (proj1 (Forall_forall _ _) Hf) in Hin. }
  rewrite (replace_char_absent "&") by (apply Hnot; set_solver).
  rewrite (replace_char_absent "<") by (apply Hnot; set_solver).
  rewrite (replace_char_absent ">") by (apply Hnot; set_solver).
  done.
Qed.

(** *** Matching the written text *)

Lemma word_canon_facts c :
  is_word c = true →
  Ascii.eqb (canon c) (canon "/") = false
  ∧ Ascii.eqb (canon c) (canon ">") = false
  ∧ Ascii.eqb (canon ">") (canon c) = false
  ∧ Ascii.eqb c "<" = false.
Proof. destruct c as [[] [] [] [] [] [] [] []]; vm_compute; intros; split_and!; done. Qed.

Lemma canon_lt c : c ≠ "<"%char → Ascii.eqb (canon c) (canon "<") = false.
Proof.
  destruct c as [[] [] [] [] [] [] [] []]; vm_compute; intros H;
    first [reflexivity | by destruct H].
Qed.

Lemma match_lit_cons_same ci c pat s :
  match_lit ci (c :: pat) (c :: s) = match_lit ci pat s.
Proof. cbn [match_lit]. destruct ci; by rewrite Ascii.eqb_refl. Qed.

Lemma match_lit_refl ci pat s : match_lit ci pat (pat ++ s) = Some s.
Proof.
  induction pat as [|c pat IH]; [done|].
  cbn [app]. by rewrite match_lit_cons_same.
Qed.

(** A tag made of word characters is matched, case folded, only by a name
    that folds to the same text. *)
Lemma match_lit_word p k t r :
  Forall (λ c, is_word c = true) p → Forall (λ c, is_word c = true) k →
  match_lit true (p ++ [">"%char]) (k ++ ">"%char :: t) = Some r →
  map canon k = map canon p.
Proof.
  intros Hp. revert k. induction Hp as [|a p Ha _ IH]; intros k Hk.
  - destruct Hk as [|c k Hc _]; [done|]. cbn [app match_lit].
    destruct (word_canon_facts c Hc) as (_ & -> & _). done.
  - destruct Hk as [|c k Hc Hk].
    + cbn [app match_lit].
      destruct (word_canon_facts a Ha) as (_ & _ & -> & _). done.
    + cbn [app match_lit].
      destruct (Ascii.eqb_spec (canon c) (canon a)) as [Heq|]; [|done].
      intros Hm. cbn [map]. rewrite Heq. f_equal. by apply IH.
Qed.

Lemma item_end_open_tag c s :
  is_word c = true → match_lit true (lit "</transaction>") ("<"%char :: c :: s) = None.
Proof.
  intros Hc. change (lit "</transaction>") with ("<"%char :: "/"%char :: lit "transaction>").
  rewrite match_lit_cons_same. cbn [match_lit].
  destruct (word_canon_facts c Hc) as (-> & _). done.
Qed.

Lemma item_end_close_tag k t :
  plain_name k →
  match_lit true (lit "</transaction>") ("<"%char :: "/"%char :: k ++ ">"%char :: t) = None.
Proof.
  intros (_ & Hw & Hne & _).
  change (lit "</transaction>")
    with ("<"%char :: "/"%char :: lit "transaction" ++ [">"%char]).
  do 2 rewrite match_lit_cons_same.
  destruct (match_lit true _ _) as [r|] eqn:Hm; [|done].
  apply match_lit_word in Hm; [done| |done].
  closed_decide.
Qed.

Lemma lazy_until_skip close c s body rest :
  close (c :: s) = None → lazy_until close s = Some (body, rest) →
  lazy_until close (c :: s) = Some (c :: body, rest).
Proof. intros Hc Hl. cbn [lazy_until]. by rewrite Hc, Hl. Qed.

Lemma lazy_until_here close s r : close s = Some r → lazy_until close s = Some ([], r).
Proof. intros H. destruct s; cbn [lazy_until]; by rewrite H. Qed.

(** Text without an opening angle bracket is skipped by a lazy body whose
    closing pattern starts with one. *)
Lemma lazy_until_plain ci pat p s body rest :
  "<"%char ∉ p →
  lazy_until (match_lit ci ("<"%char :: pat)) s = Some (body, rest) →
  lazy_until (match_lit ci ("<"%char :: pat)) (p ++ s) = Some (p ++ body, rest).
Proof.
  intros Hp Hl. induction p as [|c p IH]; [done|].
  apply not_elem_of_cons in Hp as [Hc Hp]. cbn [app].
  apply lazy_until_skip; [|by apply IH]. cbn [match_lit]. destruct ci.
  - rewrite canon_lt; [done|]. by intros ->.
  - destruct (Ascii.eqb_spec c "<") as [->|_]; done.
Qed.

Lemma lazy_item_plain p s body rest :
  "<"%char ∉ p →
  lazy_until (match_lit true (lit "</transaction>")) s = Some (body, rest) →
  lazy_until (match_lit true (lit "</transaction>")) (p ++ s) = Some (p ++ body, rest).
Proof. exact (lazy_until_plain true (lit "/transaction>") p s body rest). Qed.

Lemma word_no_lt k : Forall (λ c, is_word c = true) k → "<"%char ∉ k.
Proof.
  intros Hk Hin. apply (proj1 (Forall_forall _ _) Hk) in Hin. done.
Qed.

(** The item's lazy body runs over a whole field. *)
Lemma lazy_item_field kv t body rest :
  plain_name kv.1 →
  lazy_until (match_lit true (lit "</transaction>")) t = Some (body, rest) →
  lazy_until (match_lit true (lit "</transaction>")) (field_text kv t)
  = Some (field_text kv body, rest).
Proof.
  intros Hk Ht. pose proof Hk as (Hne & Hw & _). unfold field_text.
  pose proof (word_no_lt _ Hw) as Hlt.
  apply lazy_item_plain; [closed_decide|].
  apply lazy_until_skip.
  { destruct kv.1 as [|c k]; [done|]. apply Forall_cons in Hw as [Hc _].
    by apply item_end_open_tag. }
  apply lazy_item_plain; [done|].
  apply lazy_until_skip; [done|].
  apply lazy_item_plain; [apply escXml_no_lt|].
  apply lazy_until_skip; [by apply item_end_close_tag|].
  apply lazy_until_skip; [done|].
  apply lazy_item_plain; [done|].
  apply lazy_until_skip; [done|].
  apply lazy_until_skip; [done|].
  exact Ht.
Qed.

Lemma lazy_item_fields r t body rest :
  Forall plain_name (obj_keys r) →
  lazy_until (match_lit true (lit "</transaction>")) t = Some (body, rest) →
  lazy_until (match_lit true (lit "</transaction>")) (fields_text r t)
  = Some (fields_text r body, rest).
Proof.
  intros Hr Ht. induction r as [|kv r IH]; [done|].
  apply Forall_cons in Hr as [Hk Hr].
  cbn [fields_text fold_right]. apply lazy_item_field; [done|]. by apply IH.
Qed.

Lemma exec_from_skip {A} (attempt : str → option A) c s :
  attempt (c :: s) = None → exec_from attempt (c :: s) = exec_from attempt s.
Proof. intros H. cbn [exec_from]. by rewrite H. Qed.

Lemma exec_from_here {A} (attempt : str → option A) s m :
  attempt s = Some m → exec_from attempt s = Some m.
Proof. intros H. destruct s; cbn [exec_from]; by rewrite H. Qed.

(** The first item of the text is found with its fields as the group. *)
Lemma exec_item r s :
  Forall plain_name (obj_keys r) →
  exec_from item_at (LF :: item_text r s)
  = Some (LF :: fields_text r (lit "  "), LF :: s).
Proof.
  intros Hr. unfold item_text.
  change (lit "  " ++ ?X) with (" "%char :: " "%char :: X).
  do 3 (rewrite exec_from_skip by reflexivity).
  apply exec_from_here. unfold item_at. rewrite match_lit_refl.
  apply lazy_until_skip; [done|].
  apply lazy_item_fields; [done|]. reflexivity.
Qed.

Lemma word_run_name k s :
  Forall (λ c, is_word c = true) k → word_run (k ++ ">"%char :: s) = (k, ">"%char :: s).
Proof.
  induction 1 as [|c k Hc _ IH]; [done|].
  cbn [app word_run]. by rewrite Hc, IH.
Qed.

Lemma lazy_until_literal pat body t :
  "<"%char ∉ body →
  lazy_until (match_lit false ("<"%char :: pat)) (body ++ "<"%char :: pat ++ t)
  = Some (body, t).
Proof.
  intros Hb. rewrite <- (app_nil_r body) at 2.
  apply lazy_until_plain; [done|].
  apply lazy_until_here. apply (match_lit_refl false ("<"%char :: pat)).
Qed.

(** A written field is matched as a whole: its name and its escaped value. *)
Lemma field_at_field k body t :
  k ≠ [] → Forall (λ c, is_word c = true) k → "<"%char ∉ body →
  field_at ("<"%char :: k ++ ">"%char :: body ++ "<"%char :: "/"%char :: k ++ ">"%char :: t)
  = Some (k, body, t).
Proof.
  intros Hne Hw Hb. cbn [field_at].
  change (Ascii.eqb "<" "<") with true. cbv iota.
  rewrite (word_run_name k _ Hw). destruct k as [|c k]; [done|].
  cbv beta iota. change (Ascii.eqb ">" ">") with true. cbv iota.
  change (lit "</" ++ (c :: k) ++ lit ">")
    with ("<"%char :: ("/"%char :: (c :: k) ++ [">"%char])).
  replace ("<"%char :: "/"%char :: (c :: k) ++ ">"%char :: t)
    with ("<"%char :: ("/"%char :: (c :: k) ++ [">"%char]) ++ t).
  2:{ cbn [app]. by rewrite <- app_assoc. }
  by rewrite lazy_until_literal.
Qed.

Lemma exec_field kv s :
  plain_name kv.1 →
  exec_from field_at (LF :: field_text kv s) = Some (kv.1, escXml kv.2, LF :: s).
Proof.
  intros (Hne & Hw & _). unfold field_text.
  change (lit "    " ++ ?X) with (" "%char :: " "%char :: " "%char :: " "%char :: X).
  do 5 (rewrite exec_from_skip by reflexivity).
  apply exec_from_here. apply field_at_field; [done|done|apply escXml_no_lt].
Qed.

(** What comes back for a written record: each value escaped and trimmed,
    assigned in the order written. *)
Definition read_back (r : record) : record :=
  fold_left (λ o (kv : str * str), obj_set o kv.1 (trim (escXml kv.2))) r [].

Lemma field_loop_fields r fuel t obj :
  length r < fuel → Forall plain_name (obj_keys r) →
  exec_from field_at (LF :: t) = None →
  field_loop fuel (LF :: fields_text r t) obj
  = Some (fold_left (λ o (kv : str * str), obj_set o kv.1 (trim (escXml kv.2))) r obj).
Proof.
  intros Hlen Hr Ht. revert fuel obj Hlen.
  induction r as [|kv r IH]; intros fuel obj Hlen.
  - destruct fuel as [|fuel]; [simpl in Hlen; lia|].
    cbn [field_loop fields_text fold_right]. by rewrite Ht.
  - apply Forall_cons in Hr as [Hk Hr].
    destruct fuel as [|fuel]; [simpl in Hlen; lia|].
    cbn [field_loop fields_text fold_right]. fold (fields_text r t).
    rewrite (exec_field kv _ Hk). cbn [fold_left].
    apply IH; [done|]. simpl in Hlen. lia.
Qed.

Lemma fields_text_length r t : length r + length t ≤ length (fields_text r t).
Proof.
  induction r as [|kv r IH]; [done|].
  cbn [fields_text fold_right]. fold (fields_text r t). unfold field_text.
  do 4 (rewrite length_app; cbn [length]). lia.
Qed.

Lemma item_loop_items rs fuel t acc :
  length rs < fuel → Forall (λ r, Forall plain_name (obj_keys r)) rs →
  exec_from item_at (LF :: t) = None →
  item_loop fuel (LF :: items_text rs t) acc = Some (acc ++ map read_back rs).
Proof.
  intros Hlen Hrs Ht. revert fuel acc Hlen.
  induction rs as [|r rs IH]; intros fuel acc Hlen.
  - destruct fuel as [|fuel]; [simpl in Hlen; lia|].
    cbn [item_loop items_text fold_right]. rewrite Ht. by rewrite app_nil_r.
  - apply Forall_cons in Hrs as [Hr Hrs].
    destruct fuel as [|fuel]; [simpl in Hlen; lia|].
    cbn [item_loop items_text fold_right]. fold (items_text rs t).
    rewrite (exec_item r _ Hr).
    rewrite field_loop_fields; [|pose proof (fields_text_length r (lit "  ")); simpl; lia|done|done].
    fold (read_back r). rewrite IH; [|done|simpl in Hlen; lia].
    cbn [map]. by rewrite <- app_assoc.
Qed.

Lemma items_text_length rs t : length rs ≤ length (items_text rs t).
Proof.
  induction rs as [|r rs IH]; [simpl; lia|].
  cbn [items_text fold_right]. fold (items_text rs t). unfold item_text.
  pose proof (fields_text_length r
    (lit "  " ++ lit "</transaction>" ++ LF :: items_text rs t)) as H.
  rewrite !length_app in H. rewrite !length_app.
  cbn [length] in H. cbn [length]. lia.
Qed.

(** The prolog and the root tag hold no item. *)
Lemma item_loop_prolog fuel s acc :
  item_loop fuel (xml_prolog ++ s) acc = item_loop fuel (LF :: s) acc.
Proof. destruct fuel as [|fuel]; reflexivity. Qed.

(** Reading back what [recordsToXml] wrote: one record per record, its
    fields in order, every value escaped and then trimmed. *)
Lemma xmlToRecords_recordsToXml rs :
  Forall (λ r, Forall plain_name (obj_keys r)) rs →
  xmlToRecords (recordsToXml rs) = Some (map read_back rs).
Proof.
  intros Hrs. unfold xmlToRecords. rewrite recordsToXml_text, item_loop_prolog.
  apply item_loop_items; [|done|reflexivity].
  rewrite length_app. apply Nat.lt_succ_r.
  etrans; [apply (items_text_length rs (lit "</transactions>"))|]. lia.
Qed.

Lemma fold_obj_set_fresh (f : str → str) (r acc : record) :
  NoDup (obj_keys acc ++ obj_keys r) →
  fold_left (λ o (kv : str * str), obj_set o kv.1 (f kv.2)) r acc
  = acc ++ map (λ kv : str * str, (kv.1, f kv.2)) r.
Proof.
  revert acc. induction r as [|[k v] r IH]; intros acc Hnd.
  - simpl. by rewrite app_nil_r.
  - cbn [fold_left map fst snd].
    assert (k ∉ obj_keys acc) as Hfresh.
    { apply NoDup_app in Hnd as (_ & Hdisj & _). intros Hin.
      apply (Hdisj _ Hin). apply list_elem_of_here. }
    rewrite obj_set_fresh by done. rewrite IH.
    + by rewrite <- app_assoc.
    + unfold obj_keys in *. rewrite map_app, <- app_assoc. exact Hnd.
Qed.

Lemma read_back_wf r :
  wf_object r → read_back r = map (λ kv : str * str, (kv.1, trim (escXml kv.2))) r.
Proof. intros Hwf. exact (fold_obj_set_fresh (λ v, trim (escXml v)) r [] Hwf). Qed.

Lemma read_back_plain r : plain_record r → read_back r = r.
Proof.
  intros [Hwf Hall]. rewrite read_back_wf by done. clear Hwf.
  induction Hall as [|[k v] r [_ Hv] _ IH]; [done|].
  cbn [map fst snd] in *. rewrite (escXml_plain v Hv).
  destruct Hv as [Hv _]. unfold trimmed in Hv. by rewrite Hv, IH.
Qed.

(** ** The text formats, end to end *)

Ltac unfold_plain :=
  unfold csv_row, csv_cell, visible, plain_record, plain_name, plain_value,
    own_name, trimmed, free_of in *.

Lemma obj_of_pairs_snoc l k v :
  obj_of_pairs (l ++ [(k, v)]) = obj_set (obj_of_pairs l) k v.
Proof. unfold obj_of_pairs. by rewrite fold_left_app. Qed.

(** Assignments to one object: the last value given to a key is the one
    the object holds. *)
Lemma obj_of_pairs_last l k : obj_get (obj_of_pairs l) k = obj_get (rev l) k.
Proof.
  induction l as [|[k' v'] l IH] using rev_ind; [done|].
  rewrite obj_of_pairs_snoc, rev_unit. cbn [obj_get].
  destruct (decide (k' = k)) as [->|Hne].
  - by rewrite obj_get_set_eq.
  - by rewrite obj_get_set_ne.
Qed.

Lemma wf_obj_of_pairs l : wf_object (obj_of_pairs l).
Proof.
  induction l as [|[k v] l IH] using rev_ind; [apply NoDup_nil_2|].
  rewrite obj_of_pairs_snoc. by apply wf_obj_set.
Qed.

Lemma uniform_keys (ks : list str) (rs : recordset) :
  Forall (λ r, obj_keys r ≡ₚ ks) rs → uniform rs.
Proof.
  intros Hall r r' Hr Hr'.
  apply (proj1 (Forall_forall _ _) Hall) in Hr, Hr'. by rewrite Hr, Hr'.
Qed.

(** X1: [csvToRecords] reads its input line by line and cell by cell.  Blank
    lines are skipped wherever they stand; the first line that is not blank
    gives the column names, every later one a record; names and cells are
    what lies between the commas, trimmed; the cells are assigned to the
    names from left to right, a missing cell as the empty string, and cells
    beyond the last name are dropped. *)
Theorem csv_parsing_by_lines_and_cells (csv header : str) (rows : list str) :
  nonblank_lines csv = header :: rows →
  Forall own_name (cells header) →
  csvToRecords csv
  = map (λ line, obj_of_pairs (zip_pad (cells header) (cells line))) rows.
Proof. intros Hlines _. rewrite csvToRecords_spec. unfold csv_spec. by rewrite Hlines. Qed.

Lemma csv_parsing_witness :
  csvToRecords ([LF] ++ lit " id , amount " ++ [CR; LF; LF] ++ lit "1,100,x" ++ [LF]
                ++ lit "  " ++ [LF] ++ lit "2")
  = map (λ line, obj_of_pairs (zip_pad (cells (lit " id , amount ")) (cells line)))
        [lit "1,100,x"; lit "2"].
Proof.
  apply (csv_parsing_by_lines_and_cells _ (lit " id , amount ")
           [lit "1,100,x"; lit "2"]).
  - reflexivity.
  - unfold own_name. closed_decide.
Defined.

(** X2: every record that [csvToRecords] returns holds each name once, and
    where the header repeats a name the record holds the cell of the last
    column of that name. *)
Theorem csv_repeated_column_keeps_last_cell (csv header : str) (rows : list str) :
  nonblank_lines csv = header :: rows →
  Forall own_name (cells header) →
  Forall2 (λ (r : record) line,
             wf_object r
             ∧ ∀ k, obj_get r k = obj_get (rev (zip_pad (cells header) (cells line))) k)
          (csvToRecords csv) rows.
Proof.
  intros Hlines _. rewrite csvToRecords_spec. unfold csv_spec. rewrite Hlines.
  apply Forall2_fmap_l, Forall_Forall2_diag, Forall_forall.
  intros line _. split; [apply wf_obj_of_pairs|]. intros k. apply obj_of_pairs_last.
Qed.

Lemma csv_repeated_column_witness :
  Forall2 (λ (r : record) line,
             wf_object r
             ∧ ∀ k, obj_get r k = obj_get (rev (zip_pad (cells (lit "a,b,a")) (cells line))) k)
          (csvToRecords (lit "a,b,a" ++ [LF] ++ lit "1,2,3")) [lit "1,2,3"].
Proof.
  apply (csv_repeated_column_keeps_last_cell _ (lit "a,b,a") [lit "1,2,3"]).
  - reflexivity.
  - unfold own_name. closed_decide.
Defined.

(** X3: delimited text written by [recordsToCsv] and read back by
    [csvToRecords] gives every record cut to the columns of the first
    record, in that order: a field the first record lacks is lost, a field
    a later record lacks comes back as the empty string.  The names and the
    values under them must be free of commas and line feeds and of
    whitespace at their ends, and no written line may be blank. *)
Theorem csv_write_read_cuts_to_first_columns (r0 : record) (rs : recordset) :
  wf_object r0 → Forall own_name (obj_keys r0) → csv_row (obj_keys r0) →
  Forall (λ r, csv_row (row_values (obj_keys r0) r)) (r0 :: rs) →
  csvToRecords (recordsToCsv (r0 :: rs)) = map (project (obj_keys r0)) (r0 :: rs).
Proof.
  intros Hwf _ Hh Hrows. rewrite csv_rows_read_back by done.
  apply map_ext_Forall, Forall_forall. intros r _. by apply assigned_row_project.
Qed.

Lemma csv_write_read_witness :
  csvToRecords
    (recordsToCsv [[(lit "id", lit "1"); (lit "amount", lit "100")];
                   [(lit "amount", lit "7"); (lit "memo", lit "rent")]])
  = map (project (obj_keys [(lit "id", lit "1"); (lit "amount", lit "100")]))
        [[(lit "id", lit "1"); (lit "amount", lit "100")];
         [(lit "amount", lit "7"); (lit "memo", lit "rent")]].
Proof.
  apply (csv_write_read_cuts_to_first_columns
           [(lit "id", lit "1"); (lit "amount", lit "100")]
           [[(lit "amount", lit "7"); (lit "memo", lit "rent")]]).
  - closed_decide.
  - unfold own_name. closed_decide.
  - unfold_plain. closed_decide.
  - unfold_plain. closed_decide.
Defined.

(** X4: records that share one field set, in whatever order, whose names
    and values are plain, come back from delimited text with the same
    fields and values; every record must have a field and must not be a
    single empty value, or its line would be blank. *)
Theorem csv_round_trip_same_fields (rs : recordset) :
  Forall plain_record rs → uniform rs → Forall visible rs →
  Forall2 same_fields (csvToRecords (recordsToCsv rs)) rs.
Proof.
  intros Hplain Huni Hvis.
  destruct rs as [|r0 rs']; [by constructor|].
  set (rs := r0 :: rs') in *.
  assert (∀ r, r ∈ rs → obj_keys r0 ≡ₚ obj_keys r) as Hperm.
  { intros r Hr. apply Huni; [apply list_elem_of_here|done]. }
  assert (plain_record r0 ∧ visible r0) as [Hr0 [Hne0 _]].
  { split; [by apply Forall_cons in Hplain as [? _]|by apply Forall_cons in Hvis as [? _]]. }
  unfold rs. rewrite csv_rows_read_back.
  - apply Forall2_fmap_l, Forall_Forall2_diag, Forall_forall. intros r Hr.
    unfold compose. rewrite assigned_row_project by (by destruct Hr0).
    apply project_same_fields; [|by apply Hperm].
    by apply (proj1 (Forall_forall _ _) Hplain) in Hr as [? _].
  - by apply plain_headers_row.
  - apply Forall_forall. intros r Hr. apply plain_values_row; [| |by apply Hperm].
    + by apply (proj1 (Forall_forall _ _) Hplain).
    + by apply (proj1 (Forall_forall _ _) Hvis).
Qed.

Lemma csv_round_trip_witness :
  Forall2 same_fields
    (csvToRecords
       (recordsToCsv [[(lit "id", lit "1"); (lit "amount", lit "100")];
                      [(lit "amount", lit "7"); (lit "id", lit "2")]]))
    [[(lit "id", lit "1"); (lit "amount", lit "100")];
     [(lit "amount", lit "7"); (lit "id", lit "2")]].
Proof.
  apply (csv_round_trip_same_fields
           [[(lit "id", lit "1"); (lit "amount", lit "100")];
            [(lit "amount", lit "7"); (lit "id", lit "2")]]).
  - unfold_plain. closed_decide.
  - apply (uniform_keys [lit "id"; lit "amount"]).
    repeat constructor.
  - unfold_plain. closed_decide.
Defined.

(** X5: tagged markup written by [recordsToXml] and read back by
    [xmlToRecords] gives one record per record, with the fields in the
    order written; every value comes back escaped (the parser decodes no
    entity) and trimmed.  Names must be made of word characters and must
    not be the item tag in any letter case. *)
Theorem xml_write_read_escapes_and_trims (rs : recordset) :
  Forall (λ r, wf_object r ∧ Forall plain_name (obj_keys r)) rs →
  xmlToRecords (recordsToXml rs)
  = Some (map (map (λ kv : str * str, (kv.1, trim (escXml kv.2)))) rs).
Proof.
  intros Hrs. rewrite xmlToRecords_recordsToXml.
  - f_equal. apply map_ext_Forall. eapply Forall_impl; [exact Hrs|].
    intros r [Hwf _]. by apply read_back_wf.
  - eapply Forall_impl; [exact Hrs|]. by intros r [_ ?].
Qed.

Lemma xml_write_read_witness :
  xmlToRecords (recordsToXml [[(lit "id", lit "1"); (lit "memo", lit " a<b & c ")]])
  = Some (map (map (λ kv : str * str, (kv.1, trim (escXml kv.2))))
              [[(lit "id", lit "1"); (lit "memo", lit " a<b & c ")]]).
Proof.
  apply (xml_write_read_escapes_and_trims
           [[(lit "id", lit "1"); (lit "memo", lit " a<b & c ")]]).
  unfold_plain. closed_decide.
Defined.

(** X6: a RecordSet of plain names and values comes back from tagged
    markup unchanged. *)
Theorem xml_round_trip_plain (rs : recordset) :
  Forall plain_record rs → xmlToRecords (recordsToXml rs) = Some rs.
Proof.
  intros Hrs. rewrite xmlToRecords_recordsToXml.
  - f_equal. rewrite <- (map_id rs) at 2. apply map_ext_Forall.
    eapply Forall_impl; [exact Hrs|]. intros r Hr. by apply read_back_plain.
  - eapply Forall_impl; [exact Hrs|]. intros r [_ Hall].
    unfold obj_keys. apply Forall_map. eapply Forall_impl; [exact Hall|].
    by intros kv [? _].
Qed.

Lemma xml_round_trip_witness :
  xmlToRecords
    (recordsToXml [[(lit "id", lit "1"); (lit "memo", lit "paid in full")];
                   [(lit "memo", lit "x")]])
  = Some [[(lit "id", lit "1"); (lit "memo", lit "paid in full")];
          [(lit "memo", lit "x")]].
Proof.
  apply (xml_round_trip_plain
           [[(lit "id", lit "1"); (lit "memo", lit "paid in full")];
            [(lit "memo", lit "x")]]).
  unfold_plain. closed_decide.
Defined.

(** X7: whatever the text, [escXml] leaves no angle bracket in it, and it
    leaves a text without ampersand and angle brackets as it is. *)
Theorem escXml_leaves_no_angle_bracket (s : str) :
  ("<"%char ∉ escXml s) ∧ (">"%char ∉ escXml s)
  ∧ (Forall (λ c, c ∉ ["&"; "<"; ">"]%char) s → escXml s = s).
Proof.
  split_and!; [apply escXml_no_lt|apply escXml_no_gt|].
  intros Hs. unfold escXml.
  assert (∀ c, c ∈ ["&"; "<"; ">"]%char → c ∉ s) as Hnot.
  { intros c Hc Hin. by apply (proj1 (Forall_forall _ _) Hs) in Hin. }
  rewrite (replace_char_absent "&") by (apply Hnot; set_solver).
  rewrite (replace_char_absent "<") by (apply Hnot; set_solver).
  rewrite (replace_char_absent ">") by (apply Hnot; set_solver).
  done.
Qed.

(** ** The store over a run of requests *)

(** The bodies submitted by a run of requests, each with the clock reading
    of its request. *)
Definition submitted (rqs : list request) : list (object jvalue * str) :=
  omap (λ rq, match rq with Submit body now => Some (body, now) | _ => None end) rqs.


Lemma serve_transactions rqs st :
  transactions (serve rqs st) =
  transactions st
  ++ imap (λ i (bn : object jvalue * str),
             make_txn (length (transactions st) + S i) bn.1 bn.2) (submitted rqs).
Proof.
  induction rqs as [|rq rqs IH] using rev_ind.
  - simpl. by rewrite app_nil_r.
  - rewrite serve_snoc, handle_transactions, IH. unfold submitted.
    rewrite omap_app, imap_app.
    destruct rq as [body now| |q ms w]; simpl; rewrite ?app_nil_r; [|done|done].
    rewrite <- app_assoc. do 4 f_equal.
    rewrite length_app, length_imap. lia.
Qed.

Lemma id_imap (g : nat → nat) (l : list (object jvalue * str)) :
  Forall (λ bn : object jvalue * str, wf_object bn.1) l →
  map (λ t : transaction, obj_get t (lit "id"))
      (imap (λ i (bn : object jvalue * str), make_txn (g i) bn.1 bn.2) l)
  = imap (λ i (bn : object jvalue * str),
            match obj_get bn.1 (lit "id") with
            | Some v => Some v
            | None => id_number (g i)
            end) l.
Proof.
  intros Hwf. revert g. induction Hwf as [|bn l Hbn _ IH]; intros g; [done|].
  rewrite !imap_cons. cbn [map]. rewrite make_txn_id by done. f_equal.
  exact (IH (λ i, g (S i))).
Qed.








(** X9: the identifier under which a submission is stored is the [id]
    member of its body when the body has one, and the number of the
    submission otherwise. *)
Theorem stored_id_is_own_or_position (rqs : list request) :
  Forall (λ bn : object jvalue * str, wf_object bn.1) (submitted rqs) →
  stored_ids (serve rqs store_init)
  = imap (λ i (bn : object jvalue * str),
            match obj_get bn.1 (lit "id") with
            | Some v => Some v
            | None => id_number (S i)
            end) (submitted rqs).
Proof.
  intros Hwf. unfold stored_ids.
  pose proof (serve_transactions rqs store_init) as Ht. simpl in Ht.
  rewrite Ht. by apply (id_imap S).
Qed.

Lemma stored_id_witness :
  stored_ids
    (serve [Submit [(lit "amount", JStr (lit "50"))] (lit "t1");
            Listing;
            Submit [(lit "id", JStr (lit "A-7"))] (lit "t2");
            Submit [] (lit "t3")] store_init)
  = imap (λ i (bn : object jvalue * str),
            match obj_get bn.1 (lit "id") with
            | Some v => Some v
            | None => id_number (S i)
            end)
         (submitted [Submit [(lit "amount", JStr (lit "50"))] (lit "t1");
                     Listing;
                     Submit [(lit "id", JStr (lit "A-7"))] (lit "t2");
                     Submit [] (lit "t3")]).
Proof.
  apply (stored_id_is_own_or_position
           [Submit [(lit "amount", JStr (lit "50"))] (lit "t1");
            Listing;
            Submit [(lit "id", JStr (lit "A-7"))] (lit "t2");
            Submit [] (lit "t3")]).
  repeat constructor; closed_decide.
Defined.

Lemma lower_idem c : lower (lower c) = lower c.
Proof. destruct c as [[] [] [] [] [] [] [] []]; by vm_compute. Qed.

Lemma toLowerCase_idem s : toLowerCase (toLowerCase s) = toLowerCase s.
Proof.
  unfold toLowerCase. rewrite map_map. apply map_ext. intros c. apply lower_idem.
Qed.

(** X10: the export route reads a [format] parameter that is a text
    without regard to letter case: the request answers, and writes, as the
    same request with the parameter in lower case. *)
Theorem export_format_ignores_letter_case
    (f : str) (now_ms : N) (write_ok : bool) (st : store) :
  post_export (QText f) now_ms write_ok st
  = post_export (QText (toLowerCase f)) now_ms write_ok st.
Proof.
  assert (export_format (QText f) = export_format (QText (toLowerCase f))) as Heq.
  { unfold export_format. destruct f as [|c f]; [done|].
    change (toLowerCase (c :: f)) with (lower c :: toLowerCase f) at 2.
    f_equal. symmetry. apply (toLowerCase_idem (c :: f)). }
  unfold post_export. by rewrite Heq.
Qed.

(** ** The bus over a run of operations *)

(** The operation makes the log of [topic] if there is none yet. *)
Definition touches (topic : str) (op : bus_op) : bool :=
  match op with
  | Publish t _ _ => bool_decide (t = topic)
  | SubscribeStream t _ => bool_decide (t = topic)
  | SubscribePoll t => bool_decide (t = topic)
  | Close _ _ => false
  end.

Lemma ensure_is_Some {V} (k k' : str) (m : gmap str (list V)) :
  is_Some (ensure k m !! k') ↔ is_Some (m !! k') ∨ k = k'.
Proof.
  unfold ensure. destruct (m !! k) eqn:Hk.
  - split; [by left|]. intros [?| <-]; [done|]. by rewrite Hk.
  - rewrite lookup_insert_is_Some. destruct (decide (k = k')); naive_solver.
Qed.

Lemma topics_step_is_Some op b topic :
  op_topic op ∉ inherited_names →
  is_Some (topics (bus_step op b) !! topic)
  ↔ is_Some (topics b !! topic) ∨ touches topic op = true.
Proof.
  intros Hp. rewrite bus_step_plain by done.
  destruct op as [t p now|t r|t|t r]; simpl.
  - rewrite lookup_insert_is_Some, bool_decide_eq_true.
    destruct (decide (t = topic)); naive_solver.
  - by rewrite ensure_is_Some, bool_decide_eq_true.
  - by rewrite ensure_is_Some, bool_decide_eq_true.
  - naive_solver.
Qed.

Lemma topics_run_is_Some ops topic :
  plain_topics ops →
  is_Some (topics (bus_run ops bus_init) !! topic) ↔ existsb (touches topic) ops = true.
Proof.
  induction ops as [|op ops IH] using rev_ind; intros Hplain.
  - simpl. rewrite lookup_empty. split; [by intros [? ?]|done].
  - apply Forall_app in Hplain as [Hplain Hop]. rewrite Forall_singleton in Hop.
    rewrite bus_run_snoc, topics_step_is_Some, IH, existsb_app by done. simpl.
    rewrite orb_false_r, orb_true_iff. done.
Qed.

Lemma get_topics_lookup b topic :
  get_topics b !! topic =
  if decide (is_Some (topics b !! topic)) then Some (length (log_of b topic)) else None.
Proof.
  unfold get_topics, log_of. rewrite lookup_fmap.
  by destruct (topics b !! topic) as [log|] eqn:Hl.
Qed.

Lemma get_topics_run ops topic :
  plain_topics ops →
  get_topics (bus_run ops bus_init) !! topic =
  if existsb (touches topic) ops then Some (length (published topic ops)) else None.
Proof.
  intros Hplain.
  rewrite get_topics_lookup, log_of_run by by apply plain_topics_regular.
  change (log_of bus_init topic) with (@nil message). simpl.
  rewrite messages_from_length.
  destruct (existsb (touches topic) ops) eqn:He.
  - rewrite decide_True; [done|]. by apply topics_run_is_Some.
  - rewrite decide_False; [done|]. rewrite topics_run_is_Some by done. congruence.
Qed.

(** X11: the summary of [GET /api/topics] lists a topic as soon as it has
    been published to or subscribed to, in either mode, and gives for each
    listed topic the number of messages published to it so far; closing a
    connection changes nothing in it. *)
Theorem topics_summary_counts_publications (ops : list bus_op) (topic : str) :
  plain_topics ops →
  get_topics (bus_run ops bus_init) !! topic =
  if existsb (touches topic) ops then Some (length (published topic ops)) else None.
Proof. apply get_topics_run. Qed.

Lemma topics_summary_witness :
  get_topics
    (bus_run [Publish (lit "payments") JNull (lit "t0");
              SubscribePoll (lit "audit");
              Publish (lit "payments") JNull (lit "t1");
              Close (lit "fees") 3] bus_init) !! lit "audit"
  = if existsb (touches (lit "audit"))
         [Publish (lit "payments") JNull (lit "t0");
          SubscribePoll (lit "audit");
          Publish (lit "payments") JNull (lit "t1");
          Close (lit "fees") 3]
    then Some (length (published (lit "audit")
                         [Publish (lit "payments") JNull (lit "t0");
                          SubscribePoll (lit "audit");
                          Publish (lit "payments") JNull (lit "t1");
                          Close (lit "fees") 3]))
    else None.
Proof.
  apply (topics_summary_counts_publications
           [Publish (lit "payments") JNull (lit "t0");
            SubscribePoll (lit "audit");
            Publish (lit "payments") JNull (lit "t1");
            Close (lit "fees") 3] (lit "audit")).
  unfold plain_topics. closed_decide.
Defined.

(** X12: [POST /api/publish/:topic] answers with the offset of the new
    message, which is the number of messages published to the topic before
    it; afterwards the summary counts one more. *)
Theorem publish_answers_with_the_count_so_far
    (ops : list bus_op) (topic : str) (body : jvalue) (now : str) :
  plain_topics (ops ++ [Publish topic body now]) →
  let r := post_publish topic body now (bus_run ops bus_init) in
  r.2 = Response 200
          (JObj [(lit "status", JStr (lit "published"));
                 (lit "topic", JStr topic);
                 (lit "offset", JNum (Z.of_nat (length (published topic ops))))])
  ∧ get_topics r.1 !! topic = Some (S (length (published topic ops))).
Proof.
  intros Hplain r. subst r.
  pose proof Hplain as [Hops Hop]%Forall_app. rewrite Forall_singleton in Hop.
  simpl in Hop. split.
  - unfold post_publish. rewrite publishToTopic_plain by done. cbn [snd offset].
    fold (log_of (bus_run ops bus_init) topic).
    rewrite log_of_run by by apply plain_topics_regular.
    change (log_of bus_init topic) with (@nil message). simpl.
    by rewrite messages_from_length.
  - change (post_publish topic body now (bus_run ops bus_init)).1
      with (bus_step (Publish topic body now) (bus_run ops bus_init)).
    rewrite <- bus_run_snoc, get_topics_run, existsb_app, published_app by done. simpl.
    rewrite bool_decide_eq_true_2 by done. rewrite orb_true_r.
    rewrite decide_True by done. rewrite length_app. simpl. f_equal. lia.
Qed.

Lemma publish_answer_witness :
  let r := post_publish (lit "payments") (JStr (lit "c")) (lit "t2")
             (bus_run [Publish (lit "payments") (JStr (lit "a")) (lit "t0");
                       Publish (lit "fees") (JStr (lit "b")) (lit "t1")] bus_init) in
  r.2 = Response 200
          (JObj [(lit "status", JStr (lit "published"));
                 (lit "topic", JStr (lit "payments"));
                 (lit "offset",
                  JNum (Z.of_nat
                          (length (published (lit "payments")
                                     [Publish (lit "payments") (JStr (lit "a")) (lit "t0");
                                      Publish (lit "fees") (JStr (lit "b")) (lit "t1")]))))])
  ∧ get_topics r.1 !! lit "payments"
    = Some (S (length (published (lit "payments")
                         [Publish (lit "payments") (JStr (lit "a")) (lit "t0");
                          Publish (lit "fees") (JStr (lit "b")) (lit "t1")]))).
Proof.
  apply (publish_answers_with_the_count_so_far
           [Publish (lit "payments") (JStr (lit "a")) (lit "t0");
            Publish (lit "fees") (JStr (lit "b")) (lit "t1")]
           (lit "payments") (JStr (lit "c")) (lit "t2")).
  unfold plain_topics. closed_decide.
Defined.

(** Two states of the bus that hold the same logs, the same subscribers
    and the same written frames. *)
Definition same_traffic (b b' : bus) : Prop :=
  (∀ t, log_of b t = log_of b' t) ∧ (∀ t, subs_of b t = subs_of b' t)
  ∧ sent b = sent b'.

Lemma sent_step op b :
  op_topic op ∉ inherited_names →
  sent (bus_step op b) =
  match op with
  | Publish t p now =>
      foldl (λ snt res, res_write res (sse_frame (Message (length (log_of b t)) now p)) snt)
            (sent b) (subs_of b t)
  | SubscribeStream t r =>
      foldl (λ snt msg, res_write r (sse_frame msg) snt) (sent b) (log_of b t)
  | _ => sent b
  end.
Proof. intros Hp. rewrite bus_step_plain by done. by destruct op. Qed.

Lemma same_traffic_step op b b' :
  op_topic op ∉ inherited_names →
  same_traffic b b' → same_traffic (bus_step op b) (bus_step op b').
Proof.
  intros Hp (Hlog & Hsubs & Hsent). split_and!.
  - intros t. by rewrite !log_of_step, Hlog by by apply regular_op.
  - intros t. rewrite !subs_of_step by by apply regular_op.
    destruct op; by rewrite ?Hsubs.
  - rewrite !sent_step by done. destruct op; by rewrite ?Hlog, ?Hsubs, Hsent.
Qed.

Lemma same_traffic_run ops b b' :
  plain_topics ops →
  same_traffic b b' → same_traffic (bus_run ops b) (bus_run ops b').
Proof.
  revert b b'. induction ops as [|op ops IH]; intros b b' Hplain H; [done|].
  apply Forall_cons in Hplain as [Hop Hplain].
  apply IH; [done|]. by apply same_traffic_step.
Qed.

Lemma same_traffic_poll topic b :
  topic ∉ inherited_names →
  same_traffic (get_subscribe_poll topic b).1 b.
Proof.
  intros Hp.
  change (get_subscribe_poll topic b).1 with (bus_step (SubscribePoll topic) b).
  rewrite bus_step_plain by done.
  split_and!; [| |done].
  - intros t. unfold log_of. simpl. apply default_ensure.
  - intros t. unfold subs_of. simpl. apply default_ensure.
Qed.

(** X13: the poll mode of [GET /api/subscribe/:topic] answers with the
    whole log of the topic, the messages published to it so far in offset
    order, and leaves no trace in the traffic: whatever happens later, every
    log, every subscriber list and every connection holds what it would
    hold had the poll not been made. *)
Theorem poll_answers_with_the_log_and_leaves_no_trace
    (ops later : list bus_op) (topic : str) :
  plain_topics (ops ++ SubscribePoll topic :: later) →
  let r := get_subscribe_poll topic (bus_run ops bus_init) in
  r.2 = Response 200
          (JObj [(lit "topic", JStr topic);
                 (lit "messages",
                  JArr (map json_of_message (messages_from 0 (published topic ops))))])
  ∧ same_traffic (bus_run later r.1) (bus_run later (bus_run ops bus_init)).
Proof.
  intros Hplain r. subst r.
  apply Forall_app in Hplain as [Hops [Hop Hlater]%Forall_cons]. simpl in Hop.
  split.
  - unfold get_subscribe_poll.
    rewrite bool_decide_eq_false_2 by (intros ->; apply Hop; closed_decide).
    rewrite bool_decide_eq_false_2 by done.
    cbn [snd]. rewrite default_ensure. fold (log_of (bus_run ops bus_init) topic).
    by rewrite log_of_run by by apply plain_topics_regular.
  - apply same_traffic_run; [done|]. by apply same_traffic_poll.
Qed.

Lemma poll_answer_witness :
  let ops := [Publish (lit "payments") (JStr (lit "a")) (lit "t0");
              SubscribeStream (lit "payments") 1] in
  let later := [Publish (lit "payments") (JStr (lit "b")) (lit "t1")] in
  let r := get_subscribe_poll (lit "payments") (bus_run ops bus_init) in
  r.2 = Response 200
          (JObj [(lit "topic", JStr (lit "payments"));
                 (lit "messages",
                  JArr (map json_of_message
                          (messages_from 0 (published (lit "payments") ops))))])
  ∧ same_traffic (bus_run later r.1) (bus_run later (bus_run ops bus_init)).
Proof.
  intros ops later.
  apply (poll_answers_with_the_log_and_leaves_no_trace ops later (lit "payments")).
  unfold plain_topics. closed_decide.
Defined.

(** X14: once the connection of a streaming subscriber is closed, nothing
    more is written to it, whatever is published afterwards. *)
Theorem closed_connection_receives_nothing_more
    (b : bus) (topic : str) (res : nat) (later : list bus_op) :
  plain_topics (Close topic res :: later) →
  attached b topic res →
  Forall (avoids res) later →
  received (bus_run later (unsubscribe topic res b)) res = received b res
  ∧ detached (bus_run later (unsubscribe topic res b)) res.
Proof.
  intros [Hp _]%Forall_cons Hatt Hav. simpl in Hp.
  assert (detached (unsubscribe topic res b) res) as Hdet.
  { intros t.
    change (unsubscribe topic res b) with (bus_step (Close topic res) b).
    rewrite subs_of_step by by apply regular_op.
    destruct (decide (topic = t)) as [->|Hne].
    - intros [Hne _]%list_elem_of_filter. done.
    - apply occurrences_0. rewrite (Hatt t). by rewrite decide_False by done. }
  destruct (detached_run later _ res Hav Hdet) as [Hdet' Hrec].
  split; [|done]. by rewrite Hrec.
Qed.

Lemma closed_connection_witness :
  let b := bus_step (SubscribeStream (lit "payments") 1) bus_init in
  let later := [Publish (lit "payments") (JStr (lit "a")) (lit "t0");
                SubscribeStream (lit "payments") 2;
                Publish (lit "payments") (JStr (lit "b")) (lit "t1")] in
  received (bus_run later (unsubscribe (lit "payments") 1 b)) 1 = received b 1
  ∧ detached (bus_run later (unsubscribe (lit "payments") 1 b)) 1.
Proof.
  intros b later.
  apply (closed_connection_receives_nothing_more b (lit "payments") 1 later).
  - unfold plain_topics. closed_decide.
  - apply attached_subscribe; [closed_decide|].
    intros t. vm_compute. apply not_elem_of_nil.
  - repeat constructor; simpl; lia.
Defined.

(** ** The watcher over a run of notifications *)

















Section DebounceRule.
Variable disk : nat → str → fkind.
Variable fp : str.


















End DebounceRule.




(** ** The pipeline on its input file *)

Lemma take_while_app_stop {A} (p : A → bool) l1 x l2 :
  Forall (λ y, p y = true) l1 → p x = false → take_while p (l1 ++ x :: l2) = l1.
Proof.
  intros Hall Hx. induction Hall as [|y l1 Hy _ IH]; simpl; [by rewrite Hx|].
  by rewrite Hy, IH.
Qed.

Lemma drop_while_app_stop {A} (p : A → bool) l1 x l2 :
  Forall (λ y, p y = true) l1 → p x = false → drop_while p (l1 ++ x :: l2) = x :: l2.
Proof.
  intros Hall Hx. induction Hall as [|y l1 Hy _ IH]; simpl; [by rewrite Hx|].
  by rewrite Hy, IH.
Qed.

Lemma extname_split stem e :
  stem ≠ [] → "."%char ∉ e → ¬ (stem = ["."%char] ∧ e = []) →
  extname (stem ++ "."%char :: e) = "."%char :: e.
Proof.
  intros Hstem He Hdots. unfold extname.
  assert (rev (stem ++ "."%char :: e) = rev e ++ "."%char :: rev stem) as ->.
  { rewrite rev_app_distr. simpl. by rewrite <- app_assoc. }
  assert (Forall (λ c, negb (Ascii.eqb c ".") = true) (rev e)) as Hall.
  { apply Forall_rev, Forall_forall. intros c Hc.
    destruct (Ascii.eqb_spec c ".") as [->|_]; done. }
  rewrite take_while_app_stop, drop_while_app_stop by done.
  rewrite rev_involutive.
  destruct (rev stem) as [|c r] eqn:Hrev.
  { apply (f_equal (@rev ascii)) in Hrev. rewrite rev_involutive in Hrev. done. }
  rewrite bool_decide_eq_false_2; [done|].
  intros Heq. apply Hdots.
  destruct stem as [|a [|b stem]]; [done| |].
  - simpl in Heq. injection Heq as -> Heq. by destruct e.
  - simpl in Heq. injection Heq as _ _ Heq. by destruct stem.
Qed.

Lemma basename_strip stem ext : ext ≠ [] → basename (stem ++ ext) ext = stem.
Proof.
  intros Hext. unfold basename. destruct ext as [|c ext]; [done|].
  rewrite length_app.
  replace (length stem + length (c :: ext) - length (c :: ext)) with (length stem) by lia.
  rewrite drop_app_length, take_app_length. by rewrite bool_decide_eq_true_2.
Qed.

Lemma basename_keep name stem ext ext' :
  name = stem ++ ext' → length ext' = length ext → ext' ≠ ext → basename name ext = name.
Proof.
  intros -> Hlen Hne. unfold basename. destruct ext as [|c ext]; [done|].
  rewrite length_app, Hlen.
  replace (length stem + length (c :: ext) - length (c :: ext)) with (length stem) by lia.
  rewrite drop_app_length. by rewrite bool_decide_eq_false_2.
Qed.

(** X17: how the pipeline names its output.  For a file [stem.e] the format
    is chosen by the extension in lower case, but the extension is cut off
    the name only when it is written in lower case: [batch.csv] gives
    [batch.json] and [batch.xml], and [BATCH.CSV], read as delimited text as
    well, gives [BATCH.CSV.json] and [BATCH.CSV.xml]. *)
Theorem output_name_keeps_an_upper_case_extension (stem e : str) :
  stem ≠ [] → "."%char ∉ e → ¬ (stem = ["."%char] ∧ e = []) →
  let name := stem ++ "."%char :: e in
  let ext := toLowerCase (extname name) in
  ext = "."%char :: toLowerCase e
  ∧ basename name ext = if decide (toLowerCase e = e) then stem else name.
Proof.
  intros Hstem He Hdots name ext. subst name ext.
  rewrite extname_split by done. split; [done|].
  change (toLowerCase ("."%char :: e)) with ("."%char :: toLowerCase e).
  case_decide as Hlow.
  - rewrite Hlow. by apply (basename_strip stem ("."%char :: e)).
  - apply (basename_keep _ stem _ ("."%char :: e)); [done| |congruence].
    unfold toLowerCase. simpl. by rewrite length_map.
Qed.

Lemma output_name_witness :
  let name := lit "BATCH" ++ "."%char :: lit "CSV" in
  let ext := toLowerCase (extname name) in
  ext = "."%char :: toLowerCase (lit "CSV")
  ∧ basename name ext
    = if decide (toLowerCase (lit "CSV") = lit "CSV") then lit "BATCH" else name.
Proof.
  apply (output_name_keeps_an_upper_case_extension (lit "BATCH") (lit "CSV")).
  - done.
  - closed_decide.
  - by intros [? _].
Defined.

Lemma handleFileTransform_records write_ok t1 t2 name content fx rs :
  toLowerCase (extname name) ∈ [lit ".csv"; lit ".json"; lit ".xml"] →
  parseFile content (toLowerCase (extname name)) = Done (Some (json_of_recordset rs)) →
  match rs with
  | [] =>
      handleFileTransform write_ok t1 t2 name content fx
      = (Effects (written fx) (logged fx ++ [NoRecords name]) (the_bus fx), Done ())
  | _ :: _ =>
      ∃ rest,
        logged (handleFileTransform write_ok t1 t2 name content fx).1
        = logged fx ++ Detected name (length rs) :: rest
  end.
Proof.
  intros Hext Hparse. unfold handleFileTransform.
  rewrite bool_decide_eq_true_2 by done. cbn [negb].
  rewrite Hparse, as_objects_json. destruct rs as [|r rs]; [done|].
  cbn [objects_of map]. rewrite convert_each_spec. cbn [written logged the_bus].
  rewrite publishToTopic_plain by apply file_transforms_plain.
  destruct (negb _); [|destruct (drop_while _ _) as [|t ts]; [|destruct (failure _ _ t)]];
    cbn [fst logged]; rewrite <- ?app_assoc;
    cbn [app length]; rewrite ?length_map; eauto.
Qed.

(** X18: a delimited-text file is judged by its lines that are not blank.
    With none, or with a header line only, the pipeline logs that the file
    has no records and writes and publishes nothing; otherwise it logs the
    file as detected with one record per line after the header. *)
Theorem csv_file_is_counted_by_its_lines
    (write_ok : str → bool) (t1 t2 name content : str) (fx : effects) :
  toLowerCase (extname name) = lit ".csv" →
  match nonblank_lines content with
  | [] | [_] =>
      handleFileTransform write_ok t1 t2 name content fx
      = (Effects (written fx) (logged fx ++ [NoRecords name]) (the_bus fx), Done ())
  | _ :: rows =>
      ∃ rest,
        logged (handleFileTransform write_ok t1 t2 name content fx).1
        = logged fx ++ Detected name (length rows) :: rest
  end.
Proof.
  intros Hext.
  pose proof (handleFileTransform_records write_ok t1 t2 name content fx
                (csvToRecords content)) as H.
  rewrite Hext in H. specialize (H ltac:(set_solver) (parseFile_csv content)).
  rewrite csvToRecords_spec in H. unfold csv_spec in H.
  destruct (nonblank_lines content) as [|header [|row rows]]; [done|done|].
  cbn [map] in H. destruct H as [rest H]. exists rest.
  rewrite H. cbn [length]. by rewrite length_map.
Qed.

Lemma csv_file_witness :
  match nonblank_lines (lit "id,amount" ++ [LF] ++ lit "1,100" ++ [LF; LF] ++ lit "2,200") with
  | [] | [_] =>
      handleFileTransform (λ _, true) (lit "t1") (lit "t2") (lit "batch.csv")
        (lit "id,amount" ++ [LF] ++ lit "1,100" ++ [LF; LF] ++ lit "2,200")
        (Effects [] [] bus_init)
      = (Effects (written (Effects [] [] bus_init))
                 (logged (Effects [] [] bus_init) ++ [NoRecords (lit "batch.csv")])
                 (the_bus (Effects [] [] bus_init)), Done ())
  | _ :: rows =>
      ∃ rest,
        logged (handleFileTransform (λ _, true) (lit "t1") (lit "t2") (lit "batch.csv")
                  (lit "id,amount" ++ [LF] ++ lit "1,100" ++ [LF; LF] ++ lit "2,200")
                  (Effects [] [] bus_init)).1
        = logged (Effects [] [] bus_init)
          ++ Detected (lit "batch.csv") (length rows) :: rest
  end.
Proof.
  apply (csv_file_is_counted_by_its_lines (λ _, true) (lit "t1") (lit "t2")
           (lit "batch.csv")
           (lit "id,amount" ++ [LF] ++ lit "1,100" ++ [LF; LF] ++ lit "2,200")
           (Effects [] [] bus_init)).
  reflexivity.
Defined.

Lemma field_loop_wf fuel s obj r :
  wf_object obj → field_loop fuel s obj = Some r → wf_object r.
Proof.
  revert s obj. induction fuel as [|fuel IH]; intros s obj Hwf; [done|].
  cbn [field_loop]. destruct (exec_from field_at s) as [[[name body] rest]|].
  - apply IH. by apply wf_obj_set.
  - by intros [= <-].
Qed.

Lemma item_loop_wf fuel s acc rs :
  Forall wf_object acc → item_loop fuel s acc = Some rs → Forall wf_object rs.
Proof.
  revert s acc. induction fuel as [|fuel IH]; intros s acc Hwf; [done|].
  cbn [item_loop]. destruct (exec_from item_at s) as [[inner rest]|].
  - destruct (field_loop (S (length inner)) inner []) as [obj|] eqn:Hobj; [|done].
    apply IH. apply Forall_app. split; [done|]. constructor; [|done].
    eapply field_loop_wf; [|exact Hobj]. apply NoDup_nil_2.
  - by intros [= <-].
Qed.

Lemma csvToRecords_wf csv : Forall wf_object (csvToRecords csv).
Proof.
  rewrite csvToRecords_spec. unfold csv_spec.
  destruct (nonblank_lines csv) as [|header rows]; [constructor|].
  apply Forall_map, Forall_forall. intros line _. apply wf_obj_of_pairs.
Qed.

Lemma xmlToRecords_wf xml rs : xmlToRecords xml = Some rs → Forall wf_object rs.
Proof. apply item_loop_wf. constructor. Qed.

(** X19: the structured document that the pipeline writes for the records
    of a delimited-text or tagged-markup file is read back by the pipeline
    as the same records, whatever the input file held. *)
Theorem parsed_records_survive_the_structured_document
    (content ext : str) (rs : recordset) :
  (ext = lit ".csv" ∧ csvToRecords content = rs)
  ∨ (ext = lit ".xml" ∧ xmlToRecords content = Some rs) →
  Forall (λ r, Forall own_name (obj_keys r)) rs →
  parseFile content ext = Done (Some (json_of_recordset rs))
  ∧ ∃ text,
      convert (lit ".json") (objects_of rs) = Done text
      ∧ parseFile text (lit ".json") = Done (Some (json_of_recordset rs)).
Proof.
  intros Hfrom _.
  assert (parseFile content ext = Done (Some (json_of_recordset rs))
          ∧ Forall wf_object rs) as [Hparse Hwf].
  { destruct Hfrom as [[-> <-]|[-> Hx]].
    - split; [apply parseFile_csv|apply csvToRecords_wf].
    - split; [by rewrite parseFile_xml, Hx|by apply (xmlToRecords_wf content)]. }
  split; [done|]. by apply json_round_trip.
Qed.

Lemma parsed_records_witness :
  parseFile (lit "<transaction><id>1</id><memo> a </memo><id>2</id></transaction>")
            (lit ".xml")
  = Done (Some (json_of_recordset [[(lit "id", lit "2"); (lit "memo", lit "a")]]))
  ∧ ∃ text,
      convert (lit ".json") (objects_of [[(lit "id", lit "2"); (lit "memo", lit "a")]])
      = Done text
      ∧ parseFile text (lit ".json")
        = Done (Some (json_of_recordset [[(lit "id", lit "2"); (lit "memo", lit "a")]])).
Proof.
  apply (parsed_records_survive_the_structured_document
           (lit "<transaction><id>1</id><memo> a </memo><id>2</id></transaction>")
           (lit ".xml") [[(lit "id", lit "2"); (lit "memo", lit "a")]]).
  - right. split; [reflexivity|]. by vm_compute.
  - unfold own_name. closed_decide.
Defined.

(** ** The bridge *)

(** The text of a record serialized on one line, written with its
    continuation. *)
Fixpoint line_members_text (l : record) (tail : str) : str :=
  match l with
  | [] => tail
  | kv :: l' =>
      quoted kv.1
        (":"
         :: quoted kv.2
              match l' with
              | [] => "}" :: tail
              | _ :: _ => "," :: line_members_text l' tail
              end)
  end%char.

Definition line_record_text (r : record) (tail : str) : str :=
  "{"%char
  :: match r with
     | [] => "}"%char :: tail
     | _ :: _ => line_members_text r tail
     end.

Lemma line_members_text_cons kv l tail :
  line_members_text (kv :: l) tail =
  quoted kv.1
    (":"
     :: quoted kv.2
          match l with
          | [] => "}" :: tail
          | _ :: _ => "," :: line_members_text l tail
          end)%char.
Proof. done. Qed.

Lemma parse_value_quoted_here fuel v tail :
  0 < fuel → parse_value fuel (quoted v tail) = Parsed (JStr v) tail.
Proof.
  destruct fuel as [|fuel]; [lia|]. intros _. cbn [parse_value].
  rewrite (value_step_string _ _ _ (concat (map quote_char v) ++ DQ :: tail)) by done.
  by rewrite parse_quoted.
Qed.

Lemma parse_line_members_text fuel l tail acc :
  l ≠ [] → length l < fuel → NoDup (obj_keys acc ++ obj_keys l) →
  parse_members fuel (line_members_text l tail) acc =
  Parsed (JObj (acc ++ map (λ kv : str * str, (kv.1, JStr kv.2)) l)) tail.
Proof.
  revert fuel acc. induction l as [|[k v] l IH]; intros fuel acc Hne Hfuel Hnd; [done|].
  destruct fuel as [|fuel]; [simpl in Hfuel; lia|].
  rewrite line_members_text_cons. cbn [parse_members fst snd].
  erewrite members_step_member;
    [|reflexivity|apply parse_quoted|reflexivity
     |apply parse_value_quoted_here; simpl in Hfuel; lia].
  assert (obj_set acc k (JStr v) = acc ++ [(k, JStr v)]) as Hset.
  { apply obj_set_fresh. apply NoDup_app in Hnd as (_ & Hdisj & _).
    intros Hin. apply (Hdisj _ Hin). unfold obj_keys. simpl. apply list_elem_of_here. }
  rewrite Hset. destruct l as [|kv l].
  - reflexivity.
  - change (skip_ws ("," :: ?s)%char) with (","%char :: s).
    change (Ascii.eqb "," ",") with true. cbv iota.
    rewrite IH; [|done|simpl in *; lia|].
    + by rewrite <- app_assoc.
    + unfold obj_keys in *. rewrite map_app, <- app_assoc. exact Hnd.
Qed.

Lemma parse_line_record_text fuel r tail :
  length r + 1 < fuel → wf_object r →
  parse_value fuel (line_record_text r tail) = Parsed (json_of_record r) tail.
Proof.
  intros Hfuel Hwf. destruct fuel as [|fuel]; [lia|]. cbn [parse_value].
  destruct r as [|kv r].
  - by erewrite value_step_object by reflexivity.
  - unfold line_record_text.
    erewrite value_step_object;
      [|reflexivity|rewrite line_members_text_cons; reflexivity].
    change (Ascii.eqb DQ "}") with false. cbv iota.
    rewrite parse_line_members_text; [done|done|simpl in *; lia|done].
Qed.

Lemma line_members_text_join l tail :
  l ≠ [] →
  join (lit ",") (map (λ kv : str * str, quote kv.1 ++ lit ":" ++ quote kv.2) l)
  ++ lit "}" ++ tail
  = line_members_text l tail.
Proof.
  induction l as [|kv l IH]; [done|]. intros _.
  rewrite line_members_text_cons. destruct l as [|kv' l].
  - cbn [map join]. unfold quote, quoted. rewrite <- !app_assoc. reflexivity.
  - rewrite <- IH by done. cbn [map]. rewrite join_cons_cons.
    unfold quote, quoted. rewrite <- !app_assoc. reflexivity.
Qed.

Lemma stringify_line_record r tail :
  JSON_stringify (json_of_record r) ++ tail = line_record_text r tail.
Proof.
  destruct r as [|kv r]; [reflexivity|].
  unfold line_record_text. rewrite <- line_members_text_join by done.
  unfold JSON_stringify, json_of_record.
  change (stringify [] [] (JObj (map ?f (kv :: r)))) with
    (lit "{"
     ++ join (lit ",")
          (map (λ kv : str * jvalue,
                  let '(k, x) := kv in quote k ++ lit ":" ++ stringify [] [] x)
               (map f (kv :: r)))
     ++ lit "}").
  rewrite map_map. rewrite <- !app_assoc. reflexivity.
Qed.

(** A record serialized on one line reads back as the record. *)
Lemma JSON_parse_line_record r :
  wf_object r → JSON_parse (JSON_stringify (json_of_record r)) = Parsed (json_of_record r) [].
Proof.
  intros Hwf. rewrite <- (app_nil_r (JSON_stringify _)), stringify_line_record.
  unfold JSON_parse.
  set (text := line_record_text r []).
  set (fuel := S (2 * length text)).
  set (big := fuel + length r + 2).
  assert (parse_value big text = Parsed (json_of_record r) []) as Hbig.
  { apply parse_line_record_text; [subst big; lia|done]. }
  assert (parse_value fuel text ≠ OutOfFuel) as Hfuel.
  { apply (proj1 (parse_fuel_suffices fuel)). subst fuel. lia. }
  rewrite <- (parse_value_more_fuel fuel big) by (done || subst big; lia).
  by rewrite Hbig.
Qed.

Lemma own_name_key k : own_name k → own_key k = true.
Proof.
  intros [Hin Hidx]. unfold own_key. rewrite Hidx.
  by rewrite bool_decide_eq_false_2.
Qed.

(** Records of text under names of their own are modelled. *)
Lemma modelled_text_record r :
  Forall own_name (obj_keys r) → modelled_record (members_of (json_of_record r)) = true.
Proof.
  unfold obj_keys. intros Hkeys.
  assert (∀ k v, (k, v) ∈ r → own_name k) as Hown.
  { intros k v Hin. apply (proj1 (Forall_forall _ _) Hkeys).
    apply list_elem_of_fmap. by exists (k, v). }
  unfold modelled_record. cbn [json_of_record members_of modelled].
  apply andb_true_iff. split; apply forallb_forall; intros kv Hin%list_elem_of_In;
    apply list_elem_of_fmap in Hin as ([k v] & -> & Hin);
    apply Hown in Hin; simpl.
  - by apply own_name_key.
  - destruct Hin as [_ ->]. done.
Qed.

Lemma modelled_text_records rs :
  Forall (λ r, Forall own_name (obj_keys r)) rs →
  forallb modelled_record (objects_of rs) = true
  ∧ forallb modelled_item (map json_of_record rs) = true.
Proof.
  intros Hall. split; apply forallb_forall; intros x Hin%list_elem_of_In;
    apply list_elem_of_fmap in Hin as (r & -> & Hin);
    apply (proj1 (Forall_forall _ _) Hall) in Hin; by apply modelled_text_record.
Qed.

(** X20: for a delimited-text or tagged-markup file the bridge writes one
    request per record, in the order of the records, and the body of each
    is a one-line document that reads back as the record; a file without
    records gives no request. *)
Theorem bridge_sends_each_record_as_its_own_document
    (name content : str) (rs : recordset) :
  (toLowerCase (extname name) = lit ".csv" ∧ csvToRecords content = rs)
  ∨ (toLowerCase (extname name) = lit ".xml" ∧ xmlToRecords content = Some rs) →
  Forall (λ r, Forall own_name (obj_keys r)) rs →
  handleApiBridge name content
  = Done (map (λ r, JSON_stringify (json_of_record r)) rs)
  ∧ Forall (λ r, JSON_parse (JSON_stringify (json_of_record r))
                 = Parsed (json_of_record r) []) rs.
Proof.
  intros Hfrom Hown.
  assert (toLowerCase (extname name) ∈ [lit ".csv"; lit ".json"; lit ".xml"]
          ∧ parseFile content (toLowerCase (extname name))
            = Done (Some (json_of_recordset rs))
          ∧ Forall wf_object rs) as (Hext & Hparse & Hwf).
  { destruct Hfrom as [[-> <-]|[-> Hx]].
    - split_and!; [set_solver|apply parseFile_csv|apply csvToRecords_wf].
    - split_and!; [set_solver|by rewrite parseFile_xml, Hx
                  |by apply (xmlToRecords_wf content)]. }
  split.
  - unfold handleApiBridge. rewrite bool_decide_eq_true_2 by done.
    cbn [negb]. rewrite Hparse. unfold json_of_recordset.
    rewrite (proj2 (modelled_text_records rs Hown)).
    by rewrite map_map.
  - eapply Forall_impl; [exact Hwf|]. intros r Hr. by apply JSON_parse_line_record.
Qed.

Lemma bridge_witness :
  handleApiBridge (lit "batch.csv") (lit "id,memo" ++ [LF] ++ lit "1,rent" ++ [LF] ++ lit "2")
  = Done (map (λ r, JSON_stringify (json_of_record r))
              [[(lit "id", lit "1"); (lit "memo", lit "rent")];
               [(lit "id", lit "2"); (lit "memo", [])]])
  ∧ Forall (λ r, JSON_parse (JSON_stringify (json_of_record r))
                 = Parsed (json_of_record r) [])
           [[(lit "id", lit "1"); (lit "memo", lit "rent")];
            [(lit "id", lit "2"); (lit "memo", [])]].
Proof.
  apply (bridge_sends_each_record_as_its_own_document (lit "batch.csv")
           (lit "id,memo" ++ [LF] ++ lit "1,rent" ++ [LF] ++ lit "2")
           [[(lit "id", lit "1"); (lit "memo", lit "rent")];
            [(lit "id", lit "2"); (lit "memo", [])]]).
  - left. split; reflexivity.
  - unfold own_name. closed_decide.
Defined.

(** ** The pipeline and the bus *)

Lemma drop_while_forallb {A} (p : A → bool) (l : list A) :
  drop_while p l = [] ↔ forallb p l = true.
Proof.
  induction l as [|x l IH]; simpl; [done|].
  destruct (p x); simpl; [done|]. split; discriminate.
Qed.

(** The frame that announces a converted file: the line [data: ] with the
    message as a one-line document, then an empty line. *)
Definition announcement (number : nat) (now_message name : str) (count : nat)
    (now_payload : str) : str :=
  lit "data: {"
  ++ quote (lit "offset") ++ lit ":" ++ lit (pretty (Z.of_nat number)) ++ lit ","
  ++ quote (lit "timestamp") ++ lit ":" ++ quote now_message ++ lit ","
  ++ quote (lit "data") ++ lit ":{"
  ++ quote (lit "source") ++ lit ":" ++ quote name ++ lit ","
  ++ quote (lit "recordCount") ++ lit ":" ++ lit (pretty (Z.of_nat count)) ++ lit ","
  ++ quote (lit "timestamp") ++ lit ":" ++ quote now_payload
  ++ lit "}}" ++ [LF; LF].

Lemma sse_frame_announcement number now_message name count now_payload :
  sse_frame (Message number now_message
               (JObj [(lit "source", JStr name);
                      (lit "recordCount", JNum (Z.of_nat count));
                      (lit "timestamp", JStr now_payload)]))
  = announcement number now_message name count now_payload.
Proof.
  unfold sse_frame, announcement, JSON_stringify, json_of_message.
  cbn [stringify map join offset timestamp data].
  rewrite !app_nil_r, <- !app_assoc. reflexivity.
Qed.

(** X21: a file that the pipeline converts is announced once to every
    streaming subscriber of the topic [file-transforms]: when every output
    is converted and written, each connection subscribed to the topic
    receives one frame more, the message with the next offset of the topic
    that carries the file name and the number of records; when a
    conversion or a write fails, the subscribers receive nothing. *)
Theorem transform_notifies_subscribers_once
    (write_ok : str → bool) (now_payload now_message name content : str)
    (fx : effects) (v : jvalue) (r0 : object jvalue) (records : list (object jvalue))
    (res : nat) :
  let ext := toLowerCase (extname name) in
  let base := basename name ext in
  let r := handleFileTransform write_ok now_payload now_message name content fx in
  let topic := lit "file-transforms" in
  ext ∈ [lit ".csv"; lit ".json"; lit ".xml"] →
  parseFile content ext = Done (Some v) →
  as_objects v = Some (r0 :: records) →
  forallb modelled_record (r0 :: records) = true →
  attached (the_bus fx) topic res →
  received (the_bus r.1) res =
    received (the_bus fx) res
    ++ if forallb (produced write_ok base (r0 :: records)) (conversions ext)
       then [announcement (length (log_of (the_bus fx) topic)) now_message
                          name (length (r0 :: records)) now_payload]
       else [].
Proof.
  intros ext base r topic Hext Hparse Hobjs Hm Hatt.
  subst r. unfold handleFileTransform. fold ext. fold base.
  rewrite bool_decide_eq_true_2 by done. cbn [negb].
  rewrite Hparse, Hobjs, Hm. cbn [negb].
  rewrite convert_each_spec. cbn [written logged the_bus].
  rewrite publishToTopic_plain by apply file_transforms_plain.
  destruct (drop_while (produced write_ok base (r0 :: records)) (conversions ext))
    as [|t ts] eqn:Hdrop.
  - rewrite (proj1 (drop_while_forallb _ _) Hdrop). cbn [fst the_bus].
    rewrite (proj2 (avoiding_step (Publish topic _ now_message) (the_bus fx) res [] I)).
    rewrite decide_False by apply file_transforms_plain.
    rewrite (Hatt topic), decide_True by done.
    by rewrite sse_frame_announcement.
  - destruct (forallb (produced write_ok base (r0 :: records)) (conversions ext)) eqn:Hall.
    + apply drop_while_forallb in Hall. congruence.
    + unfold failure. destruct (convert t (r0 :: records));
        cbn [fst the_bus]; by rewrite app_nil_r.
Qed.

Lemma transform_notifies_witness :
  let fx := Effects [] [] (bus_step (SubscribeStream (lit "file-transforms") 1) bus_init) in
  let content := lit "id,amount" ++ [LF] ++ lit "1,100" in
  let r0 := [(lit "id", JStr (lit "1")); (lit "amount", JStr (lit "100"))] in
  let ext := toLowerCase (extname (lit "batch.csv")) in
  let base := basename (lit "batch.csv") ext in
  let r := handleFileTransform (λ _, true) (lit "t1") (lit "t2") (lit "batch.csv")
             content fx in
  let topic := lit "file-transforms" in
  received (the_bus r.1) 1 =
    received (the_bus fx) 1
    ++ if forallb (produced (λ _, true) base [r0]) (conversions ext)
       then [announcement (length (log_of (the_bus fx) topic)) (lit "t2")
                          (lit "batch.csv") (length [r0]) (lit "t1")]
       else [].
Proof.
  intros fx content r0.
  apply (transform_notifies_subscribers_once (λ _, true) (lit "t1") (lit "t2")
           (lit "batch.csv") content fx
           (json_of_recordset [[(lit "id", lit "1"); (lit "amount", lit "100")]])
           r0 [] 1).
  - closed_decide.
  - vm_compute. reflexivity.
  - vm_compute. reflexivity.
  - vm_compute. reflexivity.
  - apply attached_subscribe; [closed_decide|].
    intros t. vm_compute. apply not_elem_of_nil.
Defined.
